(** * mcp-filesystem: security kernel, directory watcher, directory
    operations, batch executor and disk usage analyzer, embedded from the
    TypeScript sources.

    Definitions:
    - [JsString], [Path], [PathAux]: the string and POSIX path primitives
      the sources call ([String.prototype.startsWith/includes/endsWith],
      [path.resolve], [path.dirname]), and normalized segments.
    - [Security], [SecurityAux], [SecurityCases]:
      [src/lib/SecurityManager.ts], with sample managers.
    - [ErrorHandler]: [src/lib/ErrorHandler.ts], [handleSecurityError].
    - [Watcher], [WatcherAux], [Tools]: [DirectoryWatcher.ts], with event
      arrays as heap objects, and [fsGetWatchEvents] of
      [src/lib/MCPTools.ts].
    - [Fs], [Tree]: the filesystem tree, the [fs] calls the operations
      make, and the measures of a tree.
    - [DirOps], [DirOpsAux], [DirCopy], [DirCopyAux]:
      [src/lib/DirectoryOperations.ts].
    - [Batch], [BatchAux]: [src/lib/BatchOperationManager.ts].
    - [DiskUsage], [DiskUsageAux]: [src/lib/DiskUsageAnalyzer.ts].

    Theorems: [SecurityFacts], [WatcherFacts], [FsFacts], [DirOpsFacts],
    [BatchFacts], [PathFacts], [SecurityLaws], [ErrorHandlerFacts],
    [WatcherLaws], [TreeFacts], [BatchLaws], [DirCopyFacts],
    [DiskUsageFacts].

    Conventions.  Paths are POSIX paths ([path.sep] is [/]).  A call whose
    recursion depth depends on the filesystem takes a bound on the nesting
    and answers [Unfinished] / [OutOfFuel] when the bound is too small.
    [Date.now()] and the time stamp of a write are readings of a clock
    given as a function of the number of readings taken so far. *)

From Stdlib Require Import ZArith Ascii String Lia Sorted.
From stdpp Require Import base option list strings gmap pretty.

Local Open Scope Z_scope.

(* ================================================================== *)
(** ** JavaScript string primitives *)
(* ================================================================== *)

Module JsString.

(** [s.startsWith(p)] *)
Definition startsWith (s p : string) : bool := String.prefix p s.

(** [s.includes(sub)]: some suffix of [s] starts with [sub]. *)
Fixpoint includes (s sub : string) : bool :=
  String.prefix sub s
  || match s with
     | EmptyString => false
     | String _ s' => includes s' sub
     end.

(** [s.endsWith(suf)] *)
Definition endsWith (s suf : string) : bool :=
  String.prefix (String.rev suf) (String.rev s).

(** ASCII lower-casing, the only folding a non-unicode [/.../i] regular
    expression performs between ASCII letters. *)
Definition lower (c : ascii) : ascii :=
  let n := nat_of_ascii c in
  if ((65 <=? n)%nat && (n <=? 90)%nat)%bool then ascii_of_nat (n + 32) else c.

Fixpoint toLower (s : string) : string :=
  match s with
  | EmptyString => EmptyString
  | String c s' => String (lower c) (toLower s')
  end.

Definition eqb (a b : string) : bool := bool_decide (a = b).

End JsString.

(* ================================================================== *)
(** ** POSIX [path] module *)
(* ================================================================== *)

Module Path.

(** [path.sep] on POSIX. *)
Definition sep : string := "/".

Definition slash : ascii := "/"%char.

Definition isAbsolute (p : string) : bool :=
  match p with
  | String c _ => bool_decide (c = slash)
  | EmptyString => false
  end.

(** [p.split("/")], the current segment accumulated in reverse. *)
Fixpoint split_go (cur : string) (p : string) : list string :=
  match p with
  | EmptyString => [String.rev cur]
  | String c p' =>
      if bool_decide (c = slash)
      then String.rev cur :: split_go EmptyString p'
      else split_go (String c cur) p'
  end.

Definition split (p : string) : list string := split_go EmptyString p.

Fixpoint joinSegments (segs : list string) : string :=
  match segs with
  | [] => EmptyString
  | [s] => s
  | s :: rest => s +:+ "/" +:+ joinSegments rest
  end.

(** [normalizeString] of Node's [path] for an absolute path
    ([allowAboveRoot = false]): empty and [.] segments are dropped and
    [..] removes the segment before it, staying at the root when there is
    none.  [stack] holds the kept segments, innermost first. *)
Fixpoint normalize_go (stack : list string) (segs : list string) : list string :=
  match segs with
  | [] => rev stack
  | s :: rest =>
      if bool_decide (s = "") || bool_decide (s = ".") then normalize_go stack rest
      else if bool_decide (s = "..") then normalize_go (tail stack) rest
      else normalize_go (s :: stack) rest
  end.

Definition normalizeAbsolute (p : string) : string :=
  "/" +:+ joinSegments (normalize_go [] (split p)).

(** The right-to-left loop of [path.resolve]: arguments are prepended
    (empty ones skipped) until one of them is absolute. *)
Fixpoint resolve_go (revArgs : list string) (acc : string) : string :=
  match revArgs with
  | [] => acc
  | p :: rest =>
      if bool_decide (p = "") then resolve_go rest acc
      else if isAbsolute p then p +:+ "/" +:+ acc
      else resolve_go rest (p +:+ "/" +:+ acc)
  end.

(** [path.resolve(...args)] with the process working directory [cwd]
    (an absolute path) as the implicit first argument. *)
Definition resolve (cwd : string) (args : list string) : string :=
  normalizeAbsolute (resolve_go (rev (cwd :: args)) "").

(** [path.dirname(p)].  The scan runs from the last character down to
    index 1: trailing slashes are skipped, then the last segment, and the
    text before the slash that precedes it is returned. *)
Fixpoint dropWhileSlash (r : string) : string :=
  match r with
  | String c r' => if bool_decide (c = slash) then dropWhileSlash r' else r
  | EmptyString => EmptyString
  end.

Fixpoint dropSegment (r : string) : option string :=
  match r with
  | String c r' => if bool_decide (c = slash) then Some r' else dropSegment r'
  | EmptyString => None
  end.

Definition dirname (p : string) : string :=
  match p with
  | EmptyString => "."
  | String c0 body =>
      let hasRoot := bool_decide (c0 = slash) in
      match dropSegment (dropWhileSlash (String.rev body)) with
      | None => if hasRoot then "/" else "."
      | Some before =>
          if hasRoot && bool_decide (before = "") then "//"
          else String c0 (String.rev before)
      end
  end.

End Path.

(* ================================================================== *)
(** ** SecurityManager.ts *)
(* ================================================================== *)

Module Security.
Import JsString.

Inductive operation := Read | Write | Delete.

(** The [SecurityError]s of [SecurityManager], one constructor per
    [throw] site. *)
Inductive violation :=
| WorkspaceEscape          (* "Path traversal detected - path outside workspace" *)
| PathTraversal            (* "Path contains traversal sequences" *)
| SystemPathAccess         (* "Cannot access system directories" *)
| SensitiveFileAccess      (* "Cannot access sensitive files" *)
| SubdirectoryRestriction  (* "Path not in allowed subdirectories" *)
| BlockedPath              (* "Path is blocked by security policy" *)
| BlockedPattern           (* "Path matches blocked pattern" *)
| ReadOnlyMode             (* "Filesystem is in read-only mode" *)
| SymlinkEscape            (* "Symlink target outside workspace" *)
| FileSizeExceeded
| BatchSizeExceeded
| RateLimit.               (* "Rate limit exceeded" *)

(** The [type] field that [auditSecurityViolation] logs before the
    throw; the read-only and size guards throw without an audit line. *)
Definition auditType (v : violation) : option string :=
  match v with
  | WorkspaceEscape => Some "workspace_escape"
  | PathTraversal => Some "path_traversal"
  | SystemPathAccess => Some "system_path_access"
  | SensitiveFileAccess => Some "sensitive_file_access"
  | SubdirectoryRestriction => Some "subdirectory_restriction"
  | BlockedPath => Some "blocked_path"
  | BlockedPattern => Some "blocked_pattern"
  | SymlinkEscape => Some "symlink_escape"
  | RateLimit => Some "rate_limit"
  | ReadOnlyMode | FileSizeExceeded | BatchSizeExceeded => None
  end.

(** [error.message] of each [SecurityError]. *)
Definition message (v : violation) : string :=
  match v with
  | WorkspaceEscape => "Path traversal detected - path outside workspace"
  | PathTraversal => "Path contains traversal sequences"
  | SystemPathAccess => "Cannot access system directories"
  | SensitiveFileAccess => "Cannot access sensitive files"
  | SubdirectoryRestriction => "Path not in allowed subdirectories"
  | BlockedPath => "Path is blocked by security policy"
  | BlockedPattern => "Path matches blocked pattern"
  | ReadOnlyMode => "Filesystem is in read-only mode"
  | SymlinkEscape => "Symlink target outside workspace"
  | FileSizeExceeded => "File size exceeds maximum"
  | BatchSizeExceeded => "Batch size exceeds maximum"
  | RateLimit => "Rate limit exceeded"
  end.

(** Result of a call: a value, a thrown [SecurityError], or a recursion
    that did not finish within the given number of nested calls. *)
Inductive outcome (A : Type) :=
| Returns (a : A)
| Throws (v : violation)
| Unfinished.
Arguments Returns {A} a.
Arguments Throws {A} v.
Arguments Unfinished {A}.

(** A compiled [RegExp], by what [test] answers. *)
Record RegExp := { test : string → bool }.

Definition reContains (lit : string) : RegExp :=
  {| test := λ s, includes s lit |}.
Definition reEndsWith (lit : string) : RegExp :=
  {| test := λ s, endsWith s lit |}.
Definition reContainsIgnoreCase (lit : string) : RegExp :=
  {| test := λ s, includes (toLower s) (toLower lit) |}.

Definition SYSTEM_PATHS : list string :=
  [ "/etc"; "/sys"; "/proc"; "/dev"; "/boot"; "/root";
    "C:\Windows"; "C:\Program Files"; "C:\Program Files (x86)";
    "/System"; "/Library"; "/Applications";
    "/bin"; "/sbin"; "/usr/bin"; "/usr/sbin" ].

Definition SENSITIVE_PATTERNS : list RegExp :=
  [ reContains ".ssh/";            (* /\.ssh\//  *)
    reContains ".aws/";            (* /\.aws\//  *)
    reContains ".kube/";           (* /\.kube\// *)
    reContains "id_rsa";           (* /id_rsa/   *)
    reEndsWith ".pem";             (* /\.pem$/   *)
    reEndsWith ".key";             (* /\.key$/   *)
    reEndsWith ".p12";             (* /\.p12$/   *)
    reEndsWith ".pfx";             (* /\.pfx$/   *)
    reContainsIgnoreCase "password";  (* /password/i *)
    reContainsIgnoreCase "secret";    (* /secret/i   *)
    reContainsIgnoreCase "token";     (* /token/i    *)
    reEndsWith ".env" ].           (* /\.env$/   *)

(** What [validatePath] asks the filesystem. *)
Record FsView := {
  existsSync : string → bool;
  isSymbolicLink : string → bool;   (* fs.lstatSync(p).isSymbolicLink() *)
  readlinkSync : string → string
}.

(** The fields of a constructed [SecurityManager].  [workspaceRoot],
    [allowedSubdirectories] and [blockedPaths] hold the paths the
    constructor already passed through [path.resolve]; the two sets are
    lists in insertion order. *)
Record SecurityManager := {
  workspaceRoot : string;
  allowedSubdirectories : option (list string);
  blockedPaths : list string;
  blockedPatterns : list RegExp;
  readOnly : bool;
  maxFileSize : Z;
  maxBatchSize : Z;
  maxOperationsPerMinute : Z;
  enableAuditLog : bool;
  operationCount : gmap string (list Z);
  emergencyMode : bool
}.

Definition insideWorkspace (root resolved : string) : bool :=
  startsWith resolved (root +:+ Path.sep) || eqb resolved root.

Definition hasTraversal (filePath : string) : bool :=
  includes filePath ".." || includes filePath "./" || includes filePath ".\".

Definition isAllowed (allowed : list string) (resolved : string) : bool :=
  existsb (λ a, startsWith resolved (a +:+ Path.sep) || eqb resolved a) allowed.

Definition isMutation (op : operation) : bool :=
  match op with Read => false | Write | Delete => true end.

Section validate.
Context (cwd : string) (fs : FsView) (sm : SecurityManager).

(** [validatePath(filePath, operation)].  [depth] bounds the nesting
    of the recursive call of layer 10; the source has no such bound. *)
Fixpoint validatePath (depth : nat) (filePath : string) (op : operation)
  : outcome string :=
  match depth with
  | O => Unfinished
  | S depth' =>
    let resolved := Path.resolve cwd [workspaceRoot sm; filePath] in
    if negb (startsWith resolved (workspaceRoot sm +:+ Path.sep))
       && negb (eqb resolved (workspaceRoot sm))
    then Throws WorkspaceEscape
    else if hasTraversal filePath then Throws PathTraversal
    else if existsb (startsWith resolved) SYSTEM_PATHS
    then Throws SystemPathAccess
    else if existsb (λ re, test re resolved) SENSITIVE_PATTERNS
    then Throws SensitiveFileAccess
    else if match allowedSubdirectories sm with
            | Some ((_ :: _) as allowed) => negb (isAllowed allowed resolved)
            | _ => false
            end
    then Throws SubdirectoryRestriction
    else if existsb (startsWith resolved) (blockedPaths sm)
    then Throws BlockedPath
    else if existsb (λ re, test re resolved) (blockedPatterns sm)
    then Throws BlockedPattern
    else if readOnly sm && isMutation op then Throws ReadOnlyMode
    else if existsSync fs resolved && isSymbolicLink fs resolved then
      let target := readlinkSync fs resolved in
      let resolvedTarget := Path.resolve cwd [Path.dirname resolved; target] in
      match validatePath depth' resolvedTarget op with
      | Returns _ => Returns resolved
      | Throws v => Throws v
      | Unfinished => Unfinished
      end
    else Returns resolved
  end.

(** [validateSymlink(linkPath, targetPath)] *)
Definition validateSymlink (depth : nat) (linkPath targetPath : string)
  : outcome unit :=
  match validatePath depth linkPath Write with
  | Returns resolvedLink =>
      let resolvedTarget :=
        Path.resolve cwd [Path.dirname resolvedLink; targetPath] in
      if negb (startsWith resolvedTarget (workspaceRoot sm +:+ Path.sep))
      then Throws SymlinkEscape
      else match validatePath depth resolvedTarget Read with
           | Returns _ => Returns tt
           | Throws v => Throws v
           | Unfinished => Unfinished
           end
  | Throws v => Throws v
  | Unfinished => Unfinished
  end.
End validate.

Definition validateFileSize (sm : SecurityManager) (size : Z) : outcome unit :=
  if maxFileSize sm <? size then Throws FileSizeExceeded else Returns tt.

Definition validateBatchSize (sm : SecurityManager) (totalSize : Z)
    (operationCnt : nat) : outcome unit :=
  if maxBatchSize sm <? totalSize then Throws BatchSizeExceeded else Returns tt.

Definition setOperationCount (m : gmap string (list Z)) (sm : SecurityManager)
  : SecurityManager :=
  {| workspaceRoot := workspaceRoot sm;
     allowedSubdirectories := allowedSubdirectories sm;
     blockedPaths := blockedPaths sm;
     blockedPatterns := blockedPatterns sm;
     readOnly := readOnly sm;
     maxFileSize := maxFileSize sm;
     maxBatchSize := maxBatchSize sm;
     maxOperationsPerMinute := maxOperationsPerMinute sm;
     enableAuditLog := enableAuditLog sm;
     operationCount := m;
     emergencyMode := emergencyMode sm |}.

Definition setEmergencyMode (b : bool) (sm : SecurityManager) : SecurityManager :=
  {| workspaceRoot := workspaceRoot sm;
     allowedSubdirectories := allowedSubdirectories sm;
     blockedPaths := blockedPaths sm;
     blockedPatterns := blockedPatterns sm;
     readOnly := readOnly sm;
     maxFileSize := maxFileSize sm;
     maxBatchSize := maxBatchSize sm;
     maxOperationsPerMinute := maxOperationsPerMinute sm;
     enableAuditLog := enableAuditLog sm;
     operationCount := operationCount sm;
     emergencyMode := b |}.

(** [recent = ops.filter((t) => now - t < 60000)] *)
Definition recentOps (now : Z) (ops : list Z) : list Z :=
  filter (λ t, now - t < 60000) ops.

(** [checkRateLimit(agentId)] with [now] the value [Date.now()] returns.
    A rejected call leaves the stored list as it was. *)
Definition checkRateLimit (sm : SecurityManager) (agentId : string) (now : Z)
  : outcome unit * SecurityManager :=
  let ops := default [] (operationCount sm !! agentId) in
  let recent := recentOps now ops in
  if maxOperationsPerMinute sm <=? Z.of_nat (length recent)
  then (Throws RateLimit, sm)
  else (Returns tt,
        setOperationCount (<[agentId := recent ++ [now]]> (operationCount sm)) sm).

Definition emergencyStop (sm : SecurityManager) : SecurityManager :=
  setEmergencyMode true sm.
Definition resumeOperations (sm : SecurityManager) : SecurityManager :=
  setEmergencyMode false sm.
Definition isEmergencyMode (sm : SecurityManager) : bool := emergencyMode sm.

End Security.

(* ================================================================== *)
(** ** SecurityManager: sample configurations and derived notions *)
(* ================================================================== *)

Module SecurityAux.
Import JsString Security.

(** A workspace [/ws] with no user restriction, and a filesystem without
    symbolic links. *)
Definition wsManager : SecurityManager :=
  {| workspaceRoot := "/ws";
     allowedSubdirectories := None;
     blockedPaths := [];
     blockedPatterns := [];
     readOnly := false;
     maxFileSize := 104857600;
     maxBatchSize := 1073741824;
     maxOperationsPerMinute := 100;
     enableAuditLog := true;
     operationCount := ∅;
     emergencyMode := false |}.

(** A workspace below the hardcoded prefix [/Library]. *)
Definition libraryManager : SecurityManager :=
  {| workspaceRoot := "/Library/ws";
     allowedSubdirectories := Some ["/Library/ws"];
     blockedPaths := [];
     blockedPatterns := [];
     readOnly := false;
     maxFileSize := 104857600;
     maxBatchSize := 1073741824;
     maxOperationsPerMinute := 100;
     enableAuditLog := true;
     operationCount := ∅;
     emergencyMode := false |}.

(** A manager with a given per-minute limit and stored timestamps. *)
Definition rateManager (limit : Z) (ops : gmap string (list Z)) : SecurityManager :=
  {| workspaceRoot := "/ws";
     allowedSubdirectories := None;
     blockedPaths := [];
     blockedPatterns := [];
     readOnly := false;
     maxFileSize := 104857600;
     maxBatchSize := 1073741824;
     maxOperationsPerMinute := limit;
     enableAuditLog := true;
     operationCount := ops;
     emergencyMode := false |}.

Definition noLinks : FsView :=
  {| existsSync := λ _, true;
     isSymbolicLink := λ _, false;
     readlinkSync := λ _, "" |}.

(** The layers before the symlink step, as one decision: the rejection
    the first failing layer raises, if any. *)
Definition firstRejection (cwd : string) (sm : SecurityManager)
    (filePath : string) (op : operation) : option violation :=
  let resolved := Path.resolve cwd [workspaceRoot sm; filePath] in
  if negb (insideWorkspace (workspaceRoot sm) resolved) then Some WorkspaceEscape
  else if hasTraversal filePath then Some PathTraversal
  else if existsb (startsWith resolved) SYSTEM_PATHS then Some SystemPathAccess
  else if existsb (λ re, test re resolved) SENSITIVE_PATTERNS
  then Some SensitiveFileAccess
  else if match allowedSubdirectories sm with
          | Some ((_ :: _) as allowed) => negb (isAllowed allowed resolved)
          | _ => false
          end
  then Some SubdirectoryRestriction
  else if existsb (startsWith resolved) (blockedPaths sm) then Some BlockedPath
  else if existsb (λ re, test re resolved) (blockedPatterns sm)
  then Some BlockedPattern
  else if readOnly sm && isMutation op then Some ReadOnlyMode
  else None.

(** The path layer 10 recurses on, for an input whose resolved path is a
    symbolic link. *)
Definition linkTarget (cwd : string) (fs : FsView) (sm : SecurityManager)
    (filePath : string) : string :=
  let resolved := Path.resolve cwd [workspaceRoot sm; filePath] in
  Path.resolve cwd [Path.dirname resolved; readlinkSync fs resolved].

Definition isLink (cwd : string) (fs : FsView) (sm : SecurityManager)
    (filePath : string) : bool :=
  let resolved := Path.resolve cwd [workspaceRoot sm; filePath] in
  existsSync fs resolved && isSymbolicLink fs resolved.

(** [n] hops of layer 10 from an input path. *)
Fixpoint followLinks (cwd : string) (fs : FsView) (sm : SecurityManager)
    (n : nat) (filePath : string) : string :=
  match n with
  | O => filePath
  | S n' => followLinks cwd fs sm n' (linkTarget cwd fs sm filePath)
  end.

(** A workspace holding a directory link and a file link:
    [/ws/d -> x/e] (a directory), [/ws/x/e/l -> ../d/l], and a regular file
    [/ws/x/d/l].  The operating system resolves [/ws/d/l] through
    [/ws/x/e/l] to the regular file [/ws/x/d/l], so the path exists;
    [lstat] of [/ws/d/l] sees the link [l]; and [readlink] gives
    [../d/l], which [path.resolve] takes relative to the textual parent
    [/ws/d], giving [/ws/d/l] again. *)
Definition crossLinked : FsView :=
  {| existsSync := λ p, bool_decide (p ∈ ["/ws"; "/ws/d"; "/ws/x"; "/ws/x/e";
                                           "/ws/x/d"; "/ws/x/d/l"; "/ws/x/e/l";
                                           "/ws/d/l"]);
     isSymbolicLink := λ p, bool_decide (p ∈ ["/ws/d"; "/ws/x/e/l"; "/ws/d/l"]);
     readlinkSync := λ p,
       if bool_decide (p = "/ws/d") then "x/e"
       else if bool_decide (p = "/ws/x/e/l") then "../d/l"
       else if bool_decide (p = "/ws/d/l") then "../d/l"
       else "" |}.

(** A chain of links [/ws/chain/0 -> 1 -> ... -> n], the last name a
    regular file. *)
Definition chainName (i : nat) : string := "/ws/chain/" +:+ pretty i.

Definition chainFs (n : nat) : FsView :=
  {| existsSync := λ p, bool_decide (p ∈ chainName <$> seq 0 (S n));
     isSymbolicLink := λ p, bool_decide (p ∈ chainName <$> seq 0 n);
     readlinkSync := λ p,
       match list_find (λ i, chainName i = p) (seq 0 n) with
       | Some (_, i) => pretty (S i)
       | None => ""
       end |}.

(** [checkRateLimit] called once per timestamp, each call succeeding. *)
Fixpoint checkAll (sm : SecurityManager) (agentId : string) (times : list Z)
  : option SecurityManager :=
  match times with
  | [] => Some sm
  | now :: rest =>
      match checkRateLimit sm agentId now with
      | (Returns _, sm') => checkAll sm' agentId rest
      | _ => None
      end
  end.

End SecurityAux.

(* ================================================================== *)
(** ** Normalized paths *)
(* ================================================================== *)

Module PathAux.
(** A path segment as [split] produces them: no separator inside. *)
Fixpoint slashFree (s : string) : bool :=
  match s with
  | EmptyString => true
  | String c s' => negb (bool_decide (c = Path.slash)) && slashFree s'
  end.

(** A segment [normalizeString] keeps. *)
Definition kept (s : string) : bool :=
  slashFree s && negb (bool_decide (s = "")) && negb (bool_decide (s = "."))
  && negb (bool_decide (s = "..")).
End PathAux.

(* ================================================================== *)
(** ** SecurityManager: further configurations and call sequences *)
(* ================================================================== *)

Module SecurityCases.
Import JsString Security SecurityAux.

(** [/ws] in read-only mode. *)
Definition readOnlyManager : SecurityManager :=
  {| workspaceRoot := "/ws";
     allowedSubdirectories := None;
     blockedPaths := [];
     blockedPatterns := [];
     readOnly := true;
     maxFileSize := 104857600;
     maxBatchSize := 1073741824;
     maxOperationsPerMinute := 100;
     enableAuditLog := true;
     operationCount := ∅;
     emergencyMode := false |}.

(** [/ws] with the allow list [src], [docs] and the block list [tmp], as
    the constructor resolves them. *)
Definition restrictedManager : SecurityManager :=
  {| workspaceRoot := "/ws";
     allowedSubdirectories := Some ["/ws/src"; "/ws/docs"];
     blockedPaths := ["/ws/src/tmp"];
     blockedPatterns := [reEndsWith ".bak"];
     readOnly := false;
     maxFileSize := 104857600;
     maxBatchSize := 1073741824;
     maxOperationsPerMinute := 100;
     enableAuditLog := true;
     operationCount := ∅;
     emergencyMode := false |}.

(** A workspace whose own path contains two dots in a row. *)
Definition dottedManager : SecurityManager :=
  {| workspaceRoot := "/data/v1..2";
     allowedSubdirectories := None;
     blockedPaths := [];
     blockedPatterns := [];
     readOnly := false;
     maxFileSize := 104857600;
     maxBatchSize := 1073741824;
     maxOperationsPerMinute := 100;
     enableAuditLog := true;
     operationCount := ∅;
     emergencyMode := false |}.

(** A filesystem with one symbolic link, [/ws/current -> releases/v2]. *)
Definition oneLink : FsView :=
  {| existsSync := λ _, true;
     isSymbolicLink := λ p, bool_decide (p = "/ws/current");
     readlinkSync := λ p, if bool_decide (p = "/ws/current") then "releases/v2" else "" |}.

(** A sequence of [checkRateLimit] calls, each by some agent at some
    time, whatever each call answers. *)
Definition checkEach (sm : SecurityManager) (calls : list (string * Z))
  : SecurityManager :=
  foldl (λ sm c, (checkRateLimit sm c.1 c.2).2) sm calls.

End SecurityCases.

(* ================================================================== *)
(** ** ErrorHandler.ts: error codes of security rejections *)
(* ================================================================== *)

Module ErrorHandler.
Import JsString.

Inductive ErrorCode :=
| SECURITY_ERROR | WORKSPACE_BOUNDARY_VIOLATION | PATH_TRAVERSAL
| SYSTEM_PATH_ACCESS | SENSITIVE_FILE_ACCESS | BLOCKED_PATH
| RATE_LIMIT_EXCEEDED | READ_ONLY_MODE | SYMLINK_ESCAPE
| VALIDATION_ERROR | INVALID_PATH | INVALID_OPERATION | INVALID_ARGUMENT
| FILE_SIZE_EXCEEDED | BATCH_SIZE_EXCEEDED
| FILESYSTEM_ERROR | FILE_NOT_FOUND | DIRECTORY_NOT_FOUND | PERMISSION_DENIED
| FILE_EXISTS | DIRECTORY_NOT_EMPTY | DISK_FULL | IO_ERROR
| OPERATION_FAILED | BATCH_OPERATION_FAILED | WATCH_SESSION_NOT_FOUND
| INDEX_NOT_BUILT | INTERNAL_ERROR | UNKNOWN_ERROR.

(** [MCPErrorResponse.error], with the two fields of [details] that
    the handlers of the error classes set. *)
Record MCPError := {
  code : ErrorCode;
  message : string;
  detailsType : string;
  remediation : string
}.

(** [getSecurityRemediation(code)] *)
Definition getSecurityRemediation (c : ErrorCode) : string :=
  match c with
  | WORKSPACE_BOUNDARY_VIOLATION =>
      "Ensure all paths are within the configured workspace root"
  | PATH_TRAVERSAL => "Remove path traversal sequences (..) from the path"
  | SYSTEM_PATH_ACCESS =>
      "System directories cannot be accessed for security reasons"
  | SENSITIVE_FILE_ACCESS =>
      "Sensitive files (keys, credentials) cannot be accessed"
  | BLOCKED_PATH => "This path is blocked by the security policy"
  | RATE_LIMIT_EXCEEDED =>
      "Too many operations in a short time. Please wait and try again"
  | READ_ONLY_MODE =>
      "The filesystem is in read-only mode. Write operations are not allowed"
  | SYMLINK_ESCAPE => "Symlink target must be within the workspace"
  | _ => "Review the security policy and ensure compliance"
  end.

(** [handleSecurityError(error)], [msg] being [error.message].  The
    message is lower-cased and the first keyword found decides the code. *)
Definition handleSecurityError (msg : string) : MCPError :=
  let message := toLower msg in
  let code :=
    if includes message "workspace" || includes message "outside"
    then WORKSPACE_BOUNDARY_VIOLATION
    else if includes message "traversal" then PATH_TRAVERSAL
    else if includes message "system" then SYSTEM_PATH_ACCESS
    else if includes message "sensitive" then SENSITIVE_FILE_ACCESS
    else if includes message "blocked" then BLOCKED_PATH
    else if includes message "rate limit" then RATE_LIMIT_EXCEEDED
    else if includes message "read-only" then READ_ONLY_MODE
    else if includes message "symlink" then SYMLINK_ESCAPE
    else SECURITY_ERROR in
  {| code := code; message := msg; detailsType := "security_violation";
     remediation := getSecurityRemediation code |}.

End ErrorHandler.

(* ================================================================== *)
(** ** DirectoryWatcher.ts *)
(* ================================================================== *)

Module Watcher.

Inductive eventType := Create | Modify | DeleteEvent | Rename.

Record FileSystemEvent := {
  type : eventType;
  path : string;
  timestamp : Z;
  oldPath : option string
}.

(** Arrays are heap objects: a session refers to its event array by
    address, and [getEvents] hands out the address of a new array. *)
Definition addr := nat.

Record WatchSession := {
  id : string;
  watchedPath : string;
  recursive : bool;
  filters : list string;
  events : addr
}.

(** The chokidar watcher created for a session: the watched path and the
    [depth] option ([None] for unbounded). *)
Record FSWatcher := {
  watcherPath : string;
  depth : option nat
}.

Record DirectoryWatcher := {
  watchers : gmap string FSWatcher;
  sessions : gmap string WatchSession;
  arrays : gmap addr (list FileSystemEvent)
}.

(** [new DirectoryWatcher()] *)
Definition newDirectoryWatcher : DirectoryWatcher :=
  {| watchers := ∅; sessions := ∅; arrays := ∅ |}.

Inductive error :=
| ValidationError (message : string)
| FileSystemError (message : string)
| OtherError (message : string).

Inductive result (A : Type) :=
| Ok (a : A)
| Throw (e : error).
Arguments Ok {A} a.
Arguments Throw {A} e.

Record WatchOptions := {
  optRecursive : bool;
  optFilters : option (list string)
}.

(** What the environment answers during a call. *)
Inductive statOutcome :=
| IsDirectory | NotDirectory | ENOENT | EACCES | StatError (message : string).
Inductive readyOutcome :=
| Ready | WatcherError (message : string) | InitTimeout.
(** [watcher.close()]: resolves, or rejects with a message. *)
Definition closeOutcome := option string.

Definition sessionNotFound (sessionId : string) : error :=
  ValidationError ("Watch session " +:+ sessionId +:+ " not found").

(** [new Array]: the first address the heap does not hold. *)
Definition newArray (h : gmap addr (list FileSystemEvent)) : addr :=
  fresh (dom h).

Definition readArray (h : gmap addr (list FileSystemEvent)) (a : addr)
  : list FileSystemEvent := default [] (h !! a).

(** [watch(sessionId, dirPath, options)] *)
Definition watch (sessionId dirPath : string) (options : WatchOptions)
    (stat : statOutcome) (ready : readyOutcome) (close : closeOutcome)
    (w : DirectoryWatcher) : result unit * DirectoryWatcher :=
  if bool_decide (is_Some (sessions w !! sessionId)) then
    (Throw (ValidationError ("Watch session " +:+ sessionId +:+ " already exists")), w)
  else
    match stat with
    | NotDirectory =>
        (Throw (ValidationError ("Path is not a directory: " +:+ dirPath)), w)
    | ENOENT => (Throw (FileSystemError ("Directory not found: " +:+ dirPath)), w)
    | EACCES =>
        (Throw (FileSystemError
                  ("Permission denied accessing directory: " +:+ dirPath)), w)
    | StatError m => (Throw (OtherError m), w)
    | IsDirectory =>
        let buffer := newArray (arrays w) in
        let session :=
          {| id := sessionId; watchedPath := dirPath;
             recursive := optRecursive options;
             filters := default [] (optFilters options);
             events := buffer |} in
        let watcher :=
          {| watcherPath := dirPath;
             depth := if optRecursive options then None else Some O |} in
        let w1 :=
          {| watchers := <[sessionId := watcher]> (watchers w);
             sessions := <[sessionId := session]> (sessions w);
             arrays := <[buffer := []]> (arrays w) |} in
        let failed (m : string) :=
          match close with
          | Some closeError => (Throw (OtherError closeError), w1)
          | None =>
              (Throw (FileSystemError
                        ("Failed to initialize directory watcher: " +:+ m)),
               {| watchers := delete sessionId (watchers w1);
                  sessions := delete sessionId (sessions w1);
                  arrays := arrays w1 |})
          end in
        match ready with
        | Ready => (Ok tt, w1)
        | WatcherError m => failed m
        | InitTimeout => failed "Watcher initialization timeout"
        end
    end.

Section events.
(** [minimatch(filePath, filter)], from the [minimatch] package. *)
Context (minimatch : string → string → bool).

Definition shouldIncludeEvent (filePath : string) (fltrs : list string) : bool :=
  match fltrs with
  | [] => true
  | _ => existsb (λ f, minimatch filePath f) fltrs
  end.

(** [recordEvent(sessionId, type, filePath, oldPath)], with [now] the
    [new Date()] of the event: the event is pushed onto the session's
    array in place. *)
Definition recordEvent (sessionId : string) (ty : eventType) (filePath : string)
    (old : option string) (now : Z) (w : DirectoryWatcher) : DirectoryWatcher :=
  match sessions w !! sessionId with
  | None => w
  | Some session =>
      if negb (shouldIncludeEvent filePath (filters session)) then w
      else
        let event :=
          {| type := ty; path := filePath; timestamp := now;
             oldPath := match old with
                        | Some o => if bool_decide (o = "") then None else Some o
                        | None => None
                        end |} in
        {| watchers := watchers w;
           sessions := sessions w;
           arrays := <[events session :=
                         readArray (arrays w) (events session) ++ [event]]>
                       (arrays w) |}
  end.
End events.

(** [getEvents(sessionId)]: [[...session.events]] allocates a new array
    holding the same events. *)
Definition getEvents (sessionId : string) (w : DirectoryWatcher)
  : result addr * DirectoryWatcher :=
  match sessions w !! sessionId with
  | None => (Throw (sessionNotFound sessionId), w)
  | Some session =>
      let copy := newArray (arrays w) in
      (Ok copy,
       {| watchers := watchers w;
          sessions := sessions w;
          arrays := <[copy := readArray (arrays w) (events session)]> (arrays w) |})
  end.

(** [clearEvents(sessionId)]: [session.events = []] makes the session
    refer to a new, empty array. *)
Definition clearEvents (sessionId : string) (w : DirectoryWatcher)
  : result unit * DirectoryWatcher :=
  match sessions w !! sessionId with
  | None => (Throw (sessionNotFound sessionId), w)
  | Some session =>
      let buffer := newArray (arrays w) in
      (Ok tt,
       {| watchers := watchers w;
          sessions :=
            <[sessionId := {| id := id session;
                              watchedPath := watchedPath session;
                              recursive := recursive session;
                              filters := filters session;
                              events := buffer |}]> (sessions w);
          arrays := <[buffer := []]> (arrays w) |})
  end.

(** [stopWatch(sessionId)]: both branches of the [try] delete the id from
    both maps. *)
Definition stopWatch (sessionId : string) (close : closeOutcome)
    (w : DirectoryWatcher) : result unit * DirectoryWatcher :=
  match watchers w !! sessionId with
  | None => (Throw (sessionNotFound sessionId), w)
  | Some _ =>
      let w' :=
        {| watchers := delete sessionId (watchers w);
           sessions := delete sessionId (sessions w);
           arrays := arrays w |} in
      match close with
      | None => (Ok tt, w')
      | Some m =>
          (Throw (FileSystemError ("Failed to stop watch session: " +:+ m)), w')
      end
  end.

(** [stopAll()]: every watcher is closed, the errors are collected, and
    both maps are cleared whatever happened.  [close] tells how closing
    the watcher of each session goes.  The watchers are visited in the
    map's own order, which only the order of the collected messages
    depends on. *)
Definition stopAll (close : string → closeOutcome) (w : DirectoryWatcher)
  : result unit * DirectoryWatcher :=
  let errors :=
    omap (λ kv : string * FSWatcher, close kv.1) (map_to_list (watchers w)) in
  let w' := {| watchers := ∅; sessions := ∅; arrays := arrays w |} in
  match errors with
  | [] => (Ok tt, w')
  | _ =>
      (Throw (FileSystemError
                ("Failed to stop " +:+ pretty (length errors)
                 +:+ " watch session(s): " +:+ String.concat ", " errors)), w')
  end.

(** One call on the watcher, with what the environment answered. *)
Inductive call :=
| CallWatch (sessionId dirPath : string) (options : WatchOptions)
    (stat : statOutcome) (ready : readyOutcome) (close : closeOutcome)
| CallRecordEvent (sessionId : string) (ty : eventType) (filePath : string)
    (old : option string) (now : Z)
| CallGetEvents (sessionId : string)
| CallClearEvents (sessionId : string)
| CallStopWatch (sessionId : string) (close : closeOutcome)
| CallStopAll (close : string → closeOutcome).

Definition perform (minimatch : string → string → bool) (c : call)
    (w : DirectoryWatcher) : DirectoryWatcher :=
  match c with
  | CallWatch sessionId dirPath options stat ready close =>
      (watch sessionId dirPath options stat ready close w).2
  | CallRecordEvent sessionId ty filePath old now =>
      recordEvent minimatch sessionId ty filePath old now w
  | CallGetEvents sessionId => (getEvents sessionId w).2
  | CallClearEvents sessionId => (clearEvents sessionId w).2
  | CallStopWatch sessionId close => (stopWatch sessionId close w).2
  | CallStopAll close => (stopAll close w).2
  end.

Definition performAll (minimatch : string → string → bool) (cs : list call)
  : DirectoryWatcher → DirectoryWatcher :=
  λ w, foldl (λ w c, perform minimatch c w) w cs.

End Watcher.

(* ================================================================== *)
(** ** DirectoryWatcher: bursts of notifications *)
(* ================================================================== *)

Module WatcherAux.
Import Watcher.

(** One filesystem notification: the session whose handler runs, and
    the arguments [recordEvent] gets. *)
Record notification := {
  forSession : string;
  kind : eventType;
  filePath : string;
  previousPath : option string;
  seenAt : Z
}.

Section notifications.
Context (minimatch : string → string → bool).

(** The handlers of a burst of notifications run one after the other. *)
Definition recordEach (ns : list notification) (w : DirectoryWatcher)
  : DirectoryWatcher :=
  foldl (λ w n, recordEvent minimatch (forSession n) (kind n) (filePath n)
                  (previousPath n) (seenAt n) w) w ns.

(** The event object [recordEvent] builds for a notification. *)
Definition eventOf (n : notification) : FileSystemEvent :=
  {| type := kind n; path := filePath n; timestamp := seenAt n;
     oldPath := match previousPath n with
                | Some o => if bool_decide (o = "") then None else Some o
                | None => None
                end |}.

(** The notifications of [ns] addressed to [sessionId] whose path passes
    the filters [fltrs], in their order. *)
Definition addressedTo (sessionId : string) (fltrs : list string)
    (ns : list notification) : list FileSystemEvent :=
  eventOf <$> filter (λ n, forSession n = sessionId
                           ∧ shouldIncludeEvent minimatch (filePath n) fltrs = true) ns.
End notifications.


(** Two sessions on [/ws/a] and [/ws/b], the first with a filter, and a
    burst of notifications for both. *)
Definition suffixMatch (filePath fltr : string) : bool :=
  JsString.endsWith filePath fltr.

Definition twoSessions : DirectoryWatcher :=
  performAll suffixMatch
    [CallWatch "s1" "/ws/a" {| optRecursive := true; optFilters := Some [".txt"] |}
       IsDirectory Ready None;
     CallWatch "s2" "/ws/b" {| optRecursive := false; optFilters := None |}
       IsDirectory Ready None]
    newDirectoryWatcher.

Definition burst : list notification :=
  [ {| forSession := "s1"; kind := Create; filePath := "/ws/a/x.txt";
       previousPath := None; seenAt := 10 |};
    {| forSession := "s2"; kind := Modify; filePath := "/ws/b/y.bin";
       previousPath := None; seenAt := 11 |};
    {| forSession := "s1"; kind := Modify; filePath := "/ws/a/z.bin";
       previousPath := None; seenAt := 12 |};
    {| forSession := "s1"; kind := DeleteEvent; filePath := "/ws/a/x.txt";
       previousPath := None; seenAt := 13 |} ].

(** Distinct live sessions own distinct event arrays. *)
Definition buffersDistinct (w : DirectoryWatcher) : Prop :=
  ∀ a b sa sb,
    sessions w !! a = Some sa → sessions w !! b = Some sb → a ≠ b →
    events sa ≠ events sb.

End WatcherAux.

(* ================================================================== *)
(** ** MCPTools.ts: fs_get_watch_events *)
(* ================================================================== *)

Module Tools.
Import Watcher.

(** [fsGetWatchEvents(args)]; [sessionId] and [clear] are absent when
    [None].  The returned [events] array is given by its address. *)
Definition fsGetWatchEvents (sessionId : option string) (clear : option bool)
    (w : DirectoryWatcher) : result (string * addr) * DirectoryWatcher :=
  match sessionId with
  | None => (Throw (ValidationError "Session ID is required and must be a string"), w)
  | Some sid =>
      if bool_decide (sid = "")
      then (Throw (ValidationError "Session ID is required and must be a string"), w)
      else
        match getEvents sid w with
        | (Throw e, w1) => (Throw e, w1)
        | (Ok events, w1) =>
            if bool_decide (clear = Some false) then (Ok (sid, events), w1)
            else match clearEvents sid w1 with
                 | (Throw e, w2) => (Throw e, w2)
                 | (Ok _, w2) => (Ok (sid, events), w2)
                 end
        end
  end.

End Tools.

(* ================================================================== *)
(** ** The filesystem the directory and batch operations act on *)
(* ================================================================== *)

Module Fs.

(** An absolute, normalized path as its segments: [/ws/a/b] is
    [["ws"; "a"; "b"]] and [/] is [[]]. *)
Definition path := list string.

Definition segments (p : string) : path :=
  filter (λ s, s ≠ "") (Path.split p).

Definition render (p : path) : string := "/" +:+ Path.joinSegments p.

(** [path.dirname] of a normalized absolute path. *)
Definition parent (p : path) : path := removelast p.

(** Two paths neither of which lies on the way to the other. *)
Definition apart (p q : path) : Prop := ¬ p `prefix_of` q ∧ ¬ q `prefix_of` p.

Set Warnings "-register-all".
(** Regular files carry their bytes and modification time; directories
    their modification time and entries.  The tree has no symbolic links,
    and a directory's own time stamp is not advanced when its entries
    change. *)
Inductive node :=
| File (content : string) (mtime : Z)
| Dir (mtime : Z) (entries : gmap string node).
Set Warnings "register-all".

Inductive errno := ENOENT | ENOTDIR | EISDIR | ENOTEMPTY | EEXIST | EINVAL.

Inductive error :=
| SecurityError (v : Security.violation)
| FileSystemError (message : string)
| SystemError (code : errno)
| TypeError (message : string).

Inductive result (A : Type) :=
| Ok (a : A)
| Err (e : error)
| OutOfFuel.
Arguments Ok {A} a.
Arguments Err {A} e.
Arguments OutOfFuel {A}.

Definition bind {A B} (r : result A) (k : A → result B) : result B :=
  match r with
  | Ok a => k a
  | Err e => Err e
  | OutOfFuel => OutOfFuel
  end.

Definition mtimeOf (n : node) : Z :=
  match n with File _ t => t | Dir t _ => t end.

Definition sizeOf (n : node) : nat :=
  match n with File c _ => String.length c | Dir _ _ => O end.

Definition isDirectory (n : node) : bool :=
  match n with Dir _ _ => true | File _ _ => false end.

Fixpoint get (p : path) (n : node) : option node :=
  match p with
  | [] => Some n
  | s :: p' =>
      match n with
      | Dir _ es => es !! s ≫= get p'
      | File _ _ => None
      end
  end.

(** Set the entry named by the last segment of [p], in an existing
    parent directory. *)
Fixpoint put (p : path) (v : node) (n : node) : option node :=
  match p, n with
  | [], _ => None
  | s :: p', Dir t es =>
      match p' with
      | [] => Some (Dir t (<[s := v]> es))
      | _ => c ← es !! s; c' ← put p' v c; Some (Dir t (<[s := c']> es))
      end
  | _ :: _, File _ _ => None
  end.

(** Remove the entry named by the last segment of [p]. *)
Fixpoint remove (p : path) (n : node) : option node :=
  match p, n with
  | [], _ => None
  | s :: p', Dir t es =>
      match p' with
      | [] => _ ← es !! s; Some (Dir t (delete s es))
      | _ => c ← es !! s; c' ← remove p' c; Some (Dir t (<[s := c']> es))
      end
  | _ :: _, File _ _ => None
  end.

Definition existsSync (p : path) (fs : node) : bool :=
  bool_decide (is_Some (get p fs)).

Definition statSync (p : path) (fs : node) : result node :=
  match get p fs with
  | Some n => Ok n
  | None => Err (SystemError ENOENT)
  end.

(** [fs.mkdirSync(p, { recursive: true })] at time [now]. *)
Fixpoint mkdirp (p : path) (now : Z) (n : node) : result node :=
  match p, n with
  | [], Dir _ _ => Ok n
  | [], File _ _ => Err (SystemError EEXIST)
  | s :: p', Dir t es =>
      bind (mkdirp p' now (default (Dir now ∅) (es !! s)))
           (λ c, Ok (Dir t (<[s := c]> es)))
  | _ :: _, File _ _ => Err (SystemError ENOTDIR)
  end.

(** [fs.copyFileSync(src, dst)] at time [now]: the destination receives
    the bytes and, being written anew, the current time as its
    modification time (the source's time stamps are not carried over);
    copying a file onto itself changes nothing. *)
Definition copyFileSync (src dst : path) (now : Z) (fs : node) : result node :=
  match get src fs with
  | None => Err (SystemError ENOENT)
  | Some (Dir _ _) => Err (SystemError EISDIR)
  | Some (File c _) =>
      if bool_decide (src = dst) then Ok fs
      else match get dst fs with
           | Some (Dir _ _) => Err (SystemError EISDIR)
           | _ => match put dst (File c now) fs with
                  | Some fs' => Ok fs'
                  | None => Err (SystemError ENOENT)
                  end
           end
  end.

(** [fs.renameSync(a, b)] *)
Definition renameSync (a b : path) (fs : node) : result node :=
  match get a fs with
  | None => Err (SystemError ENOENT)
  | Some v =>
      if bool_decide (a = b) then Ok fs
      else if bool_decide (a `prefix_of` b) then Err (SystemError EINVAL)
      else
        let clash :=
          match v, get b fs with
          | File _ _, Some (Dir _ _) => Some EISDIR
          | Dir _ _, Some (File _ _) => Some ENOTDIR
          | Dir _ _, Some (Dir _ es) =>
              if bool_decide (es = ∅) then None else Some ENOTEMPTY
          | _, _ => None
          end in
        match clash with
        | Some e => Err (SystemError e)
        | None =>
            match remove a fs ≫= put b v with
            | Some fs' => Ok fs'
            | None => Err (SystemError ENOENT)
            end
        end
  end.

(** [fs.unlinkSync(p)] *)
Definition unlinkSync (p : path) (fs : node) : result node :=
  match get p fs with
  | None => Err (SystemError ENOENT)
  | Some (Dir _ _) => Err (SystemError EISDIR)
  | Some (File _ _) =>
      match remove p fs with
      | Some fs' => Ok fs'
      | None => Err (SystemError ENOENT)
      end
  end.

(** [fs.rmSync(p, { recursive: true, force: true })] *)
Definition rmSync (p : path) (fs : node) : result node :=
  match get p fs with
  | None => Ok fs
  | Some _ =>
      match remove p fs with
      | Some fs' => Ok fs'
      | None => Err (SystemError EINVAL)
      end
  end.

(** [fs.readdirSync(p, { withFileTypes: true })]: names with the node
    each names at the time of the call. *)
Definition readdirSync (p : path) (fs : node) : result (list (string * node)) :=
  match get p fs with
  | None => Err (SystemError ENOENT)
  | Some (File _ _) => Err (SystemError ENOTDIR)
  | Some (Dir _ es) => Ok (map_to_list es)
  end.

(** The answers [validatePath] gets on this filesystem. *)
Definition view (fs : node) : Security.FsView :=
  {| Security.existsSync := λ p, existsSync (segments p) fs;
     Security.isSymbolicLink := λ _, false;
     Security.readlinkSync := λ _, "" |}.

(** [securityManager.validatePath(p, op)] as the operations call it.
    Without symbolic links layer 10 never recurses, so one level of
    nesting is all a call uses. *)
Definition validatePath (cwd : string) (sm : Security.SecurityManager)
    (fs : node) (p : string) (op : Security.operation) : result string :=
  match Security.validatePath cwd (view fs) sm 1 p op with
  | Security.Returns r => Ok r
  | Security.Throws v => Err (SecurityError v)
  | Security.Unfinished => OutOfFuel
  end.

End Fs.

(* ================================================================== *)
(** ** Measures of a filesystem tree *)
(* ================================================================== *)

Module Tree.
Import Fs.

(** The bytes held by the regular files of a tree. *)
Fixpoint totalSize (n : node) : nat :=
  match n with
  | File c _ => String.length c
  | Dir _ es => map_fold (λ _ c acc, totalSize c + acc)%nat O es
  end.

(** The number of regular files of a tree. *)
Fixpoint fileCount (n : node) : nat :=
  match n with
  | File _ _ => 1
  | Dir _ es => map_fold (λ _ c acc, fileCount c + acc)%nat O es
  end.

(** The number of directory levels of a tree. *)
Fixpoint height (n : node) : nat :=
  match n with
  | File _ _ => O
  | Dir _ es => S (map_fold (λ _ c acc, Nat.max (height c) acc) O es)
  end.

End Tree.

(* ================================================================== *)
(** ** DirectoryOperations.ts: syncDirectory *)
(* ================================================================== *)

Module DirOps.
Import Fs.

Record SyncResult := {
  filesCopied : nat;
  filesSkipped : nat;
  bytesTransferred : nat
}.

Definition noFiles : SyncResult :=
  {| filesCopied := 0; filesSkipped := 0; bytesTransferred := 0 |}.

Definition addResult (a b : SyncResult) : SyncResult :=
  {| filesCopied := filesCopied a + filesCopied b;
     filesSkipped := filesSkipped a + filesSkipped b;
     bytesTransferred := bytesTransferred a + bytesTransferred b |}.

(** The filesystem together with the number of writes made so far; the
    [k]-th write is stamped [clock k]. *)
Definition world : Type := node * nat.

(** [shouldExclude(filePath, patterns)] *)
Definition shouldExclude (filePath : string) (patterns : list Security.RegExp) : bool :=
  existsb (λ re, Security.test re filePath) patterns.

Section sync.
Context (clock : nat → Z) (exclusionPatterns : list Security.RegExp).

(** The [for (const entry of entries)] loop of [recursiveSync], with the
    recursive call as [rec].  [path.join(source, entry.name)] appends the
    entry name to the segments of [source]. *)
Fixpoint syncEntries (rec : path → path → world → result (SyncResult * world))
    (source destination : path) (entries : list (string * node))
    (acc : SyncResult) (w : world) : result (SyncResult * world) :=
  match entries with
  | [] => Ok (acc, w)
  | (name, entry) :: rest =>
      let sourcePath := source ++ [name] in
      let destPath := destination ++ [name] in
      if shouldExclude (render sourcePath) exclusionPatterns
      then syncEntries rec source destination rest acc w
      else if isDirectory entry then
        bind (rec sourcePath destPath w) (λ '(r, w'),
          syncEntries rec source destination rest (addResult acc r) w')
      else
        bind (statSync sourcePath w.1) (λ sourceStats,
          let skip :=
            match get destPath w.1 with
            | Some destStats => bool_decide (mtimeOf sourceStats ≤ mtimeOf destStats)
            | None => false
            end in
          if skip then
            syncEntries rec source destination rest
              (addResult acc {| filesCopied := 0; filesSkipped := 1;
                                bytesTransferred := 0 |}) w
          else
            bind (copyFileSync sourcePath destPath (clock w.2) w.1) (λ fs',
              syncEntries rec source destination rest
                (addResult acc {| filesCopied := 1; filesSkipped := 0;
                                  bytesTransferred := sizeOf sourceStats |})
                (fs', S w.2)))
  end.

(** [recursiveSync(source, destination, exclusionPatterns)] *)
Fixpoint recursiveSync (fuel : nat) (source destination : path) (w : world)
  : result (SyncResult * world) :=
  match fuel with
  | O => OutOfFuel
  | S fuel' =>
      bind (if existsSync destination w.1 then Ok w
            else bind (mkdirp destination (clock w.2) w.1)
                      (λ fs', Ok (fs', S w.2)))
        (λ w1,
          bind (readdirSync source w1.1) (λ entries,
            syncEntries (recursiveSync fuel') source destination entries noFiles w1))
  end.

(** [syncDirectory(source, destination, options)]; [exclusionPatterns]
    are the expressions compiled from [options.exclusions].  The audit
    line and the [duration] field, which read the wall clock only, are
    left out. *)
Definition syncDirectory (cwd : string) (sm : Security.SecurityManager)
    (fuel : nat) (source destination : string) (w : world)
  : result (SyncResult * world) :=
  bind (validatePath cwd sm w.1 source Security.Read) (λ validatedSource,
  bind (validatePath cwd sm w.1 destination Security.Write) (λ validatedDest,
    match get (segments validatedSource) w.1 with
    | None =>
        Err (FileSystemError ("Source directory does not exist: " +:+ source))
    | Some (File _ _) =>
        Err (FileSystemError ("Source is not a directory: " +:+ source))
    | Some (Dir _ _) =>
        recursiveSync fuel (segments validatedSource) (segments validatedDest) w
    end)).

End sync.
End DirOps.

(* ================================================================== *)
(** ** syncDirectory: what a finished sync leaves behind *)
(* ================================================================== *)

Module DirOpsAux.
Import Fs DirOps.

Section synced.
Context (exclusionPatterns : list Security.RegExp).

(** An entry of the source directory needs no copy: it is excluded, or
    it is a file whose destination exists and is not older, or it is a
    directory whose entries need no copy. *)
Definition entrySynced (rec : path → path → node → Prop)
    (source destination : path) (fs : node) (name : string) (entry : node) : Prop :=
  shouldExclude (render (source ++ [name])) exclusionPatterns = false →
  match entry with
  | Dir _ _ => rec (source ++ [name]) (destination ++ [name]) fs
  | File _ t => ∃ d, get (destination ++ [name]) fs = Some d ∧ t ≤ mtimeOf d
  end.

Fixpoint synced (fuel : nat) (source destination : path) (fs : node) : Prop :=
  match fuel with
  | O => False
  | S fuel' =>
      is_Some (get destination fs)
      ∧ ∃ t es, get source fs = Some (Dir t es)
                ∧ ∀ name entry, es !! name = Some entry →
                    entrySynced (synced fuel') source destination fs name entry
  end.

End synced.

(** No file below [source] carries a modification time later than a
    reading of the clock from write number [k] on. *)
Definition mtimesNotAhead (clock : nat → Z) (k : nat) (source : node) : Prop :=
  ∀ q c t j, get q source = Some (File c t) → (k ≤ j)%nat → t ≤ clock j.

(** What one finished call of [recursiveSync fuel] establishes. *)
Definition establishes (clock : nat → Z) (exclusionPatterns : list Security.RegExp)
    (fuel : nat) : Prop :=
  ∀ source destination w r w',
    apart source destination →
    (∀ s, get source w.1 = Some s → mtimesNotAhead clock w.2 s) →
    recursiveSync clock exclusionPatterns fuel source destination w = Ok (r, w') →
    synced exclusionPatterns fuel source destination w'.1
    ∧ (∀ q, apart destination q → get q w'.1 = get q w.1)
    ∧ (w.2 ≤ w'.2)%nat.

(** [r] adds no copy to what [acc] already counts. *)
Definition copiesNothing (acc r : SyncResult) : Prop :=
  filesCopied r = filesCopied acc ∧ bytesTransferred r = bytesTransferred acc.

(** Sample trees. *)
Definition wsWith (entries : gmap string node) : node :=
  Dir 0 {[ "ws" := Dir 0 entries ]}.

Definition steadyClock (k : nat) : Z := 1000 + Z.of_nat k.

(** [/ws/src/a.txt] was last modified at 500, [/ws/dst] does not exist. *)
Definition plainTree : node :=
  wsWith {[ "src" := Dir 0 {[ "a.txt" := File "hello" 500 ]} ]}.

(** [/ws/src/a.txt] carries a modification time of 5000, later than
    every time the syncs below run at. *)
Definition aheadTree : node :=
  wsWith {[ "src" := Dir 0 {[ "a.txt" := File "hello" 5000 ]} ]}.

(** [/ws/a/b/b/f]: syncing [/ws/a/b] into [/ws/a] writes into the source. *)
Definition nestedTree : node :=
  wsWith {[ "a" := Dir 0 {[ "b" := Dir 0 {[ "b" := Dir 0 {[ "f" := File "x" 1 ]} ]} ]} ]}.

(** [plainTree] after [syncDirectory "src" "dst"] at write 0. *)
Definition plainTreeSynced : node :=
  wsWith {[ "src" := Dir 0 {[ "a.txt" := File "hello" 500 ]};
            "dst" := Dir 1000 {[ "a.txt" := File "hello" 1001 ]} ]}.

(** [aheadTree] after one and after two syncs. *)
Definition aheadTreeSynced : node :=
  wsWith {[ "src" := Dir 0 {[ "a.txt" := File "hello" 5000 ]};
            "dst" := Dir 1000 {[ "a.txt" := File "hello" 1001 ]} ]}.

Definition aheadTreeSyncedTwice : node :=
  wsWith {[ "src" := Dir 0 {[ "a.txt" := File "hello" 5000 ]};
            "dst" := Dir 1000 {[ "a.txt" := File "hello" 1002 ]} ]}.

(** [nestedTree] after one and after two syncs of [/ws/a/b] into [/ws/a]. *)
Definition nestedTreeSynced : node :=
  wsWith {[ "a" := Dir 0 {[ "b" := Dir 0 {[ "b" := Dir 0 {[ "f" := File "x" 1 ]};
                                             "f" := File "x" 1000 ]} ]} ]}.

Definition nestedTreeSyncedTwice : node :=
  wsWith {[ "a" := Dir 0 {[ "b" := Dir 0 {[ "b" := Dir 0 {[ "f" := File "x" 1 ]};
                                             "f" := File "x" 1000 ]};
                            "f" := File "x" 1001 ]} ]}.

End DirOpsAux.

(* ================================================================== *)
(** ** BatchOperationManager.ts *)
(* ================================================================== *)

Module Batch.
Import Fs.

Inductive opType := Copy | Move | DeleteOp.

(** [destination] is [None] when the property is absent. *)
Record BatchOperation := {
  type : opType;
  source : string;
  destination : option string
}.

Record RollbackInfo := {
  operation : BatchOperation;
  backupPath : option path;
  wasCreated : option bool
}.

Record BatchOperationResult := {
  resultOperation : BatchOperation;
  success : bool;
  failure : option string
}.

(** The filesystem and the number of clock readings taken so far:
    [Date.now()] and the time stamp of a write are the next reading. *)
Definition world : Type := node * nat.

(** Calls that read and change the world and may throw. *)
Definition M (A : Type) : Type := world → result A * world.

Definition ret {A} (a : A) : M A := λ w, (Ok a, w).

Definition throw {A} (e : error) : M A := λ w, (Err e, w).

Definition mbindM {A B} (m : M A) (k : A → M B) : M B :=
  λ w, match m w with
       | (Ok a, w') => k a w'
       | (Err e, w') => (Err e, w')
       | (OutOfFuel, w') => (OutOfFuel, w')
       end.

Notation "x <- m ;; k" := (mbindM m (λ x, k))
  (at level 100, m at level 99, k at level 200, right associativity).
Notation "m ;;; k" := (mbindM m (λ _, k))
  (at level 100, k at level 200, right associativity).

Definition when (b : bool) (m : M unit) : M unit := if b then m else ret tt.

(** JavaScript truthiness of an optional string. *)
Definition truthy (d : option string) : bool :=
  match d with
  | Some s => negb (bool_decide (s = ""))
  | None => false
  end.

Definition errorMessage (e : error) : string :=
  match e with
  | SecurityError v => Security.message v
  | FileSystemError m => m
  | SystemError ENOENT => "ENOENT: no such file or directory"
  | SystemError ENOTDIR => "ENOTDIR: not a directory"
  | SystemError EISDIR => "EISDIR: illegal operation on a directory"
  | SystemError ENOTEMPTY => "ENOTEMPTY: directory not empty"
  | SystemError EEXIST => "EEXIST: file already exists"
  | SystemError EINVAL => "EINVAL: invalid argument"
  | TypeError m => m
  end.

(** [`${p}.backup-${now}`]: the suffix lands on the last segment. *)
Definition shadow (p : path) (now : Z) : path :=
  removelast p ++ [default "" (last p) +:+ ".backup-" +:+ pretty now].

Section manager.
Context (clock : nat → Z) (cwd : string) (sm : Security.SecurityManager).

Definition dateNow : M Z := λ w, (Ok (clock w.2), (w.1, S w.2)).

Definition validatePath (p : string) (op : Security.operation) : M path :=
  λ w, match Fs.validatePath cwd sm w.1 p op with
       | Ok r => (Ok (segments r), w)
       | Err e => (Err e, w)
       | OutOfFuel => (OutOfFuel, w)
       end.

Definition exists_ (p : path) : M bool := λ w, (Ok (existsSync p w.1), w).

Definition stat (p : path) : M node :=
  λ w, (statSync p w.1, w).

Definition readdir (p : path) : M (list (string * node)) :=
  λ w, (readdirSync p w.1, w).

Definition change (f : node → result node) : M unit :=
  λ w, match f w.1 with
       | Ok fs' => (Ok tt, (fs', w.2))
       | Err e => (Err e, w)
       | OutOfFuel => (OutOfFuel, w)
       end.

Definition stamped (f : Z → node → result node) : M unit :=
  λ w, match f (clock w.2) w.1 with
       | Ok fs' => (Ok tt, (fs', S w.2))
       | Err e => (Err e, w)
       | OutOfFuel => (OutOfFuel, w)
       end.

Definition validateFileSize (size : nat) : M unit :=
  λ w, match Security.validateFileSize sm (Z.of_nat size) with
       | Security.Returns _ => (Ok tt, w)
       | Security.Throws v => (Err (SecurityError v), w)
       | Security.Unfinished => (OutOfFuel, w)
       end.

Definition validateBatchSize (totalSize count : nat) : M unit :=
  λ w, match Security.validateBatchSize sm (Z.of_nat totalSize) count with
       | Security.Returns _ => (Ok tt, w)
       | Security.Throws v => (Err (SecurityError v), w)
       | Security.Unfinished => (OutOfFuel, w)
       end.

Definition sourceKind (op : BatchOperation) : Security.operation :=
  match type op with DeleteOp => Security.Delete | _ => Security.Read end.

(** [calculateDirectorySize(dirPath)] *)
Fixpoint calculateDirectorySize (fuel : nat) (dirPath : path) : M nat :=
  match fuel with
  | O => λ w, (OutOfFuel, w)
  | S fuel' =>
      entries <- readdir dirPath ;;
      (fix loop (entries : list (string * node)) (totalSize : nat) : M nat :=
         match entries with
         | [] => ret totalSize
         | (name, entry) :: rest =>
             let fullPath := dirPath ++ [name] in
             if isDirectory entry then
               size <- calculateDirectorySize fuel' fullPath ;;
               loop rest (totalSize + size)%nat
             else
               stats <- stat fullPath ;;
               loop rest (totalSize + sizeOf stats)%nat
         end) entries O
  end.

Definition typeName (t : opType) : string :=
  match t with Copy => "copy" | Move => "move" | DeleteOp => "delete" end.

Definition isDelete (t : opType) : bool :=
  match t with DeleteOp => true | _ => false end.

(** [validateSingleOperation(operation)] *)
Definition validateSingleOperation (fuel : nat) (op : BatchOperation) : M unit :=
  validatedSource <- validatePath (source op) (sourceKind op) ;;
  when (negb (isDelete (type op)))
    (present <- exists_ validatedSource ;;
     if negb present then
       throw (FileSystemError ("Source path does not exist: " +:+ source op))
     else
       stats <- stat validatedSource ;;
       if isDirectory stats then
         dirSize <- calculateDirectorySize fuel validatedSource ;;
         validateFileSize dirSize
       else validateFileSize (sizeOf stats)) ;;;
  if truthy (destination op) then
    validatePath (default "" (destination op)) Security.Write ;;; ret tt
  else if negb (isDelete (type op)) then
    throw (FileSystemError
             ("Destination required for " +:+ typeName (type op) +:+ " operation"))
  else ret tt.

(** The loop of [validateAllOperations(operations)], [totalSize] being
    the running total. *)
Fixpoint validateEach (fuel : nat) (ops : list BatchOperation) (totalSize : nat)
  : M nat :=
  match ops with
  | [] => ret totalSize
  | op :: rest =>
      validatedSource <- validatePath (source op) (sourceKind op) ;;
      totalSize' <-
        (if negb (isDelete (type op)) then
           present <- exists_ validatedSource ;;
           if negb present then
             throw (FileSystemError ("Source path does not exist: " +:+ source op))
           else
             stats <- stat validatedSource ;;
             if isDirectory stats then
               dirSize <- calculateDirectorySize fuel validatedSource ;;
               ret (totalSize + dirSize)%nat
             else
               validateFileSize (sizeOf stats) ;;;
               ret (totalSize + sizeOf stats)%nat
         else ret totalSize) ;;
      (if truthy (destination op) then
         validatePath (default "" (destination op)) Security.Write ;;; ret tt
       else if negb (isDelete (type op)) then
         throw (FileSystemError
                  ("Destination required for " +:+ typeName (type op)
                   +:+ " operation"))
       else ret tt) ;;;
      validateEach fuel rest totalSize'
  end.

(** [validateAllOperations(operations)] *)
Definition validateAllOperations (fuel : nat) (ops : list BatchOperation) : M unit :=
  totalSize <- validateEach fuel ops O ;;
  validateBatchSize totalSize (length ops).

(** The [for (const entry of entries)] loop of [copyDirectory], with
    the recursive call as [rec]. *)
Fixpoint copyEntries (rec : path → path → M unit) (src dst : path)
    (entries : list (string * node)) : M unit :=
  match entries with
  | [] => ret tt
  | (name, entry) :: rest =>
      (if isDirectory entry
       then rec (src ++ [name]) (dst ++ [name])
       else stamped (copyFileSync (src ++ [name]) (dst ++ [name]))) ;;;
      copyEntries rec src dst rest
  end.

(** [copyDirectory(source, destination)] *)
Fixpoint copyDirectory (fuel : nat) (src dst : path) : M unit :=
  match fuel with
  | O => λ w, (OutOfFuel, w)
  | S fuel' =>
      present <- exists_ dst ;;
      when (negb present) (stamped (mkdirp dst)) ;;;
      entries <- readdir src ;;
      copyEntries (copyDirectory fuel') src dst entries
  end.

Definition needDestination (d : option string) : M string :=
  match d with
  | Some s => ret s
  | None => throw (TypeError "The paths[1] argument must be of type string")
  end.

(** The [Partial<RollbackInfo>] an executed operation returns:
    [backupPath] and [wasCreated]. *)
Definition partialRollback : Type := option path * option bool.

(** [executeCopy(source, destination)] *)
Definition executeCopy (fuel : nat) (src : path) (dest : option string)
  : M partialRollback :=
  d <- needDestination dest ;;
  validatedDest <- validatePath d Security.Write ;;
  present <- exists_ src ;;
  if negb present then
    throw (FileSystemError ("Source file disappeared before copy: " +:+ render src))
  else
    destExists <- exists_ validatedDest ;;
    dirPresent <- exists_ (parent validatedDest) ;;
    when (negb dirPresent) (stamped (mkdirp (parent validatedDest))) ;;;
    stats <- stat src ;;
    (if isDirectory stats then copyDirectory fuel src validatedDest
     else stamped (copyFileSync src validatedDest)) ;;;
    ret (None, Some (negb destExists)).

(** [executeMove(source, destination)] *)
Definition executeMove (src : path) (dest : option string) : M partialRollback :=
  d <- needDestination dest ;;
  validatedDest <- validatePath d Security.Write ;;
  destExists <- exists_ validatedDest ;;
  backup <-
    (if destExists then
       now <- dateNow ;;
       change (renameSync validatedDest (shadow validatedDest now)) ;;;
       ret (Some (shadow validatedDest now))
     else ret None) ;;
  dirPresent <- exists_ (parent validatedDest) ;;
  when (negb dirPresent) (stamped (mkdirp (parent validatedDest))) ;;;
  change (renameSync src validatedDest) ;;;
  ret (backup, Some (negb destExists)).

(** [executeDelete(source)]: the source is renamed aside, not unlinked. *)
Definition executeDelete (src : path) : M partialRollback :=
  now <- dateNow ;;
  change (renameSync src (shadow src now)) ;;;
  ret (Some (shadow src now), None).

(** [executeOperation(operation)] *)
Definition executeOperation (fuel : nat) (op : BatchOperation) : M partialRollback :=
  validatedSource <- validatePath (source op) (sourceKind op) ;;
  match type op with
  | Copy => executeCopy fuel validatedSource (destination op)
  | Move => executeMove validatedSource (destination op)
  | DeleteOp => executeDelete validatedSource
  end.

(** Remove a file with [unlinkSync] or a directory with [rmSync], if it
    exists. *)
Definition removeIfExists (p : path) : M unit :=
  present <- exists_ p ;;
  when present
    (stats <- stat p ;;
     if isDirectory stats then change (rmSync p) else change (unlinkSync p)).

(** [rollbackSingleOperation(info)] *)
Definition rollbackSingleOperation (info : RollbackInfo) : M unit :=
  let op := operation info in
  match type op with
  | Copy =>
      when (default false (wasCreated info) && truthy (destination op))
        (validatedDest <- validatePath (default "" (destination op)) Security.Delete ;;
         removeIfExists validatedDest)
  | Move =>
      match backupPath info with
      | Some backup =>
          backupPresent <- exists_ backup ;;
          when backupPresent
            (d <- needDestination (destination op) ;;
             validatedDest <- validatePath d Security.Delete ;;
             removeIfExists validatedDest ;;;
             change (renameSync backup validatedDest))
      | None => ret tt
      end ;;;
      when (truthy (destination op))
        (validatedDest <- validatePath (default "" (destination op)) Security.Read ;;
         validatedSource <- validatePath (source op) Security.Write ;;
         present <- exists_ validatedDest ;;
         when present (change (renameSync validatedDest validatedSource)))
  | DeleteOp =>
      match backupPath info with
      | Some backup =>
          backupPresent <- exists_ backup ;;
          when backupPresent
            (validatedSource <- validatePath (source op) Security.Write ;;
             change (renameSync backup validatedSource))
      | None => ret tt
      end
  end.

(** [rollbackOperations(rollbackInfo)]: last record first; a record whose
    rollback throws is logged and the loop goes on from the state the
    failed attempt left. *)
Fixpoint rollbackReversed (reversed : list RollbackInfo) (w : world) : world :=
  match reversed with
  | [] => w
  | info :: rest => rollbackReversed rest (rollbackSingleOperation info w).2
  end.

Definition rollbackOperations (rollbackInfo : list RollbackInfo) (w : world) : world :=
  rollbackReversed (rev rollbackInfo) w.

(** [rollback(completed)]: the records carry no [backupPath] and no
    [wasCreated]. *)
Definition rollback (completed : list BatchOperation) (w : world) : world :=
  rollbackOperations
    ((λ op, {| operation := op; backupPath := None; wasCreated := None |})
       <$> completed) w.

Inductive batchOutcome :=
| BatchReturned (results : list BatchOperationResult) (w : world)
| BatchThrew (e : error) (w : world)
| BatchUnfinished.

(** The [for (const operation of operations)] loop of [executeBatch]. *)
Fixpoint executeEach (fuel : nat) (atomic : bool) (ops : list BatchOperation)
    (results : list BatchOperationResult) (rollbackInfo : list RollbackInfo)
    (w : world) : batchOutcome :=
  match ops with
  | [] => BatchReturned results w
  | op :: rest =>
      match (when (negb atomic) (validateSingleOperation fuel op) ;;;
             executeOperation fuel op) w with
      | (Ok rollback, w') =>
          executeEach fuel atomic rest
            (results ++ [{| resultOperation := op; success := true; failure := None |}])
            (rollbackInfo ++ [{| operation := op; backupPath := rollback.1;
                                 wasCreated := rollback.2 |}]) w'
      | (Err e, w') =>
          let results' :=
            results ++ [{| resultOperation := op; success := false;
                           failure := Some (errorMessage e) |}] in
          if atomic then
            BatchThrew
              (FileSystemError
                 ("Batch operation failed atomically: " +:+ errorMessage e))
              (rollbackOperations rollbackInfo w')
          else executeEach fuel atomic rest results' rollbackInfo w'
      | (OutOfFuel, _) => BatchUnfinished
      end
  end.

(** [executeBatch(operations, atomic)]; the audit lines are left out. *)
Definition executeBatch (fuel : nat) (ops : list BatchOperation) (atomic : bool)
    (w : world) : batchOutcome :=
  match when atomic (validateAllOperations fuel ops) w with
  | (Ok _, w') => executeEach fuel atomic ops [] [] w'
  | (Err e, w') => BatchThrew e w'
  | (OutOfFuel, _) => BatchUnfinished
  end.

End manager.
End Batch.

(* ================================================================== *)
(** ** Batch rollback: the runs it undoes, and sample batches *)
(* ================================================================== *)

Module BatchAux.
Import Fs Batch.

Section restorable.
Context (clock : nat → Z) (cwd : string) (sm : Security.SecurityManager).

(** The validated form of a path argument. *)
Definition resolved (p : string) : path :=
  segments (Path.resolve cwd [Security.workspaceRoot sm; p]).

(** An operation about to run in world [w] that the rollback can undo:
    a copy or a move onto a destination that does not exist, in an
    existing directory (for a copy, not inside the source), or a delete
    whose shadow name is unused. *)
Definition restorableAt (op : BatchOperation) (w : world) : Prop :=
  match type op with
  | Copy =>
      ∃ d, destination op = Some d ∧ d ≠ ""
           ∧ get (resolved d) w.1 = None
           ∧ is_Some (get (parent (resolved d)) w.1)
           ∧ ¬ resolved (source op) `prefix_of` resolved d
  | Move =>
      ∃ d, destination op = Some d ∧ d ≠ ""
           ∧ get (resolved d) w.1 = None
           ∧ is_Some (get (parent (resolved d)) w.1)
  | DeleteOp =>
      get (shadow (resolved (source op)) (clock w.2)) w.1 = None
  end.

(** Along the run of a batch every executed operation was restorable,
    and the attempt that failed left the tree as it found it. *)
Fixpoint restorableRun (fuel : nat) (ops : list BatchOperation) (w : world) : Prop :=
  match ops with
  | [] => True
  | op :: rest =>
      match executeOperation clock cwd sm fuel op w with
      | (Ok _, w') => restorableAt op w ∧ restorableRun fuel rest w'
      | (Err _, w') => w'.1 = w.1
      | (OutOfFuel, _) => True
      end
  end.

(** What a finished [copyDirectory fuel] onto a destination that did not
    exist has done: written one directory there. *)
Definition copiesTree (fuel : nat) : Prop :=
  ∀ src dst fs k fs1 k1,
    copyDirectory clock fuel src dst (fs, k) = (Ok tt, (fs1, k1)) →
    apart src dst → dst ≠ [] →
    get dst fs = None → is_Some (get (parent dst) fs) →
    ∃ v, isDirectory v = true ∧ put dst v fs = Some fs1.


End restorable.

Definition batchClock (k : nat) : Z := 1700000000000 + Z.of_nat k.

(** [/ws/a] holds "A" and [/ws/b] holds "B". *)
Definition twoFiles : node :=
  DirOpsAux.wsWith {[ "a" := File "A" 1; "b" := File "B" 2 ]}.

(** [twoFiles] after [copy a -> c] at reading 0, and after [delete b] at
    reading 1 as well. *)
Definition twoFilesCopied : node :=
  DirOpsAux.wsWith {[ "a" := File "A" 1; "b" := File "B" 2;
                      "c" := File "A" 1700000000000 ]}.

Definition twoFilesDeleted : node :=
  DirOpsAux.wsWith {[ "a" := File "A" 1;
                      "b.backup-1700000000001" := File "B" 2;
                      "c" := File "A" 1700000000000 ]}.

(** [twoFiles] with [b] overwritten by a copy of [a] at reading 0. *)
Definition twoFilesOverwritten : node :=
  DirOpsAux.wsWith {[ "a" := File "A" 1; "b" := File "A" 1700000000000 ]}.

(** [/ws/pkg] is a directory with a file and a subdirectory. *)
Definition withPackage : node :=
  DirOpsAux.wsWith {[ "pkg" := Dir 0 {[ "x" := File "X" 1;
                                         "sub" := Dir 0 {[ "y" := File "Y" 2 ]} ]};
                      "b" := File "B" 2 ]}.

Definition copyOp (s d : string) : BatchOperation :=
  {| type := Copy; source := s; destination := Some d |}.
Definition moveOp (s d : string) : BatchOperation :=
  {| type := Move; source := s; destination := Some d |}.
Definition deleteOp (s : string) : BatchOperation :=
  {| type := DeleteOp; source := s; destination := None |}.

(** A call that leaves the world as it found it. *)
Definition readOnlyM {A} (m : M A) : Prop := ∀ w, (m w).2 = w.

(** The world a thrown batch left behind. *)
Definition worldAfter (o : batchOutcome) : option world :=
  match o with
  | BatchThrew _ w => Some w
  | _ => None
  end.

End BatchAux.

(* ================================================================== *)
(** ** DirectoryOperations.ts: copyDirectory and atomicReplace *)
(* ================================================================== *)

Module DirCopy.
Import Fs.

Record CopyResult := {
  filesCopied : nat;
  bytesTransferred : nat
}.

Definition world : Type := node * nat.

(** The [errno] of a write whose parent directory cannot be reached. *)
Fixpoint unreachable (p : path) (n : node) : errno :=
  match p, n with
  | _ :: _, File _ _ => ENOTDIR
  | s :: p', Dir _ es =>
      match es !! s with
      | Some c => unreachable p' c
      | None => ENOENT
      end
  | [], _ => ENOENT
  end.

(** [fs.utimesSync(p, atime, mtime)]; access times are not part of the
    tree. *)
Definition utimesSync (p : path) (mtime : Z) (fs : node) : result node :=
  match get p fs with
  | None => Err (SystemError (unreachable p fs))
  | Some v =>
      let v' := match v with
                | File c _ => File c mtime
                | Dir _ es => Dir mtime es
                end in
      match p with
      | [] => Ok v'
      | _ => match put p v' fs with
             | Some fs' => Ok fs'
             | None => Err (SystemError ENOENT)
             end
      end
  end.

(** [fs.chmodSync(p, mode)]; permission bits are not part of the tree,
    so only the failure on a missing path shows. *)
Definition chmodSync (p : path) (fs : node) : result node :=
  match get p fs with
  | None => Err (SystemError (unreachable p fs))
  | Some _ => Ok fs
  end.

(** [fs.writeFileSync(p, content)] at time [now]. *)
Definition writeFileSync (p : path) (content : string) (now : Z) (fs : node)
  : result node :=
  match get p fs with
  | Some (Dir _ _) => Err (SystemError EISDIR)
  | _ => match put p (File content now) fs with
         | Some fs' => Ok fs'
         | None => Err (SystemError (unreachable p fs))
         end
  end.

Section copy.
Context (clock : nat → Z) (preserveMetadata : bool)
        (exclusionPatterns : list Security.RegExp).

(** The [for (const entry of entries)] loop of [recursiveCopy], with the
    recursive call as [rec]. *)
Fixpoint copyEntries (rec : path → path → world → result (CopyResult * world))
    (source destination : path) (entries : list (string * node))
    (acc : CopyResult) (w : world) : result (CopyResult * world) :=
  match entries with
  | [] => Ok (acc, w)
  | (name, entry) :: rest =>
      let sourcePath := source ++ [name] in
      let destPath := destination ++ [name] in
      if DirOps.shouldExclude (render sourcePath) exclusionPatterns
      then copyEntries rec source destination rest acc w
      else if isDirectory entry then
        bind (rec sourcePath destPath w) (λ '(r, w'),
          copyEntries rec source destination rest
            {| filesCopied := filesCopied acc + filesCopied r;
               bytesTransferred := bytesTransferred acc + bytesTransferred r |} w')
      else
        bind (statSync sourcePath w.1) (λ stats,
        bind (copyFileSync sourcePath destPath (clock w.2) w.1) (λ fs1,
        bind (if preserveMetadata
              then bind (utimesSync destPath (mtimeOf stats) fs1) (chmodSync destPath)
              else Ok fs1) (λ fs2,
          copyEntries rec source destination rest
            {| filesCopied := filesCopied acc + 1;
               bytesTransferred := bytesTransferred acc + sizeOf stats |}
            (fs2, S w.2))))
  end.

(** [recursiveCopy(source, destination, preserveMetadata,
    exclusionPatterns)] *)
Fixpoint recursiveCopy (fuel : nat) (source destination : path) (w : world)
  : result (CopyResult * world) :=
  match fuel with
  | O => OutOfFuel
  | S fuel' =>
      bind (if existsSync destination w.1 then Ok w
            else
              bind (mkdirp destination (clock w.2) w.1) (λ fs1,
              bind (if preserveMetadata
                    then bind (statSync source fs1) (λ sourceStats,
                         bind (utimesSync destination (mtimeOf sourceStats) fs1)
                              (chmodSync destination))
                    else Ok fs1) (λ fs2, Ok (fs2, S w.2))))
        (λ w1,
          bind (readdirSync source w1.1) (λ entries,
            copyEntries (recursiveCopy fuel') source destination entries
              {| filesCopied := 0; bytesTransferred := 0 |} w1))
  end.

(** [copyDirectory(source, destination, options)], with
    [options.preserveMetadata || false] and the patterns compiled from
    [options.exclusions]; the audit line and the [duration] field are
    left out. *)
Definition copyDirectory (cwd : string) (sm : Security.SecurityManager)
    (fuel : nat) (source destination : string) (w : world)
  : result (CopyResult * world) :=
  bind (validatePath cwd sm w.1 source Security.Read) (λ validatedSource,
  bind (validatePath cwd sm w.1 destination Security.Write) (λ validatedDest,
    match get (segments validatedSource) w.1 with
    | None =>
        Err (FileSystemError ("Source directory does not exist: " +:+ source))
    | Some (File _ _) =>
        Err (FileSystemError ("Source is not a directory: " +:+ source))
    | Some (Dir _ _) =>
        recursiveCopy fuel (segments validatedSource) (segments validatedDest) w
    end)).

End copy.

(** [atomicReplace(targetPath, content)].  [tempFileName] is the name
    [`.tmp-${crypto.randomBytes(16).toString("hex")}`] drawn for the
    call.  The outcome comes with the world the call leaves. *)
Definition atomicReplace (clock : nat → Z) (cwd : string)
    (sm : Security.SecurityManager) (tempFileName : string)
    (targetPath content : string) (w : world) : result unit * world :=
  match validatePath cwd sm w.1 targetPath Security.Write with
  | Err e => (Err e, w)
  | OutOfFuel => (OutOfFuel, w)
  | Ok validatedTarget =>
      let target := segments validatedTarget in
      let tempPath := parent target ++ [tempFileName] in
      let failed (e : error) (w' : world) : result unit * world :=
        let cleaned :=
          if existsSync tempPath w'.1
          then match unlinkSync tempPath w'.1 with
               | Ok fs' => fs'
               | _ => w'.1
               end
          else w'.1 in
        (Err (FileSystemError
                ("Atomic replace failed: " +:+ Batch.errorMessage e)),
         (cleaned, w'.2)) in
      match writeFileSync tempPath content (clock w.2) w.1 with
      | Ok fs1 =>
          match renameSync tempPath target fs1 with
          | Ok fs2 => (Ok tt, (fs2, S w.2))
          | Err e => failed e (fs1, S w.2)
          | OutOfFuel => (OutOfFuel, (fs1, S w.2))
          end
      | Err e => failed e w
      | OutOfFuel => (OutOfFuel, w)
      end
  end.

End DirCopy.

(* ================================================================== *)
(** ** copyDirectory: what a finished copy leaves behind *)
(* ================================================================== *)

Module DirCopyAux.
Import Fs DirCopy.

Section mirrored.
Context (clock : nat → Z) (preserveMetadata : bool)
        (exclusionPatterns : list Security.RegExp).

(** The modification time [t'] of a copy made from write number [k0] on,
    of a file last modified at [t]. *)
Definition stamped (k0 : nat) (t t' : Z) : Prop :=
  if preserveMetadata then t' = t else ∃ j, (k0 ≤ j)%nat ∧ t' = clock j.

(** An entry of the source directory has its copy: it is excluded, or it
    is a file and the destination holds a file with the same bytes, or it
    is a directory whose entries have their copies. *)
Definition entryMirrored (rec : path → path → node → Prop) (k0 : nat)
    (source destination : path) (fs : node) (name : string) (entry : node) : Prop :=
  DirOps.shouldExclude (render (source ++ [name])) exclusionPatterns = false →
  match entry with
  | Dir _ _ => rec (source ++ [name]) (destination ++ [name]) fs
  | File c t =>
      ∃ t', get (destination ++ [name]) fs = Some (File c t') ∧ stamped k0 t t'
  end.

Fixpoint mirrored (k0 : nat) (fuel : nat) (source destination : path) (fs : node)
  : Prop :=
  match fuel with
  | O => False
  | S fuel' =>
      is_Some (get destination fs)
      ∧ ∃ t es, get source fs = Some (Dir t es)
                ∧ ∀ name entry, es !! name = Some entry →
                    entryMirrored (mirrored k0 fuel') k0 source destination fs
                      name entry
  end.

(** What the files of the tree [n] at path [p] that no exclusion
    pattern screens out add up to, each file counting [measure]. *)
Fixpoint selected (measure : node → nat) (p : path) (n : node) : nat :=
  match n with
  | File _ _ => measure n
  | Dir _ es =>
      map_fold (λ name c acc,
                  ((if DirOps.shouldExclude (render (p ++ [name])) exclusionPatterns
                    then 0 else selected measure (p ++ [name]) c) + acc)%nat)
               O es
  end.

Definition selectedOf (measure : node → nat) (p : path)
    (entries : list (string * node)) : nat :=
  foldr (λ kv acc,
           ((if DirOps.shouldExclude (render (p ++ [kv.1])) exclusionPatterns
             then 0 else selected measure (p ++ [kv.1]) kv.2) + acc)%nat)
        O entries.

(** No component of the relative path [q] below [source] is screened
    out by an exclusion pattern. *)
Definition visible (source q : path) : Prop :=
  ∀ q1 name q2, q = q1 ++ name :: q2 →
    DirOps.shouldExclude (render (source ++ q1 ++ [name])) exclusionPatterns = false.

(** What one finished call of [recursiveCopy fuel] establishes. *)
Definition copies (fuel : nat) : Prop :=
  ∀ source destination w r w',
    apart source destination →
    recursiveCopy clock preserveMetadata exclusionPatterns fuel source destination w
    = Ok (r, w') →
    mirrored w.2 fuel source destination w'.1
    ∧ (∀ q, apart destination q → get q w'.1 = get q w.1)
    ∧ (w.2 ≤ w'.2)%nat
    ∧ ∀ s, get source w.1 = Some s →
        filesCopied r = selected (λ _, 1%nat) source s
        ∧ bytesTransferred r = selected sizeOf source s.

End mirrored.

(** [withPackage] after [copyDirectory "pkg" "out"] from write 0, without
    and with [preserveMetadata]. *)
Definition withPackageCopied : node :=
  DirOpsAux.wsWith
    {[ "pkg" := Dir 0 {[ "x" := File "X" 1;
                         "sub" := Dir 0 {[ "y" := File "Y" 2 ]} ]};
       "b" := File "B" 2;
       "out" := Dir 1000 {[ "x" := File "X" 1003;
                            "sub" := Dir 1001 {[ "y" := File "Y" 1002 ]} ]} ]}.

Definition withPackagePreserved : node :=
  DirOpsAux.wsWith
    {[ "pkg" := Dir 0 {[ "x" := File "X" 1;
                         "sub" := Dir 0 {[ "y" := File "Y" 2 ]} ]};
       "b" := File "B" 2;
       "out" := Dir 0 {[ "x" := File "X" 1;
                         "sub" := Dir 0 {[ "y" := File "Y" 2 ]} ]} ]}.

End DirCopyAux.

(* ================================================================== *)
(** ** DiskUsageAnalyzer.ts *)
(* ================================================================== *)

Module DiskUsage.
Import Fs.

Record FileEntry := {
  path : string;
  size : nat;
  isDirectory : bool
}.

Record DiskUsageReport := {
  reportPath : string;
  totalSize : nat;
  fileCount : nat;
  largestFiles : list (string * nat);
  largestDirectories : list (string * nat);
  fileTypeBreakdown : option (list (string * nat))
}.

(** A [Map<string, number>] as its entries in insertion order:
    [map.get(k) || 0], and [map.set(k, v)], which keeps the place of a
    key that is already there. *)
Fixpoint mapGet (m : list (string * nat)) (k : string) : nat :=
  match m with
  | [] => O
  | (k', v') :: m' => if bool_decide (k' = k) then v' else mapGet m' k
  end.

Fixpoint mapSet (m : list (string * nat)) (k : string) (v : nat)
  : list (string * nat) :=
  match m with
  | [] => [(k, v)]
  | (k', v') :: m' =>
      if bool_decide (k' = k) then (k, v) :: m' else (k', v') :: mapSet m' k v
  end.

(** [path.extname(name)] of an entry name (no separator in it): the text
    from the last dot on, or nothing when there is no dot, when the last
    dot is the first character, or when the name is [..].
    [splitLastDot] walks the reversed name and gives the text before the
    last dot and the text from it on. *)
Fixpoint splitLastDot (reversed : string) (ext : string) : option (string * string) :=
  match reversed with
  | EmptyString => None
  | String c rest =>
      if bool_decide (c = "."%char) then Some (String.rev rest, String c ext)
      else splitLastDot rest (String c ext)
  end.

Definition extname (name : string) : string :=
  match splitLastDot (String.rev name) "" with
  | None => ""
  | Some (before, ext) =>
      if bool_decide (before = "") || bool_decide (name = "..") then "" else ext
  end.

(** [array.sort((a, b) => key(b) - key(a))].  [Array.prototype.sort] is
    stable: the result is in descending order of [key], entries with
    equal keys in the order they had. *)
Fixpoint insertDescending {A} (key : A → nat) (x : A) (l : list A) : list A :=
  match l with
  | [] => [x]
  | y :: l' =>
      if (key x <? key y)%nat then y :: insertDescending key x l' else x :: l
  end.

Definition sortDescending {A} (key : A → nat) (l : list A) : list A :=
  foldr (insertDescending key) [] l.

(** [currentDepth >= maxDepth] for an integer [maxDepth], [None] being
    [Infinity]. *)
Definition reached (currentDepth : nat) (maxDepth : option Z) : bool :=
  match maxDepth with
  | Some m => bool_decide (m ≤ Z.of_nat currentDepth)
  | None => false
  end.

(** The loop [for (const entry of entries)] of [analyzeDiskUsage] that
    adds up [totalSize] and [fileCount]. *)
Definition totals (entries : list FileEntry) : nat * nat :=
  foldl (λ acc entry,
           if isDirectory entry then acc
           else ((acc.1 + size entry)%nat, S acc.2))
        (O, O) entries.

Section analyzer.
Context (cwd : string) (sm : Security.SecurityManager) (fs : node).

(** The [entries] array and the [fileTypeMap] argument ([None] for
    [null]) of [scanDirectory], both updated in place by the calls. *)
Definition scanState : Type := list FileEntry * option (list (string * nat)).

(** The file type key of an entry name:
    [path.extname(name).toLowerCase() || "(no extension)"]. *)
Definition typeOf (name : string) : string :=
  let ext := JsString.toLower (extname name) in
  if bool_decide (ext = "") then "(no extension)" else ext.

(** The loop [for (const entry of dirEntries)] of [scanDirectory], with
    the recursive call as [rec].  An entry whose path is rejected by
    [validatePath], or which cannot be examined, is skipped.  The tree
    has no symbolic links, so an entry is a directory or a regular
    file. *)
Fixpoint scanEntries (rec : Fs.path → nat → scanState → option scanState)
    (dirPath : Fs.path) (currentDepth : nat) (dirEntries : list (string * node))
    (st : scanState) : option scanState :=
  match dirEntries with
  | [] => Some st
  | (name, entry) :: rest =>
      let fullPath := dirPath ++ [name] in
      match validatePath cwd sm fs (render fullPath) Security.Read with
      | OutOfFuel => None
      | Err _ => scanEntries rec dirPath currentDepth rest st
      | Ok _ =>
          if Fs.isDirectory entry then
            st' ← rec fullPath (S currentDepth)
                    (st.1 ++ [{| path := render fullPath; size := 0;
                                 isDirectory := true |}], st.2);
            scanEntries rec dirPath currentDepth rest st'
          else
            match statSync fullPath fs with
            | Ok fileStats =>
                scanEntries rec dirPath currentDepth rest
                  (st.1 ++ [{| path := render fullPath; size := sizeOf fileStats;
                               isDirectory := false |}],
                   (λ fileTypeMap,
                      mapSet fileTypeMap (typeOf name)
                        (mapGet fileTypeMap (typeOf name) + sizeOf fileStats))
                     <$> st.2)
            | Err _ => scanEntries rec dirPath currentDepth rest st
            | OutOfFuel => None
            end
      end
  end.

(** [scanDirectory(dirPath, currentDepth, maxDepth, entries,
    fileTypeMap)].  The function catches whatever its body throws (a
    directory that cannot be read is left out), so a call has a result
    unless the bound [fuel] on the nesting is too small. *)
Fixpoint scanDirectory (fuel : nat) (maxDepth : option Z) (dirPath : Fs.path)
    (currentDepth : nat) (st : scanState) : option scanState :=
  match fuel with
  | O => None
  | S fuel' =>
      if reached currentDepth maxDepth then Some st
      else match readdirSync dirPath fs with
           | Ok dirEntries =>
               scanEntries (scanDirectory fuel' maxDepth) dirPath currentDepth
                 dirEntries st
           | Err _ => Some st
           | OutOfFuel => None
           end
  end.

(** The loop of [calculateSizeRecursive]. *)
Fixpoint sizeEntries (rec : Fs.path → nat → option nat)
    (dirPath : Fs.path) (currentDepth : nat) (entries : list (string * node))
    (totalSize : nat) : option nat :=
  match entries with
  | [] => Some totalSize
  | (name, entry) :: rest =>
      let fullPath := dirPath ++ [name] in
      match validatePath cwd sm fs (render fullPath) Security.Read with
      | OutOfFuel => None
      | Err _ => sizeEntries rec dirPath currentDepth rest totalSize
      | Ok _ =>
          if Fs.isDirectory entry then
            sub ← rec fullPath (S currentDepth);
            sizeEntries rec dirPath currentDepth rest (totalSize + sub)
          else
            match statSync fullPath fs with
            | Ok fileStats =>
                sizeEntries rec dirPath currentDepth rest
                  (totalSize + sizeOf fileStats)
            | Err _ => sizeEntries rec dirPath currentDepth rest totalSize
            | OutOfFuel => None
            end
      end
  end.

(** [calculateSizeRecursive(dirPath, currentDepth, maxDepth)]; a
    directory that cannot be read counts 0. *)
Fixpoint calculateSizeRecursive (fuel : nat) (maxDepth : option Z)
    (dirPath : Fs.path) (currentDepth : nat) : option nat :=
  match fuel with
  | O => None
  | S fuel' =>
      if reached currentDepth maxDepth then Some O
      else match readdirSync dirPath fs with
           | Ok entries =>
               sizeEntries (calculateSizeRecursive fuel' maxDepth) dirPath
                 currentDepth entries O
           | Err _ => Some O
           | OutOfFuel => None
           end
  end.

(** The checks [analyzeDiskUsage] and [calculateDirectorySize] start
    with: the path is validated and has to name a directory. *)
Definition validDirectory (dirPath : string) : result string :=
  bind (validatePath cwd sm fs dirPath Security.Read) (λ validPath,
    match get (segments validPath) fs with
    | None => Err (FileSystemError ("Directory does not exist: " +:+ dirPath))
    | Some (File _ _) =>
        Err (FileSystemError ("Path is not a directory: " +:+ dirPath))
    | Some (Dir _ _) => Ok validPath
    end).

(** [calculateDirectorySize(dirPath, maxDepth)] *)
Definition calculateDirectorySize (fuel : nat) (dirPath : string)
    (maxDepth : option Z) : result nat :=
  bind (validDirectory dirPath) (λ validPath,
    match calculateSizeRecursive fuel maxDepth (segments validPath) O with
    | Some totalSize => Ok totalSize
    | None => OutOfFuel
    end).

(** The loop of [analyzeDiskUsage] that fills [directorySizes]: the
    size of each directory entry is computed with [maxDepth = 1]. *)
Fixpoint directorySizes (fuel : nat) (entries : list FileEntry)
    (sizes : list (string * nat)) : result (list (string * nat)) :=
  match entries with
  | [] => Ok sizes
  | entry :: rest =>
      if isDirectory entry then
        bind (calculateDirectorySize fuel (path entry) (Some 1)) (λ dirSize,
          directorySizes fuel rest (mapSet sizes (path entry) dirSize))
      else directorySizes fuel rest sizes
  end.

(** [analyzeDiskUsage(dirPath, depth, groupByType)], [depth] being
    [None] when it is left at [Infinity]. *)
Definition analyzeDiskUsage (fuel : nat) (dirPath : string) (depth : option Z)
    (groupByType : bool) : result DiskUsageReport :=
  bind (validDirectory dirPath) (λ validPath,
    match scanDirectory fuel depth (segments validPath) O
            ([], if groupByType then Some [] else None) with
    | None => OutOfFuel
    | Some (entries, fileTypeMap) =>
        bind (directorySizes fuel entries []) (λ sizes,
          Ok {| reportPath := validPath;
                totalSize := (totals entries).1;
                fileCount := (totals entries).2;
                largestFiles :=
                  (λ e, (path e, size e))
                    <$> take 10 (sortDescending size
                                   (filter (λ e, isDirectory e = false) entries));
                largestDirectories := take 10 (sortDescending snd sizes);
                fileTypeBreakdown := fileTypeMap |})
    end).

End analyzer.
End DiskUsage.

(* ================================================================== *)
(** ** What a scan of a tree sees *)
(* ================================================================== *)

Module DiskUsageAux.
Import Fs DiskUsage.

Section vetted.
Context (cwd : string) (sm : Security.SecurityManager) (fs : node).

(** Every entry of the tree [n] found at path [p] bears a name a
    directory entry can have (no separator, not empty, not [.] or [..])
    and is let through by [validatePath] for reading. *)
Fixpoint vetted (p : Fs.path) (n : node) : bool :=
  match n with
  | File _ _ => true
  | Dir _ es =>
      map_fold (λ name c acc,
                  PathAux.kept name
                  && match validatePath cwd sm fs (render (p ++ [name]))
                             Security.Read with
                     | Ok _ => true
                     | _ => false
                     end
                  && vetted (p ++ [name]) c && acc)
               true es
  end.

(** The bytes of the regular files that are entries of the directory
    itself. *)
Definition directSize (n : node) : nat :=
  match n with
  | File _ _ => O
  | Dir _ es => map_fold (λ _ c acc, (sizeOf c + acc)%nat) O es
  end.

Definition sum (m : list (string * nat)) : nat :=
  foldr (λ kv acc, (kv.2 + acc)%nat) O m.

(** What the scan of a vetted tree records of a directory: its rendered
    path, which [validatePath] returns as it is. *)
Definition listed (e : FileEntry) : Prop :=
  isDirectory e = true →
  ∃ q t es, path e = render q
            ∧ Forall (λ s, PathAux.kept s = true) q
            ∧ get q fs = Some (Dir t es)
            ∧ vetted q (Dir t es) = true
            ∧ validatePath cwd sm fs (render q) Security.Read = Ok (render q).

(** A pair of [directorySizes]: a directory of the tree with the bytes
    of the files directly in it. *)
Definition sized (kv : string * nat) : Prop :=
  ∃ q t es, kv.1 = render q ∧ get q fs = Some (Dir t es)
            ∧ kv.2 = directSize (Dir t es).

(** The file type map, when there is one, accounts for the bytes of
    the files collected. *)
Definition balanced (st : scanState) : Prop :=
  match st.2 with
  | Some m => sum m = (totals st.1).1
  | None => True
  end.

End vetted.

(** A workspace with a project directory: two files at its top, the
    bulk of the bytes one level down. *)
Definition sources : gmap string node :=
  {[ "main.C" := File "int main() { return 0; }" 2;
     "util.c" := File "void f(void);" 2;
     "gen" := Dir 0 {[ "big.bin" := File "0123456789012345678901234567890123456789" 3 ]} ]}.

Definition projectFiles : gmap string node :=
  {[ "README.md" := File "read me" 1;
     "Makefile" := File "all:" 1;
     "src" := Dir 0 sources ]}.

Definition project : node :=
  DirOpsAux.wsWith {[ "proj" := Dir 0 projectFiles; "b" := File "B" 2 ]}.

End DiskUsageAux.
(* ================================================================== *)
(** ** Facts about the string and path primitives *)
(* ================================================================== *)

Section string_facts.
Import JsString.

Lemma startsWith_app s t : startsWith (s +:+ t) s = true.
Proof.
  unfold startsWith. induction s as [|c s IH]; simpl.
  - by destruct t.
  - destruct (ascii_dec c c); [exact IH | congruence].
Qed.

Lemma startsWith_inv s p : startsWith s p = true → ∃ t, s = p +:+ t.
Proof.
  unfold startsWith. revert s. induction p as [|c p IH]; intros s H.
  - by exists s.
  - destruct s as [|d s]; simpl in H; [done|].
    destruct (ascii_dec c d) as [->|]; [|done].
    destruct (IH _ H) as [t ->]. by exists t.
Qed.

Lemma eqb_eq a b : eqb a b = true ↔ a = b.
Proof. unfold eqb. by rewrite bool_decide_eq_true. Qed.

End string_facts.

Example resolve_relative :
  Path.resolve "/" ["/ws"; "a/b.txt"] = "/ws/a/b.txt".
Proof. reflexivity. Qed.

Example resolve_dotdot :
  Path.resolve "/" ["/ws"; "../etc/passwd"] = "/etc/passwd".
Proof. reflexivity. Qed.

Example resolve_absolute_arg :
  Path.resolve "/" ["/ws"; "/etc//x/./y/"] = "/etc/x/y".
Proof. reflexivity. Qed.

Example resolve_above_root :
  Path.resolve "/" ["/ws"; "../../.."] = "/".
Proof. reflexivity. Qed.

Example dirname_examples :
  Path.dirname "/ws/a/b.txt" = "/ws/a" ∧ Path.dirname "/ws" = "/"
  ∧ Path.dirname "/" = "/" ∧ Path.dirname "a" = "." ∧ Path.dirname "/a/b//" = "/a".
Proof. repeat split; reflexivity. Qed.


(* ================================================================== *)
(** ** SecurityManager: path validation *)
(* ================================================================== *)

Module SecurityFacts.
Import JsString Security SecurityAux.

Section facts.
Context (cwd : string) (fs : FsView) (sm : SecurityManager).

Lemma validatePath_step depth filePath op :
  validatePath cwd fs sm (S depth) filePath op =
  match firstRejection cwd sm filePath op with
  | Some v => Throws v
  | None =>
      if isLink cwd fs sm filePath then
        match validatePath cwd fs sm depth (linkTarget cwd fs sm filePath) op with
        | Returns _ => Returns (Path.resolve cwd [workspaceRoot sm; filePath])
        | Throws v => Throws v
        | Unfinished => Unfinished
        end
      else Returns (Path.resolve cwd [workspaceRoot sm; filePath])
  end.
Proof.
  unfold firstRejection, isLink, linkTarget, insideWorkspace.
  cbn [validatePath]. rewrite negb_orb.
  destruct (allowedSubdirectories sm) as [[|a allowed]|].
  all: repeat (match goal with |- context [if ?b then _ else _] =>
            lazymatch b with
            | context [if _ then _ else _] => fail
            | _ => destruct b eqn:?
            end
          end; cbn [negb andb orb]; try reflexivity).
Qed.

Lemma firstRejection_none_inside filePath op :
  firstRejection cwd sm filePath op = None →
  insideWorkspace (workspaceRoot sm)
    (Path.resolve cwd [workspaceRoot sm; filePath]) = true.
Proof.
  unfold firstRejection.
  destruct (insideWorkspace _ _); [done | discriminate].
Qed.

Lemma validatePath_returns_resolved depth filePath op r :
  validatePath cwd fs sm depth filePath op = Returns r →
  r = Path.resolve cwd [workspaceRoot sm; filePath]
  ∧ firstRejection cwd sm filePath op = None.
Proof.
  destruct depth as [|depth]; [discriminate|].
  rewrite validatePath_step.
  destruct (firstRejection cwd sm filePath op); [discriminate|].
  destruct (isLink cwd fs sm filePath).
  - destruct (validatePath cwd fs sm depth _ op); intros; simplify_eq; done.
  - intros; simplify_eq; done.
Qed.

End facts.

(** C1.  Whenever [validatePath] returns a path, that path is the
    workspace root itself or starts with the workspace root followed by
    the path separator; this holds for every manager, filesystem, input
    path and operation kind. *)
Theorem validatePath_confined cwd fs sm depth filePath op r :
  validatePath cwd fs sm depth filePath op = Returns r →
  r = workspaceRoot sm
  ∨ startsWith r (workspaceRoot sm +:+ Path.sep) = true.
Proof.
  intros H. apply validatePath_returns_resolved in H as [-> Hnone].
  apply firstRejection_none_inside in Hnone.
  unfold insideWorkspace in Hnone.
  apply orb_true_iff in Hnone as [Hpre | Heq].
  - by right.
  - left. by apply eqb_eq.
Qed.

Lemma validatePath_confined_witness :
  validatePath "/" noLinks wsManager 1 "src/main.ts" Read = Returns "/ws/src/main.ts"
  ∧ ("/ws/src/main.ts" = workspaceRoot wsManager
     ∨ startsWith "/ws/src/main.ts" (workspaceRoot wsManager +:+ Path.sep) = true).
Proof.
  split; [reflexivity|].
  apply (validatePath_confined "/" noLinks wsManager 1 "src/main.ts" Read).
  reflexivity.
Defined.

(** [validatePath] never reads the emergency flag. *)
Lemma validatePath_ignores_emergencyMode cwd fs sm b depth filePath op :
  validatePath cwd fs (setEmergencyMode b sm) depth filePath op
  = validatePath cwd fs sm depth filePath op.
Proof.
  revert filePath. induction depth as [|depth IH]; intros filePath; [done|].
  rewrite !validatePath_step, IH. reflexivity.
Qed.

(** C2.  After [emergencyStop()] the flag is set, and [validatePath] of
    [SecurityManager.ts] still vets paths as before: a read of
    [notes.txt] under [/ws] returns [/ws/notes.txt] instead of being
    rejected. *)
Theorem emergencyStop_not_enforced :
  isEmergencyMode (emergencyStop wsManager) = true
  ∧ validatePath "/" noLinks (emergencyStop wsManager) 1 "notes.txt" Read
    = Returns "/ws/notes.txt"
  ∧ validatePath "/" noLinks (emergencyStop wsManager) 1 "notes.txt" Delete
    = Returns "/ws/notes.txt".
Proof. repeat split; reflexivity. Qed.

(** Results do not depend on the depth allowance once a call finishes. *)
Lemma validatePath_depth_mono cwd fs sm depth depth' filePath op :
  (depth ≤ depth')%nat →
  validatePath cwd fs sm depth filePath op ≠ Unfinished →
  validatePath cwd fs sm depth' filePath op
  = validatePath cwd fs sm depth filePath op.
Proof.
  revert depth' filePath. induction depth as [|depth IH]; intros depth' filePath Hle Hfin.
  { done. }
  destruct depth' as [|depth']; [lia|].
  rewrite !validatePath_step in *.
  destruct (firstRejection cwd sm filePath op); [done|].
  destruct (isLink cwd fs sm filePath); [|done].
  rewrite (IH depth'); [done | lia |].
  intros Heq. rewrite Heq in Hfin. done.
Qed.

Lemma validatePath_never_symlink_escape cwd fs sm depth filePath op :
  validatePath cwd fs sm depth filePath op ≠ Throws SymlinkEscape.
Proof.
  revert filePath. induction depth as [|depth IH]; intros filePath; [done|].
  rewrite validatePath_step.
  destruct (firstRejection cwd sm filePath op) as [v|] eqn:Hv.
  - intros [= ->]. unfold firstRejection in Hv.
    repeat (match type of Hv with context [if ?b then _ else _] =>
              destruct b end; try discriminate).
  - destruct (isLink cwd fs sm filePath); [|done].
    specialize (IH (linkTarget cwd fs sm filePath)).
    destruct (validatePath cwd fs sm depth _ op); congruence.
Qed.

Lemma validatePath_finite_chain cwd fs sm n filePath op :
  isLink cwd fs sm (followLinks cwd fs sm n filePath) = false →
  validatePath cwd fs sm (S n) filePath op ≠ Unfinished.
Proof.
  revert filePath. induction n as [|n IH]; intros filePath Hend;
    rewrite validatePath_step;
    destruct (firstRejection cwd sm filePath op); try done.
  - simpl in Hend. by rewrite Hend.
  - destruct (isLink cwd fs sm filePath); [|done].
    specialize (IH _ Hend).
    destruct (validatePath cwd fs sm (S n) _ op); done.
Qed.

(** C4 (as amended).  [validatePath] carries no chain depth bound.  When
    the chain of link targets that layer 10 follows from the input reaches,
    after [n] hops, a path that is not an existing symbolic link, the call
    finishes within [n + 1] nested calls, for every [n], and a larger
    allowance gives the same result; no call rejects with the
    [symlink_escape] category. *)
Theorem validatePath_terminates_on_finite_chain cwd fs sm n filePath op :
  isLink cwd fs sm (followLinks cwd fs sm n filePath) = false →
  validatePath cwd fs sm (S n) filePath op ≠ Unfinished
  ∧ (∀ depth, (S n ≤ depth)%nat →
       validatePath cwd fs sm depth filePath op
       = validatePath cwd fs sm (S n) filePath op)
  ∧ (∀ depth, validatePath cwd fs sm depth filePath op ≠ Throws SymlinkEscape).
Proof.
  intros Hend. pose proof (validatePath_finite_chain _ _ _ _ _ op Hend) as Hfin.
  split; [done|]. split.
  - intros depth Hle. by apply validatePath_depth_mono.
  - intros depth. apply validatePath_never_symlink_escape.
Qed.

Lemma validatePath_terminates_on_finite_chain_witness :
  validatePath "/" (chainFs 3) wsManager 4 "chain/0" Read = Returns "/ws/chain/0"
  ∧ validatePath "/" (chainFs 3) wsManager 4 "chain/0" Read ≠ Unfinished.
Proof.
  split; [vm_compute; reflexivity|].
  apply (validatePath_terminates_on_finite_chain "/" (chainFs 3) wsManager 3
           "chain/0" Read).
  vm_compute; reflexivity.
Defined.

Lemma crossLinked_unfinished depth :
  validatePath "/" crossLinked wsManager depth "/ws/d/l" Read = Unfinished.
Proof.
  induction depth as [|depth IH]; [done|].
  rewrite validatePath_step.
  change (firstRejection "/" wsManager "/ws/d/l" Read) with (@None violation).
  change (isLink "/" crossLinked wsManager "/ws/d/l") with true.
  change (linkTarget "/" crossLinked wsManager "/ws/d/l") with "/ws/d/l".
  by rewrite IH.
Qed.

(** C4, counterexample.  On the cross-linked workspace no depth allowance
    lets [validatePath "d/l"] finish: the recursion returns to the same
    path and nothing stops it; and a chain of 41 links inside the workspace
    is accepted, not rejected as [symlink_escape]. *)
Lemma validatePath_unbounded_recursion :
  ¬ (∃ depth, validatePath "/" crossLinked wsManager depth "d/l" Read ≠ Unfinished)
  ∧ validatePath "/" (chainFs 41) wsManager 42 "chain/0" Read
    = Returns "/ws/chain/0".
Proof.
  split.
  - intros [depth H]. apply H. destruct depth as [|depth]; [done|].
    rewrite validatePath_step.
    change (firstRejection "/" wsManager "d/l" Read) with (@None violation).
    change (isLink "/" crossLinked wsManager "d/l") with true.
    change (linkTarget "/" crossLinked wsManager "d/l") with "/ws/d/l".
    by rewrite crossLinked_unfinished.
  - vm_compute. reflexivity.
Qed.

(** C5 (as amended).  Every input whose text contains [..], [./] or [.\]
    is rejected by the first call, before any later layer or the
    filesystem is consulted: with the [workspace_escape] category when its
    resolved path lies outside the workspace (layer 2 runs first), and
    with [path_traversal] otherwise. *)
Theorem traversal_input_rejected cwd fs sm depth filePath op :
  hasTraversal filePath = true →
  validatePath cwd fs sm (S depth) filePath op
  = Throws (if insideWorkspace (workspaceRoot sm)
                 (Path.resolve cwd [workspaceRoot sm; filePath])
            then PathTraversal else WorkspaceEscape).
Proof.
  intros Htrav. rewrite validatePath_step. unfold firstRejection.
  destruct (insideWorkspace _ _); simpl; [|done].
  by rewrite Htrav.
Qed.

Lemma traversal_input_rejected_witness :
  hasTraversal "a/b/../c" = true
  ∧ validatePath "/" noLinks wsManager 1 "a/b/../c" Read = Throws PathTraversal.
Proof.
  split; [reflexivity|].
  apply (traversal_input_rejected "/" noLinks wsManager 0 "a/b/../c" Read).
  reflexivity.
Defined.

(** C5, counterexample.  With workspace root [/ws], a read of
    [../etc/passwd] is rejected by the workspace boundary check, with the
    [workspace_escape] category, not [path_traversal]. *)
Lemma dotdot_escape_is_workspace_escape :
  hasTraversal "../etc/passwd" = true
  ∧ validatePath "/" noLinks wsManager 1 "../etc/passwd" Read = Throws WorkspaceEscape
  ∧ validatePath "/" noLinks wsManager 1 "../etc/passwd" Read ≠ Throws PathTraversal.
Proof. repeat split; [reflexivity..|discriminate]. Qed.

(** C6 (as amended).  For every manager, whatever its allow and block
    lists and read-only flag, an input whose resolved path starts with a
    hardcoded system path or matches a hardcoded sensitive pattern is
    rejected by the first call.  The category is that of the first layer
    that fires: [workspace_escape] if the resolved path is outside the
    workspace, else [path_traversal] if the input text has a traversal
    sequence, else [system_path_access] if a system prefix matches, else
    [sensitive_file_access]. *)
Theorem hardcoded_screens_reject cwd fs sm depth filePath op :
  let resolved := Path.resolve cwd [workspaceRoot sm; filePath] in
  existsb (startsWith resolved) SYSTEM_PATHS = true
  ∨ existsb (λ re, test re resolved) SENSITIVE_PATTERNS = true →
  validatePath cwd fs sm (S depth) filePath op
  = Throws (if negb (insideWorkspace (workspaceRoot sm) resolved) then WorkspaceEscape
            else if hasTraversal filePath then PathTraversal
            else if existsb (startsWith resolved) SYSTEM_PATHS then SystemPathAccess
            else SensitiveFileAccess).
Proof.
  intros resolved H. rewrite validatePath_step. unfold firstRejection.
  fold resolved.
  destruct (insideWorkspace _ resolved); cbn [negb]; [|done].
  destruct (hasTraversal filePath); [done|].
  destruct (existsb (startsWith resolved) SYSTEM_PATHS) eqn:Hsys; [done|].
  destruct H as [H|H]; [done|]. by rewrite H.
Qed.

(** A workspace placed under a hardcoded system prefix, with the user
    configuration trying to allow everything. *)
Lemma hardcoded_screens_reject_witness :
  validatePath "/" noLinks wsManager 1 "deploy/server.pem" Write
  = Throws SensitiveFileAccess
  ∧ validatePath "/" noLinks libraryManager 1 "notes.txt" Read
    = Throws SystemPathAccess.
Proof.
  split.
  - apply (hardcoded_screens_reject "/" noLinks wsManager 0 "deploy/server.pem" Write).
    right. reflexivity.
  - apply (hardcoded_screens_reject "/" noLinks libraryManager 0 "notes.txt" Read).
    left. reflexivity.
Defined.

(** C6, counterexample.  With workspace root [/ws], [/etc/passwd] resolves
    to a path under the system prefix [/etc] and [/home/u/.ssh/id_rsa] to a
    path matching two sensitive patterns, yet both are rejected as
    [workspace_escape]; and [conf/./PASSWORD.txt], whose resolved path
    [/ws/conf/PASSWORD.txt] matches [/password/i], as [path_traversal]. *)
Lemma hardcoded_match_other_category :
  (existsb (startsWith (Path.resolve "/" ["/ws"; "/etc/passwd"])) SYSTEM_PATHS = true
   ∧ validatePath "/" noLinks wsManager 1 "/etc/passwd" Read = Throws WorkspaceEscape)
  ∧ (existsb (λ re, test re (Path.resolve "/" ["/ws"; "/home/u/.ssh/id_rsa"]))
       SENSITIVE_PATTERNS = true
     ∧ validatePath "/" noLinks wsManager 1 "/home/u/.ssh/id_rsa" Read
       = Throws WorkspaceEscape)
  ∧ (existsb (λ re, test re (Path.resolve "/" ["/ws"; "conf/./PASSWORD.txt"]))
       SENSITIVE_PATTERNS = true
     ∧ validatePath "/" noLinks wsManager 1 "conf/./PASSWORD.txt" Read
       = Throws PathTraversal).
Proof. repeat split; reflexivity. Qed.

(* ================================================================== *)
(** ** SecurityManager: rate limiter *)
(* ================================================================== *)

Definition stored (sm : SecurityManager) (agentId : string) : list Z :=
  default [] (operationCount sm !! agentId).

Lemma recentOps_all now (l : list Z) :
  (∀ t, t ∈ l → now - t < 60000) → recentOps now l = l.
Proof.
  unfold recentOps. induction l as [|t l IH]; intros H; [done|].
  rewrite filter_cons_True by (apply H; left).
  f_equal. apply IH. intros t' Ht'. apply H. by right.
Qed.

Lemma checkRateLimit_returns sm agentId now sm' :
  checkRateLimit sm agentId now = (Returns tt, sm') →
  stored sm' agentId = recentOps now (stored sm agentId) ++ [now]
  ∧ Z.of_nat (length (recentOps now (stored sm agentId)))
    < maxOperationsPerMinute sm
  ∧ maxOperationsPerMinute sm' = maxOperationsPerMinute sm.
Proof.
  unfold checkRateLimit, stored.
  destruct (_ <=? _) eqn:Hle; [discriminate|].
  intros [= <-]. simpl. rewrite lookup_insert_eq. simpl.
  split; [done|]. split; [lia | done].
Qed.

(** Calls inside one window only ever add to what the window holds. *)
Lemma checkAll_keeps_window sm agentId times sm' kept window :
  checkAll sm agentId times = Some sm' →
  stored sm agentId = kept ++ window →
  (∀ t t', t ∈ window ++ times → t' ∈ times → t' - t < 60000) →
  ∃ kept', stored sm' agentId = kept' ++ window ++ times.
Proof.
  revert sm kept window.
  induction times as [|now rest IH]; intros sm kept window Hall Hst Hwin.
  - simpl in Hall. simplify_eq. exists kept. by rewrite app_nil_r.
  - simpl in Hall.
    destruct (checkRateLimit sm agentId now) as [[[]| |] sm1] eqn:Hchk;
      try discriminate.
    apply checkRateLimit_returns in Hchk as (Hst1 & _ & _).
    rewrite Hst in Hst1. unfold recentOps in Hst1.
    rewrite filter_app in Hst1.
    fold (recentOps now window) in Hst1.
    rewrite (recentOps_all now window) in Hst1.
    2:{ intros t Ht. apply Hwin; [apply elem_of_app; by left | left]. }
    rewrite <- app_assoc in Hst1.
    destruct (IH sm1 _ (window ++ [now]) Hall Hst1) as [kept' Hk].
    { intros t t' Ht Ht'. apply Hwin; [|by right].
      rewrite <- app_assoc in Ht. exact Ht. }
    exists kept'. by rewrite Hk, <- app_assoc.
Qed.

Lemma checkAll_bound sm agentId times sm' :
  checkAll sm agentId times = Some sm' →
  maxOperationsPerMinute sm' = maxOperationsPerMinute sm
  ∧ (times ≠ [] →
     Z.of_nat (length (stored sm' agentId)) ≤ maxOperationsPerMinute sm).
Proof.
  revert sm. induction times as [|now rest IH]; intros sm Hall.
  - simpl in Hall. by simplify_eq.
  - simpl in Hall.
    destruct (checkRateLimit sm agentId now) as [[[]| |] sm1] eqn:Hchk;
      try discriminate.
    apply checkRateLimit_returns in Hchk as (Hst1 & Hlt & Hmax).
    destruct (IH _ Hall) as [Hmax' Hlen]. split; [congruence|].
    intros _. destruct rest as [|t rest].
    + simpl in Hall. simplify_eq. rewrite Hst1, length_app. simpl. lia.
    + rewrite <- Hmax. by apply Hlen.
Qed.

(** C7.  After [maxOperationsPerMinute] successful [checkRateLimit] calls
    of one agent whose timestamps lie within one 60-second window, a
    further call at any time still inside that window is rejected with
    [rate_limit] (and changes nothing); and a call made more than 60
    seconds after one of the recorded calls, in particular after the
    oldest, succeeds again. *)
Theorem rate_limit_window sm agentId times sm' :
  checkAll sm agentId times = Some sm' →
  Z.of_nat (length times) = maxOperationsPerMinute sm →
  (∀ t t', t ∈ times → t' ∈ times → t' - t < 60000) →
  (∀ now, (∀ t, t ∈ times → now - t < 60000) →
     checkRateLimit sm' agentId now = (Throws RateLimit, sm'))
  ∧ (∀ now t0, t0 ∈ times → 60000 < now - t0 →
     fst (checkRateLimit sm' agentId now) = Returns tt).
Proof.
  intros Hall Hlen Hwin.
  destruct (checkAll_bound _ _ _ _ Hall) as [Hmax Hbound].
  destruct (checkAll_keeps_window sm agentId times sm' (stored sm agentId) []
              Hall) as [kept Hst].
  { by rewrite app_nil_r. }
  { intros t t' Ht Ht'. by apply Hwin. }
  simpl in Hst.
  assert (Hts : times ≠ [] → stored sm' agentId = times).
  { intros Hne. specialize (Hbound Hne).
    rewrite Hst, length_app in Hbound.
    destruct kept; [done | simpl in Hbound; lia]. }
  split.
  - intros now Hnow. unfold checkRateLimit. fold (stored sm' agentId).
    rewrite Hmax.
    destruct times as [|t times].
    + simpl in Hlen. rewrite <- Hlen.
      destruct (_ <=? _) eqn:Hle; [done | apply Z.leb_gt in Hle; lia].
    + rewrite Hts by done. rewrite recentOps_all by done.
      rewrite <- Hlen. by rewrite Z.leb_refl.
  - intros now t0 Ht0 Hold. unfold checkRateLimit. fold (stored sm' agentId).
    rewrite Hmax, Hts by (intros ->; by apply elem_of_nil in Ht0).
    pose proof (length_filter_lt (λ t, now - t < 60000) times t0 Ht0) as Hlt.
    unfold recentOps.
    destruct (_ <=? _) eqn:Hle; [|done].
    apply Z.leb_le in Hle. lia.
Qed.

Lemma rate_limit_window_witness :
  checkRateLimit (rateManager 2 {[ "agent" := [1000; 2000] ]}) "agent" 3000
  = (Throws RateLimit, rateManager 2 {[ "agent" := [1000; 2000] ]})
  ∧ fst (checkRateLimit (rateManager 2 {[ "agent" := [1000; 2000] ]}) "agent" 61001)
    = Returns tt.
Proof.
  pose proof (rate_limit_window (rateManager 2 ∅) "agent" [1000; 2000]
                (rateManager 2 {[ "agent" := [1000; 2000] ]})) as H.
  destruct H as [Hfull Hfree].
  - vm_compute. reflexivity.
  - reflexivity.
  - intros t t' Ht Ht'. set_unfold. lia.
  - split.
    + apply Hfull. intros t Ht. set_unfold. lia.
    + apply (Hfree 61001 1000); [set_unfold; tauto | lia].
Defined.

End SecurityFacts.

(* ================================================================== *)
(** ** DirectoryWatcher: sessions and event buffers *)
(* ================================================================== *)

Module WatcherFacts.
Import Watcher.

(** Every live session's event array is on the heap. *)
Definition buffersAllocated (w : DirectoryWatcher) : Prop :=
  ∀ sessionId session,
    sessions w !! sessionId = Some session → events session ∈ dom (arrays w).

Definition sameIds (w : DirectoryWatcher) : Prop :=
  dom (watchers w) = dom (sessions w).

Lemma newArray_fresh h : newArray h ∉ dom h.
Proof. unfold newArray. apply (is_fresh (dom h)). Qed.

Ltac watcher_cases :=
  repeat match goal with
         | |- context [bool_decide ?P] => destruct (bool_decide P) eqn:?
         | |- context [match ?x with _ => _ end] =>
             lazymatch x with
             | context [match _ with _ => _ end] => fail
             | _ => destruct x eqn:?
             end
         end; simpl.

Lemma buffersAllocated_step w w' :
  buffersAllocated w →
  dom (arrays w) ⊆ dom (arrays w') →
  (∀ sessionId session,
     sessions w' !! sessionId = Some session →
     sessions w !! sessionId = Some session
     ∨ events session ∈ dom (arrays w')) →
  buffersAllocated w'.
Proof.
  intros Hwf Hsub Hs sessionId session Hl.
  destruct (Hs _ _ Hl) as [Hold|Hnew]; [|done].
  apply Hsub. by eapply Hwf.
Qed.

Lemma perform_buffersAllocated minimatch c w :
  buffersAllocated w → buffersAllocated (perform minimatch c w).
Proof.
  intros Hwf. apply (buffersAllocated_step w); [done|..];
    destruct c; simpl;
    unfold watch, recordEvent, getEvents, clearEvents, stopWatch, stopAll;
    watcher_cases; rewrite ?dom_insert_L; try set_solver;
    intros sid session Hs;
    try (apply lookup_delete_Some in Hs as [_ Hs]);
    try (apply lookup_insert_Some in Hs as [[_ <-]|[_ Hs]]; simpl);
    try (apply lookup_delete_Some in Hs as [_ Hs]);
    try (apply lookup_insert_Some in Hs as [[_ <-]|[_ Hs]]; simpl);
    rewrite ?dom_insert_L; try (by left); try (right; set_solver).
Qed.

Lemma perform_sameIds minimatch c w : sameIds w → sameIds (perform minimatch c w).
Proof.
  unfold sameIds. intros Hdom.
  destruct c; simpl;
    unfold watch, recordEvent, getEvents, clearEvents, stopWatch, stopAll;
    watcher_cases; rewrite ?dom_delete_L, ?dom_insert_L, ?dom_empty_L;
    try done; try (by rewrite Hdom).
  (* clearEvents re-inserts an id that is already present *)
  rewrite Hdom.
  assert (sessionId ∈ dom (sessions w)) as Hin by (apply elem_of_dom; eauto).
  symmetry. apply subseteq_union_1_L. by apply singleton_subseteq_l.
Qed.

Lemma performAll_snoc minimatch cs c w :
  performAll minimatch (cs ++ [c]) w
  = perform minimatch c (performAll minimatch cs w).
Proof. unfold performAll. by rewrite foldl_app. Qed.

Lemma reachable_invariants minimatch cs :
  sameIds (performAll minimatch cs newDirectoryWatcher)
  ∧ buffersAllocated (performAll minimatch cs newDirectoryWatcher).
Proof.
  induction cs as [|c cs IH] using rev_ind.
  - split; [done|]. intros ?? Hs. simpl in Hs. by rewrite lookup_empty in Hs.
  - rewrite performAll_snoc. destruct IH as [Hids Hwf].
    split; [by apply perform_sameIds | by apply perform_buffersAllocated].
Qed.

Lemma getEvents_live w sessionId session :
  sessions w !! sessionId = Some session →
  getEvents sessionId w
  = (Ok (newArray (arrays w)),
     {| watchers := watchers w;
        sessions := sessions w;
        arrays := <[newArray (arrays w) :=
                      readArray (arrays w) (events session)]> (arrays w) |}).
Proof. intros Hs. unfold getEvents. by rewrite Hs. Qed.

Lemma readArray_insert_eq h a l : readArray (<[a := l]> h) a = l.
Proof. unfold readArray. by rewrite lookup_insert_eq. Qed.

Lemma readArray_insert_ne h a b l :
  a ≠ b → readArray (<[a := l]> h) b = readArray h b.
Proof. intros. unfold readArray. by rewrite lookup_insert_ne. Qed.

(** Repeated [getEvents] calls keep the session and its array. *)
Lemma getEvents_iter_keeps w sessionId session n :
  buffersAllocated w →
  sessions w !! sessionId = Some session →
  let w' := Nat.iter n (λ v, (getEvents sessionId v).2) w in
  buffersAllocated w'
  ∧ sessions w' = sessions w
  ∧ watchers w' = watchers w
  ∧ readArray (arrays w') (events session) = readArray (arrays w) (events session).
Proof.
  intros Hwf Hs. induction n as [|n IH]; simpl; [done|].
  destruct IH as (Hwf' & Hss & Hws & Harr).
  set (v := Nat.iter n (λ v, (getEvents sessionId v).2) w) in *.
  assert (sessions v !! sessionId = Some session) as Hsv by (by rewrite Hss).
  rewrite (getEvents_live _ _ _ Hsv). simpl.
  split; [|split; [done|split; [done|]]].
  - apply (perform_buffersAllocated (λ _ _, true) (CallGetEvents sessionId)) in Hwf'.
    simpl in Hwf'. by rewrite (getEvents_live _ _ _ Hsv) in Hwf'.
  - rewrite readArray_insert_ne; [done|].
    intros Heq. apply (newArray_fresh (arrays v)). rewrite Heq. by eapply Hwf'.
Qed.

(** C9.  In every state the watcher can reach, for a live session
    [getEvents] returns a newly allocated array holding the buffered
    events in their order and changes nothing else: the session table,
    the watchers and every existing array, the buffer included, are as
    before, so any number of calls return the same events, and events
    recorded afterwards do not show in an earlier snapshot.  No single
    call other than [clearEvents] of that session shortens the buffer of
    a session that stays live, while [clearEvents] leaves it empty.  For
    an unknown session id both calls throw the not-found
    [ValidationError] and change nothing. *)
Theorem getEvents_snapshot minimatch cs sessionId :
  let w := performAll minimatch cs newDirectoryWatcher in
  match sessions w !! sessionId with
  | Some session =>
      let buffered := readArray (arrays w) (events session) in
      (∃ copy w1,
          getEvents sessionId w = (Ok copy, w1)
          ∧ (copy ∉ dom (arrays w))
          ∧ readArray (arrays w1) copy = buffered
          ∧ sessions w1 = sessions w
          ∧ watchers w1 = watchers w
          ∧ (∀ a, a ∈ dom (arrays w) → arrays w1 !! a = arrays w !! a)
          ∧ (∀ ty filePath old now,
               readArray
                 (arrays (recordEvent minimatch sessionId ty filePath old now w1))
                 copy = buffered))
      ∧ (∀ n, ∃ copy wn,
            getEvents sessionId (Nat.iter n (λ v, (getEvents sessionId v).2) w)
            = (Ok copy, wn)
            ∧ readArray (arrays wn) copy = buffered
            ∧ readArray (arrays wn) (events session) = buffered)
      ∧ (∀ c session',
            c ≠ CallClearEvents sessionId →
            sessions (perform minimatch c w) !! sessionId = Some session' →
            buffered `prefix_of`
              (readArray (arrays (perform minimatch c w)) (events session')))
      ∧ (∃ w2 session2,
            clearEvents sessionId w = (Ok tt, w2)
            ∧ sessions w2 !! sessionId = Some session2
            ∧ readArray (arrays w2) (events session2) = [])
  | None =>
      getEvents sessionId w = (Throw (sessionNotFound sessionId), w)
      ∧ clearEvents sessionId w = (Throw (sessionNotFound sessionId), w)
  end.
Proof.
  intros w. destruct (reachable_invariants minimatch cs) as [_ Hwf].
  fold w in Hwf.
  destruct (sessions w !! sessionId) as [session|] eqn:Hs.
  2:{ unfold getEvents, clearEvents. by rewrite Hs. }
  assert (events session ∈ dom (arrays w)) as Hbuf by (by eapply Hwf).
  assert (newArray (arrays w) ≠ events session) as Hne.
  { intros Heq. apply (newArray_fresh (arrays w)). by rewrite Heq. }
  cbv zeta. split; [|split; [|split]].
  - eexists _, _. split; [by apply getEvents_live|]. simpl.
    split; [apply newArray_fresh|].
    split; [apply readArray_insert_eq|].
    split; [done|]. split; [done|]. split.
    + intros a Ha. apply lookup_insert_ne. intros <-.
      by apply (newArray_fresh (arrays w)).
    + intros ty filePath old now. unfold recordEvent. simpl. rewrite Hs.
      destruct (negb _); simpl; [apply readArray_insert_eq|].
      rewrite readArray_insert_ne by done. apply readArray_insert_eq.
  - intros n.
    destruct (getEvents_iter_keeps w sessionId session n Hwf Hs)
      as (Hwf' & Hss & _ & Harr).
    set (v := Nat.iter n _ w) in *.
    assert (sessions v !! sessionId = Some session) as Hsv by (by rewrite Hss).
    eexists _, _. split; [by apply getEvents_live|]. simpl.
    split; [by rewrite readArray_insert_eq|].
    rewrite readArray_insert_ne; [done|].
    intros Heq. apply (newArray_fresh (arrays v)). rewrite Heq. by eapply Hwf'.
  - intros c session' Hc.
    destruct c; simpl;
      unfold watch, recordEvent, getEvents, clearEvents, stopWatch, stopAll;
      watcher_cases; intros Hs';
      rewrite ?lookup_delete_Some, ?lookup_insert_Some, ?lookup_empty in Hs';
      try done;
      repeat match goal with
             | H : _ ∧ _ |- _ => destruct H
             | H : _ ∨ _ |- _ => destruct H
             end;
      simplify_eq; try done;
      try (rewrite Hs in *; simplify_eq);
      try match goal with
          | H : bool_decide (is_Some ?x) = false, H' : ?x = Some _ |- _ =>
              rewrite H' in H; by rewrite bool_decide_eq_false in H;
              exfalso; apply H; eauto
          end.
    all: try (rewrite readArray_insert_ne;
              [done | intros Heq; apply (newArray_fresh (arrays w));
                      rewrite Heq; by eapply Hwf]).
    all: match goal with
         | |- context [<[events ?x := _]> _] =>
             destruct (decide (events x = events session)) as [Heq|Hneq];
             [rewrite Heq, readArray_insert_eq; by apply prefix_app_r
             |by rewrite readArray_insert_ne]
         end.
  - unfold clearEvents. rewrite Hs. eexists _, _. split; [done|]. simpl.
    rewrite lookup_insert_eq. split; [done|]. simpl. apply readArray_insert_eq.
Qed.

(** C10.  After every sequence of calls, whatever the environment
    answered in them (failed start-ups, failing [close()]), the two maps
    hold the same session ids.  Hence after [stopWatch], also when
    closing the watcher failed, the id is in neither map and a new
    [watch] with it on an existing directory succeeds and registers it in
    both. *)
Theorem watcher_maps_agree minimatch cs sessionId close dirPath options :
  let w := performAll minimatch cs newDirectoryWatcher in
  let stopped := (stopWatch sessionId close w).2 in
  let again := watch sessionId dirPath options IsDirectory Ready None stopped in
  dom (watchers w) = dom (sessions w)
  ∧ dom (watchers stopped) = dom (sessions stopped)
  ∧ watchers stopped !! sessionId = None
  ∧ sessions stopped !! sessionId = None
  ∧ again.1 = Ok tt
  ∧ is_Some (watchers again.2 !! sessionId)
  ∧ is_Some (sessions again.2 !! sessionId).
Proof.
  intros w stopped again.
  destruct (reachable_invariants minimatch cs) as [Hids _]. fold w in Hids.
  assert (sameIds stopped) as Hids'.
  { apply (perform_sameIds minimatch (CallStopWatch sessionId close)), Hids. }
  assert (watchers stopped !! sessionId = None) as Hw.
  { subst stopped. unfold stopWatch.
    destruct (watchers w !! sessionId) eqn:Hl; [|done].
    destruct close; simpl; apply lookup_delete_eq. }
  assert (sessions stopped !! sessionId = None) as Hs.
  { apply not_elem_of_dom. rewrite <- Hids'. by apply not_elem_of_dom. }
  split; [done|]. split; [done|]. split; [done|]. split; [done|].
  subst again. unfold watch. rewrite Hs.
  rewrite bool_decide_eq_false_2 by (by intros [? ?]).
  simpl. rewrite !lookup_insert_eq. eauto.
Qed.

End WatcherFacts.

(* ================================================================== *)
(** ** Filesystem lemmas *)
(* ================================================================== *)

Module FsFacts.
Import Fs.

Lemma apart_sym p q : apart p q → apart q p.
Proof. intros [? ?]. by split. Qed.

Lemma apart_cons_ne s s' p q : s ≠ s' → apart (s :: p) (s' :: q).
Proof.
  intros Hne. split; intros [k Hk]; simpl in Hk; congruence.
Qed.

Lemma apart_cons_inv s p q : apart (s :: p) (s :: q) → apart p q.
Proof.
  intros [H1 H2]. split; intros Hpre.
  - apply H1. by apply prefix_cons.
  - apply H2. by apply prefix_cons.
Qed.

Lemma apart_app_l p q x : apart p q → apart (p ++ x) q.
Proof.
  intros [H1 H2]. split.
  - intros Hpre. apply H1. etrans; [|exact Hpre]. by apply prefix_app_r.
  - intros Hpre.
    destruct (prefix_weak_total p q (p ++ x)) as [?|?]; auto.
    by apply prefix_app_r.
Qed.

Lemma apart_app p q x y : apart p q → apart (p ++ x) (q ++ y).
Proof.
  intros H. apply apart_app_l. apply apart_sym. apply apart_app_l.
  by apply apart_sym.
Qed.

Lemma apart_siblings p s s' : s ≠ s' → apart (p ++ [s]) (p ++ [s']).
Proof.
  intros Hne. induction p as [|a p IH]; simpl.
  - by apply apart_cons_ne.
  - destruct IH as [H1 H2]. split; intros Hpre; apply prefix_cons_inv_2 in Hpre; auto.
Qed.

Lemma get_app p q n : get (p ++ q) n = get p n ≫= get q.
Proof.
  revert n. induction p as [|s p IH]; intros n; simpl; [done|].
  destruct n as [|t es]; [done|].
  destruct (es !! s) as [c|]; simpl; [apply IH | done].
Qed.

Lemma get_snoc_dir p s n t es :
  get p n = Some (Dir t es) → get (p ++ [s]) n = es !! s.
Proof.
  intros H. rewrite get_app, H. simpl. by destruct (es !! s).
Qed.

Lemma get_prefix_is_Some p q n :
  is_Some (get (p ++ q) n) → is_Some (get p n).
Proof.
  rewrite get_app. destruct (get p n); [eauto | by intros [? ?]].
Qed.

Lemma put_cons s p v t es :
  put (s :: p) v (Dir t es)
  = match p with
    | [] => Some (Dir t (<[s := v]> es))
    | _ => c ← es !! s; c' ← put p v c; Some (Dir t (<[s := c']> es))
    end.
Proof. by destruct p. Qed.

Lemma remove_cons s p t es :
  remove (s :: p) (Dir t es)
  = match p with
    | [] => _ ← es !! s; Some (Dir t (delete s es))
    | _ => c ← es !! s; c' ← remove p c; Some (Dir t (<[s := c']> es))
    end.
Proof. by destruct p. Qed.

Lemma mkdirp_cons s p now t es :
  mkdirp (s :: p) now (Dir t es)
  = bind (mkdirp p now (default (Dir now ∅) (es !! s)))
         (λ c, Ok (Dir t (<[s := c]> es))).
Proof. done. Qed.

Lemma get_cons s p t es : get (s :: p) (Dir t es) = es !! s ≫= get p.
Proof. done. Qed.

(** What a successful [put] did, one level down. *)
Lemma put_cons_inv s p v t es n' :
  put (s :: p) v (Dir t es) = Some n' →
  (p = [] ∧ n' = Dir t (<[s := v]> es))
  ∨ (p ≠ [] ∧ ∃ c c', es !! s = Some c ∧ put p v c = Some c'
                      ∧ n' = Dir t (<[s := c']> es)).
Proof.
  rewrite put_cons. destruct p as [|s' p].
  - intros [= <-]. by left.
  - destruct (es !! s) as [c|]; [|done]. cbn [mbind option_bind].
    destruct (put (s' :: p) v c) as [c'|] eqn:Hc; [|done].
    intros [= <-]. right. split; [done|]. by exists c, c'.
Qed.

Lemma put_get p v n n' : put p v n = Some n' → get p n' = Some v.
Proof.
  revert n n'. induction p as [|s p IH]; intros n n' H; [done|].
  destruct n as [|t es]; [done|].
  apply put_cons_inv in H as [[-> ->]|(Hne & c & c' & Hc & Hp & ->)];
    rewrite get_cons, lookup_insert_eq; [done|]. simpl. by eapply IH.
Qed.

Lemma put_frame p v n n' q :
  put p v n = Some n' → apart p q → get q n' = get q n.
Proof.
  revert n n' q. induction p as [|s p IH]; intros n n' q H Hap; [done|].
  destruct n as [|t es]; [done|].
  destruct q as [|s' q].
  { destruct Hap as [_ Hap]. exfalso. apply Hap. apply prefix_nil. }
  apply put_cons_inv in H as [[-> ->]|(_ & c & c' & Hc & Hp & ->)];
    rewrite !get_cons;
    (destruct (decide (s = s')) as [->|Hne]; [|by rewrite lookup_insert_ne]).
  - destruct Hap as [Hap _]. exfalso. apply Hap. by exists q.
  - rewrite lookup_insert_eq, Hc. simpl.
    eapply IH; [done|]. by eapply apart_cons_inv.
Qed.

(** Writing an entry keeps every directory above it in place. *)
Lemma put_keeps_prefix p x v n n' :
  put (p ++ x) v n = Some n' → is_Some (get p n) → is_Some (get p n').
Proof.
  revert n n' x. induction p as [|s p IH]; intros n n' x H Hex; [by eexists|].
  destruct n as [|t es]; [by destruct Hex|].
  rewrite get_cons in Hex.
  destruct (es !! s) as [c0|] eqn:Hc0; [|by destruct Hex]. simpl in Hex.
  change ((s :: p) ++ x) with (s :: (p ++ x)) in H.
  apply put_cons_inv in H as [[Hnil ->]|(_ & c & c' & Hc & Hp & ->)];
    rewrite get_cons, lookup_insert_eq; simpl.
  - apply app_eq_nil in Hnil as [-> ->]. by eexists.
  - simplify_eq. by eapply IH.
Qed.

Lemma mkdirp_frame p now n n' q :
  mkdirp p now n = Ok n' → apart p q → get q n' = get q n.
Proof.
  revert n n' q. induction p as [|s p IH]; intros n n' q H Hap.
  { destruct Hap as [Hap _]. exfalso. apply Hap, prefix_nil. }
  destruct n as [|t es]; [done|]. rewrite mkdirp_cons in H.
  destruct (mkdirp p now (default (Dir now ∅) (es !! s))) as [c| |] eqn:Hm;
    simpl in H; [|done..]. simplify_eq.
  destruct q as [|s' q].
  { destruct Hap as [_ Hap]. exfalso. apply Hap, prefix_nil. }
  rewrite !get_cons. destruct (decide (s = s')) as [->|Hne].
  - rewrite lookup_insert_eq. simpl.
    rewrite (IH _ _ q Hm) by (by eapply apart_cons_inv).
    destruct (es !! s') as [c0|] eqn:Hc; simpl; [done|].
    destruct q as [|s2 q]; [|by rewrite get_cons, lookup_empty].
    destruct Hap as [_ Hap]. exfalso. apply Hap. by exists p.
  - by rewrite lookup_insert_ne.
Qed.

Lemma mkdirp_exists p now n n' :
  mkdirp p now n = Ok n' → is_Some (get p n').
Proof.
  revert n n'. induction p as [|s p IH]; intros n n' H; [by eexists|].
  destruct n as [|t es]; [done|]. rewrite mkdirp_cons in H.
  destruct (mkdirp p now (default (Dir now ∅) (es !! s))) as [c| |] eqn:Hm;
    simpl in H; [|done..]. simplify_eq.
  rewrite get_cons, lookup_insert_eq. simpl. by eapply IH.
Qed.

Lemma remove_cons_inv s p t es n' :
  remove (s :: p) (Dir t es) = Some n' →
  (p = [] ∧ is_Some (es !! s) ∧ n' = Dir t (delete s es))
  ∨ (p ≠ [] ∧ ∃ c c', es !! s = Some c ∧ remove p c = Some c'
                      ∧ n' = Dir t (<[s := c']> es)).
Proof.
  rewrite remove_cons. destruct p as [|s' p].
  - destruct (es !! s) as [c|] eqn:Hc; [|done]. intros [= <-]. left. eauto.
  - destruct (es !! s) as [c|]; [|done]. cbn [mbind option_bind].
    destruct (remove (s' :: p) c) as [c'|] eqn:Hc; [|done].
    intros [= <-]. right. split; [done|]. by exists c, c'.
Qed.

Lemma remove_get p n n' : remove p n = Some n' → get p n' = None.
Proof.
  revert n n'. induction p as [|s p IH]; intros n n' H; [done|].
  destruct n as [|t es]; [done|].
  apply remove_cons_inv in H as [(-> & _ & ->)|(_ & c & c' & Hc & Hr & ->)];
    rewrite get_cons.
  - by rewrite lookup_delete_eq.
  - rewrite lookup_insert_eq. simpl. by eapply IH.
Qed.

Lemma remove_frame p n n' q :
  remove p n = Some n' → apart p q → get q n' = get q n.
Proof.
  revert n n' q. induction p as [|s p IH]; intros n n' q H Hap; [done|].
  destruct n as [|t es]; [done|].
  destruct q as [|s' q].
  { destruct Hap as [_ Hap]. exfalso. apply Hap. apply prefix_nil. }
  apply remove_cons_inv in H as [(-> & _ & ->)|(_ & c & c' & Hc & Hr & ->)];
    rewrite !get_cons;
    (destruct (decide (s = s')) as [->|Hne];
     [|by rewrite ?lookup_delete_ne, ?lookup_insert_ne]).
  - destruct Hap as [Hap _]. exfalso. apply Hap. by exists q.
  - rewrite lookup_insert_eq, Hc. simpl.
    eapply IH; [done|]. by eapply apart_cons_inv.
Qed.

(** Removing an entry that was just created gives the tree back. *)
Lemma remove_put_fresh p v n n' :
  get p n = None → put p v n = Some n' → remove p n' = Some n.
Proof.
  revert n n'. induction p as [|s p IH]; intros n n' Hnone H; [done|].
  destruct n as [|t es]; [done|]. rewrite get_cons in Hnone.
  apply put_cons_inv in H as [[-> ->]|(Hne & c & c' & Hc & Hp & ->)];
    rewrite remove_cons.
  - rewrite lookup_insert_eq. simpl.
    destruct (es !! s) eqn:Hs; [done|]. by rewrite delete_insert_id.
  - destruct p as [|s' p]; [done|].
    rewrite lookup_insert_eq. cbn [mbind option_bind].
    rewrite Hc in Hnone. simpl in Hnone.
    rewrite (IH _ _ Hnone Hp). cbn [mbind option_bind].
    by rewrite insert_insert_eq, insert_id.
Qed.

(** Putting back the entry that was just removed gives the tree back. *)
Lemma put_remove_restore p v n n' :
  get p n = Some v → remove p n = Some n' → put p v n' = Some n.
Proof.
  revert n n'. induction p as [|s p IH]; intros n n' Hv H; [done|].
  destruct n as [|t es]; [done|]. rewrite get_cons in Hv.
  apply remove_cons_inv in H as [(-> & _ & ->)|(Hne & c & c' & Hc & Hr & ->)];
    rewrite put_cons.
  - destruct (es !! s) as [c|] eqn:Hs; [|done]. simpl in Hv. simplify_eq.
    by rewrite insert_delete_id.
  - destruct p as [|s' p]; [done|].
    rewrite lookup_insert_eq. cbn [mbind option_bind].
    rewrite Hc in Hv. simpl in Hv.
    rewrite (IH _ _ Hv Hr). cbn [mbind option_bind].
    by rewrite insert_insert_eq, insert_id.
Qed.

(** A rename onto a name that did not exist is undone by the rename
    back. *)
Lemma renameSync_fresh_back a b fs fs' :
  renameSync a b fs = Ok fs' →
  get b fs = None →
  apart a b
  ∧ get a fs' = None
  ∧ get b fs' = get a fs
  ∧ renameSync b a fs' = Ok fs.
Proof.
  unfold renameSync. intros H Hb.
  destruct (get a fs) as [v|] eqn:Ha; [|done].
  destruct (decide (a = b)) as [->|Hne]; [congruence|].
  rewrite bool_decide_eq_false_2 in H by done.
  destruct (decide (a `prefix_of` b)) as [Hpre|Hpre].
  { by rewrite bool_decide_eq_true_2 in H. }
  rewrite bool_decide_eq_false_2 in H by done.
  rewrite Hb in H.
  replace (match v with
           | File _ _ => None
           | Dir _ _ => None
           end) with (@None errno) in H by (by destruct v).
  destruct (remove a fs) as [fs1|] eqn:Hr; [|done]. cbn [mbind option_bind] in H.
  destruct (put b v fs1) as [fs2|] eqn:Hp; [|done]. simplify_eq.
  assert (apart a b) as Hap.
  { split; [done|]. intros [k Hk]. subst a.
    rewrite get_app, Hb in Ha. done. }
  assert (get a fs' = None) as Ha'.
  { rewrite (put_frame _ _ _ _ _ Hp (apart_sym _ _ Hap)). by eapply remove_get. }
  assert (get b fs1 = None) as Hb1.
  { by rewrite (remove_frame _ _ _ _ Hr Hap). }
  split; [done|]. split; [done|].
  split; [by rewrite (put_get _ _ _ _ Hp)|].
  rewrite (put_get _ _ _ _ Hp).
  rewrite bool_decide_eq_false_2 by done.
  rewrite bool_decide_eq_false_2 by (by destruct Hap).
  rewrite Ha'.
  replace (match v with
           | File _ _ => None
           | Dir _ _ => None
           end) with (@None errno) by (by destruct v).
  rewrite (remove_put_fresh _ _ _ _ Hb1 Hp). cbn [mbind option_bind].
  by rewrite (put_remove_restore _ _ _ _ Ha Hr).
Qed.

Lemma parent_cons s p : p ≠ [] → parent (s :: p) = s :: parent p.
Proof. unfold parent. by destruct p. Qed.

(** Creating a directory whose parent exists adds one empty entry. *)
Lemma mkdirp_fresh p now n n' :
  p ≠ [] → get p n = None → is_Some (get (parent p) n) →
  mkdirp p now n = Ok n' → put p (Dir now ∅) n = Some n'.
Proof.
  revert n n'. induction p as [|s p IH]; intros n n' Hne Hnone Hpar Hmk; [done|].
  destruct n as [|t es]; [done|].
  rewrite mkdirp_cons in Hmk. rewrite get_cons in Hnone. rewrite put_cons.
  destruct p as [|s' p].
  - destruct (es !! s) as [c|] eqn:Hc; [done|]. simpl in Hmk. by simplify_eq.
  - rewrite parent_cons, get_cons in Hpar by done.
    destruct (es !! s) as [c|] eqn:Hc; [|by destruct Hpar].
    cbn [mbind option_bind default from_option id] in *.
    destruct (mkdirp (s' :: p) now c) as [c'| |] eqn:Hm; try done.
    cbn [bind] in Hmk. simplify_eq.
    assert (s' :: p ≠ []) as Hne' by done.
    by rewrite (IH c c' Hne' Hnone Hpar Hm).
Qed.

(** Writing an entry inside a directory that was itself just written is
    one write of the enlarged directory. *)
Lemma put_graft p name v' tv m n n1 n2 :
  put p (Dir tv m) n = Some n1 →
  put (p ++ [name]) v' n1 = Some n2 →
  put p (Dir tv (<[name := v']> m)) n = Some n2.
Proof.
  revert n n1 n2. induction p as [|s p IH]; intros n n1 n2 H1 H2; [done|].
  destruct n as [|t es]; [done|].
  apply put_cons_inv in H1 as [[-> ->]|(Hne & c & c1 & Hc & Hp & ->)].
  - change (([s]) ++ [name]) with (s :: [name]) in H2.
    apply put_cons_inv in H2 as [[? _]|(_ & c & c' & Hc & Hp & ->)]; [done|].
    rewrite lookup_insert_eq in Hc. simplify_eq.
    rewrite put_cons in Hp. simplify_eq.
    rewrite put_cons. by rewrite insert_insert_eq.
  - change ((s :: p) ++ [name]) with (s :: (p ++ [name])) in H2.
    apply put_cons_inv in H2 as [[Hnil _]|(_ & c2 & c' & Hc2 & Hp2 & ->)].
    { by destruct p. }
    rewrite lookup_insert_eq in Hc2. simplify_eq.
    rewrite put_cons. destruct p as [|s' p]; [done|].
    rewrite Hc. cbn [mbind option_bind].
    rewrite (IH _ _ _ Hp Hp2). cbn [mbind option_bind].
    by rewrite insert_insert_eq.
Qed.

End FsFacts.

(* ================================================================== *)
(** ** syncDirectory run twice *)
(* ================================================================== *)

Module DirOpsFacts.
Import Fs FsFacts DirOps DirOpsAux.

Example sync_plain_first :
  ∃ fs1,
    syncDirectory steadyClock [] "/" SecurityAux.wsManager 5 "src" "dst" (plainTree, O)
    = Ok ({| filesCopied := 1; filesSkipped := 0; bytesTransferred := 5 |}, (fs1, 2%nat))
    ∧ get ["ws"; "dst"; "a.txt"] fs1 = Some (File "hello" 1001).
Proof. eexists. split; vm_compute; reflexivity. Qed.

Section sync_facts.
Context (clock : nat → Z) (exclusionPatterns : list Security.RegExp).

Abbreviation recursiveSync := (recursiveSync clock exclusionPatterns).
Abbreviation syncEntries := (syncEntries clock exclusionPatterns).
Abbreviation synced := (synced exclusionPatterns).
Abbreviation entrySynced := (entrySynced exclusionPatterns).

Lemma syncEntries_noop fuel source destination fs k t es l acc :
  (∀ src dst, synced fuel src dst fs → ∀ k, ∃ r,
      recursiveSync fuel src dst (fs, k) = Ok (r, (fs, k))
      ∧ copiesNothing noFiles r) →
  get source fs = Some (Dir t es) →
  (∀ name entry, (name, entry) ∈ l → es !! name = Some entry) →
  (∀ name entry, es !! name = Some entry →
     entrySynced (synced fuel) source destination fs name entry) →
  ∃ r, syncEntries (recursiveSync fuel) source destination l acc (fs, k)
       = Ok (r, (fs, k))
       ∧ copiesNothing acc r.
Proof.
  intros IH Hsrc Hl Hsync. revert acc.
  induction l as [|[name entry] l IHl]; intros acc.
  { simpl. by eexists. }
  assert (es !! name = Some entry) as Hentry by (apply Hl; left).
  assert (∀ name entry, (name, entry) ∈ l → es !! name = Some entry) as Hl'.
  { intros ?? Hin. apply Hl. by right. }
  specialize (IHl Hl').
  cbn [DirOps.syncEntries].
  destruct (shouldExclude _ _) eqn:Hex; [by apply IHl|].
  pose proof (Hsync name entry Hentry Hex) as Hok.
  destruct entry as [c tm|tm sub]; cbn [isDirectory].
  - unfold statSync. cbn [fst snd].
    rewrite (get_snoc_dir _ _ _ _ _ Hsrc), Hentry. cbn [bind].
    destruct Hok as (d & Hd & Hle). rewrite Hd. cbn [mtimeOf].
    rewrite bool_decide_eq_true_2 by done.
    destruct (IHl (addResult acc {| filesCopied := 0; filesSkipped := 1;
                                    bytesTransferred := 0 |}))
      as (r & Hr & Hc1 & Hc2).
    exists r. split; [done|]. unfold copiesNothing in *. simpl in *. lia.
  - destruct (IH _ _ Hok k) as (r0 & Hr0 & Hc01 & Hc02).
    rewrite Hr0. cbn [bind].
    destruct (IHl (addResult acc r0)) as (r & Hr & Hc1 & Hc2).
    exists r. split; [done|]. unfold copiesNothing in *. simpl in *. lia.
Qed.

Lemma synced_sync_noop fuel source destination fs :
  synced fuel source destination fs → ∀ k, ∃ r,
    recursiveSync fuel source destination (fs, k) = Ok (r, (fs, k))
    ∧ copiesNothing noFiles r.
Proof.
  revert source destination.
  induction fuel as [|fuel IH]; intros source destination Hs k; [done|].
  destruct Hs as (Hdst & t & es & Hsrc & Hentries).
  cbn [DirOps.recursiveSync]. unfold existsSync. cbn [fst snd].
  rewrite bool_decide_eq_true_2 by done. cbn [bind].
  unfold readdirSync. cbn [fst]. rewrite Hsrc. cbn [bind].
  eapply syncEntries_noop; eauto.
  intros name entry Hin. by apply elem_of_map_to_list.
Qed.

Lemma synced_ext fuel source destination fs1 fs2 :
  get source fs1 = get source fs2 →
  get destination fs1 = get destination fs2 →
  synced fuel source destination fs1 → synced fuel source destination fs2.
Proof.
  revert source destination.
  induction fuel as [|fuel IH]; intros source destination Hsrc Hdst; [done|].
  intros (Hex & t & es & Hs & Hentries).
  split; [by rewrite <- Hdst|]. exists t, es. split; [by rewrite <- Hsrc|].
  intros name entry Hentry Hnot.
  specialize (Hentries name entry Hentry Hnot).
  destruct entry as [c tm|tm sub].
  - by rewrite get_app, <- Hdst, <- get_app.
  - eapply IH; [| |exact Hentries]; by rewrite !get_app, ?Hsrc, ?Hdst.
Qed.

Lemma mtimesNotAhead_mono k k' n :
  (k ≤ k')%nat → mtimesNotAhead clock k n → mtimesNotAhead clock k' n.
Proof. intros Hle H q c t j Hq Hj. eapply H; [done|lia]. Qed.

Lemma mtimesNotAhead_entry k t es name entry :
  es !! name = Some entry →
  mtimesNotAhead clock k (Dir t es) → mtimesNotAhead clock k entry.
Proof.
  intros Hentry H q c tm j Hq Hj. apply (H (name :: q) c tm j); [|done].
  by rewrite get_cons, Hentry.
Qed.

Abbreviation establishes := (establishes clock exclusionPatterns).

Lemma syncEntries_establishes fuel source destination t es l :
  establishes fuel →
  apart source destination →
  NoDup l.*1 →
  (∀ name entry, (name, entry) ∈ l → es !! name = Some entry) →
  ∀ acc w r w',
    get source w.1 = Some (Dir t es) →
    mtimesNotAhead clock w.2 (Dir t es) →
    is_Some (get destination w.1) →
    syncEntries (recursiveSync fuel) source destination l acc w = Ok (r, w') →
    (∀ q, (∀ name, name ∈ l.*1 → apart (destination ++ [name]) q) →
          get q w'.1 = get q w.1)
    ∧ is_Some (get destination w'.1)
    ∧ (w.2 ≤ w'.2)%nat
    ∧ ∀ name entry, (name, entry) ∈ l →
        entrySynced (synced fuel) source destination w'.1 name entry.
Proof.
  intros IH Hap. induction l as [|[name entry] l IHl]; intros Hnd Hl acc w r w'
    Hsrc Hmt Hdst Hrun.
  { simpl in Hrun. simplify_eq. repeat split; [done..|].
    intros ?? Hin. by apply elem_of_nil in Hin. }
  assert (es !! name = Some entry) as Hentry by (apply Hl; left).
  apply NoDup_cons in Hnd as [Hfresh Hnd].
  assert (∀ name entry, (name, entry) ∈ l → es !! name = Some entry) as Hl'.
  { intros ?? Hin. apply Hl. by right. }
  specialize (IHl Hnd Hl').
  assert (Hsrc_apart : ∀ name', apart (destination ++ [name']) source).
  { intros name'. apply apart_app_l. by apply apart_sym. }
  (* what processing the head entry does, as one step to [wm] *)
  assert (∃ accm wm,
    syncEntries (recursiveSync fuel) source destination l accm wm = Ok (r, w')
    ∧ (∀ q, apart (destination ++ [name]) q → get q wm.1 = get q w.1)
    ∧ is_Some (get destination wm.1)
    ∧ (w.2 ≤ wm.2)%nat
    ∧ entrySynced (synced fuel) source destination wm.1 name entry)
    as (accm & wm & Hrest & Hframe & Hdstm & Hk & Hhead).
  { cbn [DirOps.syncEntries] in Hrun.
    destruct (shouldExclude _ _) eqn:Hex.
    { exists acc, w. repeat split; try done. intros Hno. congruence. }
    destruct entry as [c tm|tm sub]; cbn [isDirectory] in Hrun.
    - unfold statSync in Hrun.
      rewrite (get_snoc_dir _ _ _ _ _ Hsrc), Hentry in Hrun. cbn [bind] in Hrun.
      destruct (match get (destination ++ [name]) w.1 with
                | Some destStats =>
                    bool_decide (mtimeOf (File c tm) ≤ mtimeOf destStats)
                | None => false
                end) eqn:Hskip.
      + eexists _, w. split; [exact Hrun|]. repeat split; try done.
        intros _. destruct (get (destination ++ [name]) w.1) as [d|]; [|done].
        exists d. split; [done|]. by apply bool_decide_eq_true in Hskip.
      + unfold copyFileSync in Hrun.
        rewrite (get_snoc_dir _ _ _ _ _ Hsrc), Hentry in Hrun.
        rewrite bool_decide_eq_false_2 in Hrun.
        2:{ intros Heq. apply app_inj_tail in Heq as [-> _].
            by destruct Hap as [Hap _]. }
        destruct (get (destination ++ [name]) w.1) as [[c' tm'|tm' sub']|] eqn:Hd;
          try done.
        * destruct (put _ _ _) as [fs'|] eqn:Hput; [|done]. cbn [bind] in Hrun.
          eexists _, (fs', S w.2). split; [exact Hrun|]. cbn [fst snd].
          split; [intros q Hq; by eapply put_frame|].
          split; [by eapply put_keeps_prefix|]. split; [lia|].
          intros _. eexists. split; [by eapply put_get|]. cbn [mtimeOf].
          apply (Hmt [name] c tm); [by rewrite get_cons, Hentry|done].
        * destruct (put _ _ _) as [fs'|] eqn:Hput; [|done]. cbn [bind] in Hrun.
          eexists _, (fs', S w.2). split; [exact Hrun|]. cbn [fst snd].
          split; [intros q Hq; by eapply put_frame|].
          split; [by eapply put_keeps_prefix|]. split; [lia|].
          intros _. eexists. split; [by eapply put_get|]. cbn [mtimeOf].
          apply (Hmt [name] c tm); [by rewrite get_cons, Hentry|done].
    - destruct (recursiveSync fuel (source ++ [name]) (destination ++ [name]) w)
        as [[r0 wm]| |] eqn:Hrec; try done. cbn [bind] in Hrun.
      destruct (IH _ _ _ _ _ (apart_app _ _ [name] [name] Hap) ltac:(
                  intros s Hs; rewrite (get_snoc_dir _ _ _ _ _ Hsrc), Hentry in Hs;
                  simplify_eq; by eapply mtimesNotAhead_entry) Hrec)
        as (Hsy & Hfr & Hk).
      eexists _, wm. split; [exact Hrun|]. split; [done|].
      split; [|split; [done|by intros _]].
      destruct fuel as [|fuel']; [done|]. destruct Hsy as [Hsome _].
      by eapply get_prefix_is_Some. }
  assert (get source wm.1 = Some (Dir t es)) as Hsrcm.
  { rewrite Hframe; [done|]. apply Hsrc_apart. }
  destruct (IHl accm wm r w' Hsrcm
              (mtimesNotAhead_mono _ _ _ Hk Hmt) Hdstm Hrest)
    as (Hframe' & Hdst' & Hk' & Hall).
  split.
  { intros q Hq. rewrite Hframe'.
    - apply Hframe. apply Hq. left.
    - intros name' Hin. apply Hq. by right. }
  split; [done|]. split; [lia|].
  intros name' entry' Hin.
  apply elem_of_cons in Hin as [[= -> ->]|Hin]; [|by apply Hall].
  assert (∀ x, get (destination ++ [name] ++ x) w'.1
               = get (destination ++ [name] ++ x) wm.1) as Hd'.
  { intros x. apply Hframe'. intros name' Hin'. rewrite app_assoc.
    apply apart_sym, apart_app_l, apart_siblings. intros ->. done. }
  assert (get (source ++ [name]) w'.1 = get (source ++ [name]) wm.1) as Hs'.
  { apply Hframe'. intros name' Hin'. apply apart_sym, apart_app, Hap. }
  intros Hnot. specialize (Hhead Hnot).
  destruct entry as [c tm|tm sub].
  - destruct Hhead as (d & Hd & Hle). exists d. split; [|done].
    specialize (Hd' []). rewrite app_nil_r in Hd'. by rewrite Hd'.
  - eapply synced_ext; [| |exact Hhead]; [done|].
    specialize (Hd' []). rewrite app_nil_r in Hd'. done.
Qed.

Lemma recursiveSync_establishes fuel : establishes fuel.
Proof.
  induction fuel as [|fuel IH];
    intros source destination w r w' Hap Hmt Hrun; [done|].
  cbn [DirOps.recursiveSync] in Hrun.
  assert (∃ w1,
    bind (readdirSync source w1.1) (λ entries,
      syncEntries (recursiveSync fuel) source destination entries noFiles w1)
    = Ok (r, w')
    ∧ (∀ q, apart destination q → get q w1.1 = get q w.1)
    ∧ is_Some (get destination w1.1)
    ∧ (w.2 ≤ w1.2)%nat) as (w1 & Hrun1 & Hframe1 & Hdst1 & Hk1).
  { destruct (existsSync destination w.1) eqn:Hex.
    - exists w. cbn [bind] in Hrun. repeat split; try done.
      by apply bool_decide_eq_true in Hex.
    - destruct (mkdirp destination (clock w.2) w.1) as [fs'| |] eqn:Hmk;
        try done. cbn [bind] in Hrun.
      exists (fs', S w.2). split; [done|]. cbn [fst snd].
      split; [intros q Hq; by eapply mkdirp_frame|].
      split; [by eapply mkdirp_exists | lia]. }
  clear Hrun. unfold readdirSync in Hrun1.
  assert (get source w1.1 = get source w.1) as Hsrc1.
  { apply Hframe1. by apply apart_sym. }
  destruct (get source w1.1) as [[c tm|t es]|] eqn:Hsrc; try done.
  cbn [bind] in Hrun1.
  destruct (syncEntries_establishes fuel source destination t es (map_to_list es)
              IH Hap (NoDup_fst_map_to_list es)
              ltac:(intros ?? Hin; by apply elem_of_map_to_list)
              noFiles w1 r w' Hsrc
              (mtimesNotAhead_mono _ _ _ Hk1 (Hmt _ (eq_sym Hsrc1))) Hdst1 Hrun1)
    as (Hframe & Hdst & Hk & Hall).
  assert (∀ q, apart destination q → get q w'.1 = get q w1.1) as Hframe'.
  { intros q Hq. apply Hframe. intros name _. by apply apart_app_l. }
  split; [|split; [|lia]].
  - split; [done|]. exists t, es. split.
    + rewrite Hframe'; [done | by apply apart_sym].
    + intros name entry Hentry. apply Hall. by apply elem_of_map_to_list.
  - intros q Hq. rewrite Hframe' by done. by apply Hframe1.
Qed.

End sync_facts.

(** On a tree without symbolic links the vetting of a path does not
    look at the tree. *)
Lemma validatePath_any_tree cwd sm fs fs' p op :
  Fs.validatePath cwd sm fs p op = Fs.validatePath cwd sm fs' p op.
Proof.
  unfold Fs.validatePath. rewrite !SecurityFacts.validatePath_step.
  unfold SecurityAux.isLink. simpl. by rewrite !andb_false_r.
Qed.

Lemma validatePath_Ok cwd sm fs p op r :
  Fs.validatePath cwd sm fs p op = Ok r →
  r = Path.resolve cwd [Security.workspaceRoot sm; p].
Proof.
  unfold Fs.validatePath.
  destruct (Security.validatePath _ _ _ _ _ _) eqn:Hv; intros; simplify_eq.
  by apply SecurityFacts.validatePath_returns_resolved in Hv as [-> _].
Qed.

(** C8 (as amended).  When the validated source and destination
    directories do not contain one another, and no file below the source
    carries a modification time later than the clock readings the first
    call stamps its copies with, a second [syncDirectory] right after a
    first one that returned also returns, leaves the filesystem as it is
    and reports [filesCopied = 0] (and no bytes transferred). *)
Theorem syncDirectory_twice clock exclusionPatterns cwd sm fuel
    source destination fs k r1 fs1 k1 :
  let validatedSource :=
    segments (Path.resolve cwd [Security.workspaceRoot sm; source]) in
  let validatedDest :=
    segments (Path.resolve cwd [Security.workspaceRoot sm; destination]) in
  apart validatedSource validatedDest →
  (∀ s, get validatedSource fs = Some s → mtimesNotAhead clock k s) →
  syncDirectory clock exclusionPatterns cwd sm fuel source destination (fs, k)
  = Ok (r1, (fs1, k1)) →
  ∃ r2,
    syncDirectory clock exclusionPatterns cwd sm fuel source destination (fs1, k1)
    = Ok (r2, (fs1, k1))
    ∧ filesCopied r2 = 0%nat
    ∧ bytesTransferred r2 = 0%nat.
Proof.
  intros validatedSource validatedDest Hap Hmt Hrun.
  unfold syncDirectory in *. cbn [fst snd] in *.
  rewrite (validatePath_any_tree cwd sm fs1 fs source).
  rewrite (validatePath_any_tree cwd sm fs1 fs destination).
  destruct (Fs.validatePath cwd sm fs source Security.Read) as [vs| |] eqn:Hvs;
    try done. cbn [bind] in *.
  destruct (Fs.validatePath cwd sm fs destination Security.Write) as [vd| |] eqn:Hvd;
    try done. cbn [bind] in *.
  apply validatePath_Ok in Hvs as ->. apply validatePath_Ok in Hvd as ->.
  fold validatedSource validatedDest in Hrun |- *.
  destruct (get validatedSource fs) as [[c tm|t es]|] eqn:Hsrc; try done.
  rewrite <- Hsrc in Hmt.
  destruct (recursiveSync_establishes clock exclusionPatterns fuel
              validatedSource validatedDest (fs, k) r1 (fs1, k1) Hap Hmt Hrun)
    as (Hsynced & Hframe & _).
  cbn [fst snd] in *.
  rewrite (Hframe validatedSource) by (by apply apart_sym). rewrite Hsrc.
  destruct (synced_sync_noop clock exclusionPatterns fuel validatedSource
              validatedDest fs1 Hsynced k1) as (r2 & Hr2 & Hc & Hb).
  exists r2. split; [done|]. by split.
Qed.

Lemma syncDirectory_twice_witness :
  syncDirectory steadyClock [] "/" SecurityAux.wsManager 5 "src" "dst" (plainTree, O)
  = Ok ({| filesCopied := 1; filesSkipped := 0; bytesTransferred := 5 |},
        (plainTreeSynced, 2%nat))
  ∧ ∃ r2,
      syncDirectory steadyClock [] "/" SecurityAux.wsManager 5 "src" "dst"
        (plainTreeSynced, 2%nat)
      = Ok (r2, (plainTreeSynced, 2%nat))
      ∧ filesCopied r2 = 0%nat
      ∧ bytesTransferred r2 = 0%nat.
Proof.
  assert (syncDirectory steadyClock [] "/" SecurityAux.wsManager 5 "src" "dst"
            (plainTree, O)
          = Ok ({| filesCopied := 1; filesSkipped := 0; bytesTransferred := 5 |},
                (plainTreeSynced, 2%nat))) as Hrun
    by (vm_compute; reflexivity).
  split; [exact Hrun|].
  pose proof (syncDirectory_twice steadyClock [] "/" SecurityAux.wsManager 5
                "src" "dst" plainTree O
                {| filesCopied := 1; filesSkipped := 0; bytesTransferred := 5 |}
                plainTreeSynced 2%nat) as Htwice.
  cbv zeta in Htwice. apply Htwice.
  - split; intros [x Hx]; vm_compute in Hx; discriminate.
  - clear Hrun Htwice. intros s Hs q c t j Hq Hj.
    assert (get (segments (Path.resolve "/"
                   [Security.workspaceRoot SecurityAux.wsManager; "src"])) plainTree
            = Some (Dir 0 {[ "a.txt" := File "hello" 500 ]})) as Hsrc
      by (vm_compute; reflexivity).
    rewrite Hsrc in Hs. simplify_eq.
    destruct q as [|name q]; [done|]. rewrite FsFacts.get_cons in Hq.
    destruct (decide (name = "a.txt")) as [->|Hne].
    + rewrite lookup_singleton_eq in Hq. destruct q; [|done]. simpl in Hq.
      simplify_eq. unfold steadyClock. lia.
    + rewrite lookup_singleton_ne in Hq by done. done.
  - exact Hrun.
Defined.

(** C8, counterexample.  (1) [/ws/src/a.txt] carries a modification
    time (5000) later than the clock: the first sync copies it and stamps
    the copy 1001, so the copy is older than the source, which is left
    untouched, and the second sync copies it again.  (2) Syncing
    [/ws/a/b] into [/ws/a], which contains it: the first sync puts [f]
    into the source directory and the second sync copies that file. *)
Lemma sync_twice_copies_again :
  (syncDirectory steadyClock [] "/" SecurityAux.wsManager 5 "src" "dst" (aheadTree, O)
   = Ok ({| filesCopied := 1; filesSkipped := 0; bytesTransferred := 5 |},
         (aheadTreeSynced, 2%nat))
   ∧ get ["ws"; "src"] aheadTreeSynced = get ["ws"; "src"] aheadTree
   ∧ syncDirectory steadyClock [] "/" SecurityAux.wsManager 5 "src" "dst"
       (aheadTreeSynced, 2%nat)
     = Ok ({| filesCopied := 1; filesSkipped := 0; bytesTransferred := 5 |},
           (aheadTreeSyncedTwice, 3%nat)))
  ∧ (syncDirectory steadyClock [] "/" SecurityAux.wsManager 6 "a/b" "a" (nestedTree, O)
     = Ok ({| filesCopied := 1; filesSkipped := 0; bytesTransferred := 1 |},
           (nestedTreeSynced, 1%nat))
     ∧ syncDirectory steadyClock [] "/" SecurityAux.wsManager 6 "a/b" "a"
         (nestedTreeSynced, 1%nat)
       = Ok ({| filesCopied := 1; filesSkipped := 1; bytesTransferred := 1 |},
             (nestedTreeSyncedTwice, 2%nat))).
Proof.
  split; [split; [|split]|split]; vm_compute; reflexivity.
Qed.

End DirOpsFacts.

(* ================================================================== *)
(** ** executeBatch: atomic failure and rollback *)
(* ================================================================== *)

Module BatchFacts.
Import Fs FsFacts Batch BatchAux.

Section batch_facts.
Context (clock : nat → Z) (cwd : string) (sm : Security.SecurityManager).

Abbreviation validatePath := (Batch.validatePath cwd sm).
Abbreviation resolved := (resolved cwd sm).
Abbreviation firstRejection := (SecurityAux.firstRejection cwd sm).

Lemma validatePath_eq p op w :
  validatePath p op w
  = match firstRejection p op with
    | Some v => (Err (SecurityError v), w)
    | None => (Ok (resolved p), w)
    end.
Proof.
  unfold Batch.validatePath, Fs.validatePath.
  rewrite SecurityFacts.validatePath_step.
  destruct (firstRejection p op); [done|].
  unfold SecurityAux.isLink. simpl. by rewrite andb_false_r.
Qed.

Lemma firstRejection_mutation p op0 op :
  firstRejection p op0 = None → Security.isMutation op0 = true →
  firstRejection p op = None.
Proof.
  unfold SecurityAux.firstRejection. intros H Hm.
  repeat match type of H with
         | context [if ?b then _ else _] =>
             lazymatch b with
             | context [Security.isMutation] => fail
             | _ => destruct b; [discriminate|]
             end
         end.
  rewrite Hm in H. destruct (Security.readOnly sm); [discriminate|]. done.
Qed.


Abbreviation executeOperation := (executeOperation clock cwd sm).
Abbreviation rollbackSingleOperation := (rollbackSingleOperation cwd sm).

Ltac run_validate H :=
  rewrite validatePath_eq in H;
  let Hv := fresh "Hv" in
  destruct (firstRejection _ _) eqn:Hv in H; [discriminate|].

Ltac unfold_M :=
  repeat (progress unfold mbindM, ret, throw, when, exists_, stat, change,
            stamped, dateNow, needDestination in * );
  cbv beta iota in *; cbn [fst snd] in *.

Lemma firstRejection_not_readOnly p op0 :
  firstRejection p op0 = None → Security.isMutation op0 = true →
  Security.readOnly sm = false.
Proof.
  unfold SecurityAux.firstRejection. intros H Hm.
  repeat match type of H with
         | context [if ?b then _ else _] =>
             lazymatch b with
             | context [Security.isMutation] => fail
             | _ => destruct b; [discriminate|]
             end
         end.
  rewrite Hm in H. by destruct (Security.readOnly sm).
Qed.

Lemma firstRejection_any_kind p op0 op :
  Security.readOnly sm = false →
  firstRejection p op0 = None → firstRejection p op = None.
Proof.
  unfold SecurityAux.firstRejection. intros Hro H.
  repeat match type of H with
         | context [if ?b then _ else _] =>
             lazymatch b with
             | context [Security.isMutation] => fail
             | _ => destruct b; [discriminate|]
             end
         end.
  by rewrite Hro.
Qed.

Tactic Notation "reduce_M" := cbv beta iota; cbn [fst snd].
Tactic Notation "reduce_M" "in" hyp(H) := cbv beta iota in H; cbn [fst snd] in H.

Lemma executeDelete_restore fuel op fs k rb fs1 k1 :
  type op = DeleteOp →
  executeOperation fuel op (fs, k) = (Ok rb, (fs1, k1)) →
  restorableAt clock cwd sm op (fs, k) →
  ∀ k', rollbackSingleOperation
          {| operation := op; backupPath := rb.1; wasCreated := rb.2 |} (fs1, k')
        = (Ok tt, (fs, k')).
Proof.
  intros Hty Hrun Hfresh k'. unfold restorableAt in Hfresh.
  rewrite Hty in Hfresh. cbn [fst snd] in Hfresh.
  unfold Batch.executeOperation, sourceKind, mbindM in Hrun. rewrite Hty in Hrun.
  run_validate Hrun.
  unfold executeDelete in Hrun. unfold_M.
  destruct (renameSync _ _ fs) as [fs'| |] eqn:Hren; try discriminate.
  simplify_eq. cbn [fst snd].
  destruct (renameSync_fresh_back _ _ _ _ Hren Hfresh) as (Hap & Hsrc & Hbk & Hback).
  unfold Batch.rollbackSingleOperation. cbn [operation backupPath]. rewrite Hty.
  unfold_M. unfold existsSync.
  rewrite Hbk.
  assert (is_Some (get (resolved (source op)) fs)) as Hsome.
  { unfold renameSync in Hren. destruct (get (resolved (source op)) fs); [eauto|done]. }
  rewrite bool_decide_eq_true_2 by done.
  rewrite validatePath_eq.
  rewrite (firstRejection_mutation _ _ Security.Write Hv eq_refl).
  reduce_M. by rewrite Hback.
Qed.

Lemma truthy_Some d : d ≠ "" → truthy (Some d) = true.
Proof. intros. unfold truthy. by rewrite bool_decide_eq_false_2. Qed.

Lemma executeMove_restore fuel op fs k rb fs1 k1 :
  type op = Move →
  executeOperation fuel op (fs, k) = (Ok rb, (fs1, k1)) →
  restorableAt clock cwd sm op (fs, k) →
  ∀ k', rollbackSingleOperation
          {| operation := op; backupPath := rb.1; wasCreated := rb.2 |} (fs1, k')
        = (Ok tt, (fs, k')).
Proof.
  intros Hty Hrun Hres k'. unfold restorableAt in Hres.
  rewrite Hty in Hres. cbn [fst snd] in Hres.
  destruct Hres as (d & Hd & Hne & Hfresh & Hparent).
  unfold Batch.executeOperation, sourceKind, mbindM in Hrun. rewrite Hty in Hrun.
  run_validate Hrun.
  unfold executeMove in Hrun. rewrite Hd in Hrun. unfold_M. reduce_M in Hrun. 
  run_validate Hrun. reduce_M in Hrun.
  unfold existsSync in Hrun. rewrite Hfresh in Hrun.
  rewrite bool_decide_eq_false_2 in Hrun by (by intros [? ?]).
  rewrite bool_decide_eq_true_2 in Hrun by done. reduce_M in Hrun.
  cbn [negb] in Hrun. reduce_M in Hrun.
  destruct (renameSync _ _ fs) as [fs'| |] eqn:Hren; try discriminate.
  simplify_eq. cbn [fst snd].
  destruct (renameSync_fresh_back _ _ _ _ Hren Hfresh) as (Hap & Hsrc & Hbk & Hback).
  assert (is_Some (get (resolved (source op)) fs)) as Hsome.
  { unfold renameSync in Hren. destruct (get (resolved (source op)) fs); [eauto|done]. }
  pose proof (firstRejection_not_readOnly _ _ Hv0 eq_refl) as Hro.
  unfold Batch.rollbackSingleOperation. cbn [operation backupPath]. rewrite Hty, Hd.
  rewrite truthy_Some by done. unfold_M. cbn [default from_option id].
  rewrite !validatePath_eq.
  rewrite (firstRejection_any_kind _ _ Security.Read Hro Hv0). reduce_M.
  rewrite validatePath_eq.
  rewrite (firstRejection_any_kind _ _ Security.Write Hro Hv). reduce_M.
  unfold existsSync. rewrite Hbk.
  rewrite bool_decide_eq_true_2 by done. reduce_M. by rewrite Hback.
Qed.

Lemma parent_snoc (p : path) name : parent (p ++ [name]) = p.
Proof. unfold parent. apply removelast_last. Qed.

Abbreviation copiesTree := (copiesTree clock).

Lemma copyEntries_fresh fuel src dst fs t es tv l :
  copiesTree fuel →
  apart src dst → dst ≠ [] →
  get src fs = Some (Dir t es) →
  NoDup l.*1 →
  (∀ name entry, (name, entry) ∈ l → es !! name = Some entry) →
  ∀ m fsi ki fs1 k1,
    put dst (Dir tv m) fs = Some fsi →
    (∀ name, name ∈ l.*1 → m !! name = None) →
    copyEntries clock (copyDirectory clock fuel) src dst l (fsi, ki)
    = (Ok tt, (fs1, k1)) →
    ∃ m', put dst (Dir tv m') fs = Some fs1.
Proof.
  intros IH Hap Hne Hsrc. induction l as [|[name entry] l IHl];
    intros Hnd Hl m fsi ki fs1 k1 Hput Hfree Hrun.
  { cbn [copyEntries] in Hrun. unfold ret in Hrun. simplify_eq. by exists m. }
  apply NoDup_cons in Hnd as [Hfresh Hnd].
  assert (es !! name = Some entry) as Hentry by (apply Hl; left).
  assert (get src fsi = Some (Dir t es)) as Hsrci.
  { by rewrite (put_frame _ _ _ _ _ Hput (apart_sym _ _ Hap)). }
  assert (get (dst ++ [name]) fsi = None) as Hnone.
  { rewrite (get_snoc_dir _ _ _ _ _ (put_get _ _ _ _ Hput)). apply Hfree. left. }
  cbn [copyEntries] in Hrun. unfold mbindM in Hrun.
  assert (∃ v fsj kj,
    put (dst ++ [name]) v fsi = Some fsj
    ∧ copyEntries clock (copyDirectory clock fuel) src dst l (fsj, kj)
      = (Ok tt, (fs1, k1))) as (v & fsj & kj & Hputj & Hrest).
  { destruct entry as [c tm|tm sub]; cbn [isDirectory] in Hrun.
    - unfold stamped, copyFileSync in Hrun. cbn [fst snd] in Hrun.
      rewrite (get_snoc_dir _ _ _ _ _ Hsrci), Hentry, Hnone in Hrun.
      rewrite bool_decide_eq_false_2 in Hrun.
      2:{ intros Heq. apply app_inj_tail in Heq as [-> _]. by destruct Hap. }
      destruct (put _ _ fsi) as [fsj|] eqn:Hputj; [|done].
      eexists _, fsj, _. split; [exact Hputj|exact Hrun].
    - destruct (copyDirectory clock fuel _ _ (fsi, ki)) as [[[]| |] [fsj kj]] eqn:Hrec;
        try done.
      destruct (IH _ _ _ _ _ _ Hrec) as (v & _ & Hputj).
      + by apply apart_app.
      + by destruct dst.
      + done.
      + rewrite parent_snoc, (put_get _ _ _ _ Hput). eauto.
      + exists v, fsj, kj. split; [done|exact Hrun]. }
  apply (IHl Hnd) with (m := <[name := v]> m) (fsi := fsj) (ki := kj) (k1 := k1).
  - intros ?? Hin. apply Hl. by right.
  - exact (put_graft _ _ _ _ _ _ _ _ Hput Hputj).
  - intros name' Hin. rewrite lookup_insert_ne; [apply Hfree; by right|].
    intros ->. done.
  - exact Hrest.
Qed.

Lemma copyDirectory_fresh fuel : copiesTree fuel.
Proof.
  induction fuel as [|fuel IH];
    intros src dst fs k fs1 k1 Hrun Hap Hne Hnone Hpar; [done|].
  cbn [copyDirectory] in Hrun. unfold mbindM, exists_, when in Hrun.
  cbn [fst snd] in Hrun. unfold existsSync in Hrun. rewrite Hnone in Hrun.
  rewrite bool_decide_eq_false_2 in Hrun by (by intros [? ?]).
  cbn [negb] in Hrun. unfold stamped in Hrun. cbn [fst snd] in Hrun.
  destruct (mkdirp dst (clock k) fs) as [fsa| |] eqn:Hmk; try done.
  apply mkdirp_fresh in Hmk; [|done..].
  unfold readdir, readdirSync in Hrun. cbn [fst snd] in Hrun.
  rewrite (put_frame _ _ _ _ _ Hmk (apart_sym _ _ Hap)) in Hrun.
  destruct (get src fs) as [[c tm|t es]|] eqn:Hsrc; try done.
  destruct (copyEntries_fresh fuel src dst fs t es (clock k) (map_to_list es)
              IH Hap Hne Hsrc (NoDup_fst_map_to_list es)
              ltac:(intros ?? Hin; by apply elem_of_map_to_list)
              ∅ fsa (S k) fs1 k1 Hmk ltac:(intros; apply lookup_empty) Hrun)
    as [m' Hm'].
  by exists (Dir (clock k) m').
Qed.

Lemma executeCopy_restore fuel op fs k rb fs1 k1 :
  type op = Copy →
  executeOperation fuel op (fs, k) = (Ok rb, (fs1, k1)) →
  restorableAt clock cwd sm op (fs, k) →
  ∀ k', rollbackSingleOperation
          {| operation := op; backupPath := rb.1; wasCreated := rb.2 |} (fs1, k')
        = (Ok tt, (fs, k')).
Proof.
  intros Hty Hrun Hres k'. unfold restorableAt in Hres.
  rewrite Hty in Hres. cbn [fst snd] in Hres.
  destruct Hres as (d & Hd & Hne & Hfresh & Hparent & Hinside).
  unfold Batch.executeOperation, sourceKind, mbindM in Hrun. rewrite Hty in Hrun.
  run_validate Hrun.
  unfold executeCopy in Hrun. rewrite Hd in Hrun. unfold_M. reduce_M in Hrun.
  run_validate Hrun. reduce_M in Hrun.
  unfold existsSync, statSync in Hrun.
  destruct (get (resolved (source op)) fs) as [v|] eqn:Hsrc.
  2:{ rewrite bool_decide_eq_false_2 in Hrun by (by intros [? ?]). done. }
  rewrite bool_decide_eq_true_2 in Hrun by eauto.
  cbn [negb] in Hrun. reduce_M in Hrun. rewrite Hfresh in Hrun.
  rewrite (bool_decide_eq_false_2 (is_Some (@None node))) in Hrun
    by (by intros [? ?]).
  rewrite (bool_decide_eq_true_2 (is_Some (get (parent (resolved d)) fs))) in Hrun
    by done.
  reduce_M in Hrun. cbn [negb] in Hrun. reduce_M in Hrun. rewrite ?Hsrc in Hrun.
  reduce_M in Hrun.
  assert (apart (resolved (source op)) (resolved d)) as Hap.
  { split; [done|]. intros [x Hx]. rewrite Hx, get_app, Hfresh in Hsrc. done. }
  assert (∃ v', put (resolved d) v' fs = Some fs1 ∧ rb = (None, Some true))
    as (v' & Hput & ->).
  { destruct (isDirectory v) eqn:Hdir; reduce_M in Hrun.
    - destruct (copyDirectory clock fuel _ _ (fs, k)) as [[[]| |] [fs' k2]] eqn:Hcp;
        try done.
      reduce_M in Hrun. simplify_eq.
      destruct (copyDirectory_fresh fuel _ _ _ _ _ _ Hcp Hap) as (v' & _ & Hput);
        [|done..|by exists v'].
      intros Hnil. rewrite Hnil in Hfresh. done.
    - destruct v as [c t|]; [|done].
      unfold copyFileSync in Hrun. rewrite Hsrc, Hfresh in Hrun.
      rewrite bool_decide_eq_false_2 in Hrun by congruence.
      destruct (put _ _ fs) as [fs'|] eqn:Hput; try discriminate.
      reduce_M in Hrun. simplify_eq. by eexists. }
  cbn [fst snd].
  unfold Batch.rollbackSingleOperation. cbn [operation wasCreated]. rewrite Hty, Hd.
  rewrite truthy_Some by done. cbn [default from_option id andb negb]. unfold_M.
  rewrite validatePath_eq.
  rewrite (firstRejection_mutation _ _ Security.Delete Hv0 eq_refl). reduce_M.
  unfold removeIfExists. unfold_M. unfold existsSync, statSync.
  rewrite (put_get _ _ _ _ Hput).
  rewrite bool_decide_eq_true_2 by eauto. reduce_M.
  unfold unlinkSync, rmSync, isDirectory.
  destruct v' as [c t|t es]; reduce_M;
    repeat (rewrite (put_get _ _ _ _ Hput); reduce_M);
    by rewrite (remove_put_fresh _ _ _ _ Hfresh Hput).
Qed.

Lemma executeOperation_restore fuel op fs k rb fs1 k1 :
  executeOperation fuel op (fs, k) = (Ok rb, (fs1, k1)) →
  restorableAt clock cwd sm op (fs, k) →
  ∀ k', rollbackSingleOperation
          {| operation := op; backupPath := rb.1; wasCreated := rb.2 |} (fs1, k')
        = (Ok tt, (fs, k')).
Proof.
  destruct (type op) eqn:Hty.
  - by apply executeCopy_restore.
  - by apply executeMove_restore.
  - by apply executeDelete_restore.
Qed.

Lemma rollbackOperations_snoc infos info w :
  rollbackOperations cwd sm (infos ++ [info]) w
  = rollbackOperations cwd sm infos (rollbackSingleOperation info w).2.
Proof. unfold rollbackOperations. by rewrite rev_unit. Qed.

Lemma atomic_step fuel op w :
  (when (negb true) (validateSingleOperation cwd sm fuel op) ;;;
   executeOperation fuel op) w
  = executeOperation fuel op w.
Proof.
  unfold when, mbindM, ret. cbn [negb].
  by destruct (executeOperation fuel op w) as [[?| |] ?].
Qed.

Lemma executeEach_restores fuel ops results infos w e w' fs0 :
  (∀ k, rollbackOperations cwd sm infos (w.1, k) = (fs0, k)) →
  restorableRun clock cwd sm fuel ops w →
  executeEach clock cwd sm fuel true ops results infos w = BatchThrew e w' →
  w'.1 = fs0.
Proof.
  revert results infos w.
  induction ops as [|op ops IH]; intros results infos w Hinv Hres Hrun; [done|].
  cbn [executeEach] in Hrun. rewrite atomic_step in Hrun.
  cbn [restorableRun] in Hres.
  destruct (executeOperation fuel op w) as [[rb| |] w1] eqn:Hop; [| |done].
  - destruct Hres as [Hat Hrest]. destruct w as [fs k], w1 as [fs1 k1].
    eapply IH; [|exact Hrest|exact Hrun].
    intros k'. cbn [fst snd]. rewrite rollbackOperations_snoc.
    rewrite (executeOperation_restore fuel op fs k rb fs1 k1 Hop Hat k').
    apply Hinv.
  - simplify_eq. destruct w1 as [fs1 k1]. cbn [fst snd] in *. subst fs1.
    by rewrite Hinv.
Qed.

Lemma readOnlyM_bind {A B} (m : M A) (k : A → M B) :
  readOnlyM m → (∀ a, readOnlyM (k a)) → readOnlyM (mbindM m k).
Proof.
  intros Hm Hk w. unfold mbindM. specialize (Hm w).
  destruct (m w) as [[a| |] w1]; cbn [snd] in *; subst; [apply Hk|done..].
Qed.

Lemma readOnlyM_validatePath p op : readOnlyM (validatePath p op).
Proof. intros w. rewrite validatePath_eq. by destruct (firstRejection p op). Qed.

Lemma readOnlyM_validateFileSize n : readOnlyM (validateFileSize sm n).
Proof.
  intros w. unfold validateFileSize.
  by destruct (Security.validateFileSize sm (Z.of_nat n)).
Qed.

Lemma readOnlyM_calculateDirectorySize fuel p :
  readOnlyM (calculateDirectorySize fuel p).
Proof.
  revert p. induction fuel as [|fuel IH]; intros p; [done|].
  cbn [calculateDirectorySize]. apply readOnlyM_bind; [done|].
  intros entries. generalize O.
  induction entries as [|[name entry] entries IHe]; intros total; [done|].
  destruct (isDirectory entry).
  - apply readOnlyM_bind; [apply IH|]. intros size. apply IHe.
  - apply readOnlyM_bind; [done|]. intros stats. apply IHe.
Qed.

Lemma readOnlyM_validateEach fuel ops total :
  readOnlyM (validateEach cwd sm fuel ops total).
Proof.
  revert total. induction ops as [|op ops IH]; intros total; [done|].
  cbn [validateEach].
  apply readOnlyM_bind; [apply readOnlyM_validatePath|]. intros vs.
  apply readOnlyM_bind.
  { destruct (negb _); [|done].
    apply readOnlyM_bind; [done|]. intros present.
    destruct (negb present); [done|].
    apply readOnlyM_bind; [done|]. intros stats.
    destruct (isDirectory stats).
    - apply readOnlyM_bind; [apply readOnlyM_calculateDirectorySize|]. done.
    - apply readOnlyM_bind; [apply readOnlyM_validateFileSize|]. done. }
  intros total'. apply readOnlyM_bind; [|intros; apply IH].
  destruct (truthy _).
  - apply readOnlyM_bind; [apply readOnlyM_validatePath|]. done.
  - by destruct (negb _).
Qed.

Lemma readOnlyM_validateAllOperations fuel ops :
  readOnlyM (validateAllOperations cwd sm fuel ops).
Proof.
  unfold validateAllOperations.
  apply readOnlyM_bind; [apply readOnlyM_validateEach|].
  intros total w. unfold validateBatchSize.
  by destruct (Security.validateBatchSize sm _ _).
Qed.

End batch_facts.

(** C3 (as amended).  When an atomic [executeBatch] throws, and along
    the run every operation that had executed was a delete whose shadow
    name was unused, or a copy or a move onto a destination that did not
    exist, in an existing directory (a copy's destination not lying
    inside its source), and the attempt that failed had not itself
    changed the tree, then the reverse-order rollback leaves the
    filesystem tree exactly as it was before the batch; in particular
    what every operation's source and destination paths hold is what they
    held before. *)
Theorem atomic_rollback_restores clock cwd sm fuel ops w e w' :
  executeBatch clock cwd sm fuel ops true w = BatchThrew e w' →
  restorableRun clock cwd sm fuel ops w →
  w'.1 = w.1
  ∧ ∀ op, op ∈ ops →
      get (resolved cwd sm (source op)) w'.1 = get (resolved cwd sm (source op)) w.1
      ∧ ∀ d, destination op = Some d →
          get (resolved cwd sm d) w'.1 = get (resolved cwd sm d) w.1.
Proof.
  intros Hrun Hres.
  assert (w'.1 = w.1) as Heq; [|by rewrite Heq].
  unfold executeBatch in Hrun. unfold when in Hrun.
  pose proof (readOnlyM_validateAllOperations cwd sm fuel ops w) as Hro.
  destruct (validateAllOperations cwd sm fuel ops w) as [[[]| |] w1];
    cbn [snd] in Hro; subst w1; [| |done].
  - eapply (executeEach_restores clock cwd sm); [|exact Hres|exact Hrun]. done.
  - by simplify_eq.
Qed.

Lemma atomic_rollback_restores_witness :
  executeBatch batchClock "/" SecurityAux.wsManager 5
    [copyOp "a" "c"; deleteOp "b"; moveOp "b" "d"] true (twoFiles, O)
  = BatchThrew
      (FileSystemError
         "Batch operation failed atomically: ENOENT: no such file or directory")
      (twoFiles, 2%nat)
  ∧ (twoFiles, 2%nat).1 = (twoFiles, O).1.
Proof.
  assert (executeBatch batchClock "/" SecurityAux.wsManager 5
            [copyOp "a" "c"; deleteOp "b"; moveOp "b" "d"] true (twoFiles, O)
          = BatchThrew
              (FileSystemError
                 "Batch operation failed atomically: ENOENT: no such file or directory")
              (twoFiles, 2%nat)) as Hrun by (vm_compute; reflexivity).
  split; [exact Hrun|].
  refine (proj1 (atomic_rollback_restores batchClock "/" SecurityAux.wsManager 5
                   [copyOp "a" "c"; deleteOp "b"; moveOp "b" "d"]
                   (twoFiles, O) _ (twoFiles, 2%nat) Hrun _)).
  clear Hrun. cbn [restorableRun].
  assert (executeOperation batchClock "/" SecurityAux.wsManager 5
            (copyOp "a" "c") (twoFiles, O)
          = (Ok (None, Some true), (twoFilesCopied, 1%nat))) as ->
    by (vm_compute; reflexivity).
  split.
  { exists "c". split; [done|]. split; [done|].
    split; [vm_compute; reflexivity|]. split; [vm_compute; eauto|].
    intros [x Hx]. vm_compute in Hx. discriminate. }
  assert (executeOperation batchClock "/" SecurityAux.wsManager 5
            (deleteOp "b") (twoFilesCopied, 1%nat)
          = (Ok (Some ["ws"; "b.backup-1700000000001"], None),
             (twoFilesDeleted, 2%nat))) as ->
    by (vm_compute; reflexivity).
  split; [vm_compute; reflexivity|].
  assert (executeOperation batchClock "/" SecurityAux.wsManager 5
            (moveOp "b" "d") (twoFilesDeleted, 2%nat)
          = (Err (SystemError ENOENT), (twoFilesDeleted, 2%nat))) as ->
    by (vm_compute; reflexivity).
  reflexivity.
Defined.

(** A directory copied to a new name, then a delete, then a delete of the
    same, now missing, file: the rollback removes the copied directory and
    puts the deleted file back. *)
Example rollback_removes_copied_directory :
  worldAfter
    (executeBatch batchClock "/" SecurityAux.wsManager 5
       [copyOp "pkg" "pkg2"; deleteOp "b"; deleteOp "b"] true (withPackage, O))
  = Some (withPackage, 6%nat).
Proof. vm_compute. reflexivity. Qed.

(** C3, counterexample.  [copy a -> b] onto an existing [b], then
    [delete a], then a copy of the now missing [a]: the batch passes the
    up-front validation, fails at the third operation and rolls back, and
    [/ws/b] holds the bytes of [a], not the "B" it held before the
    batch. *)
Lemma rollback_keeps_overwritten_copy :
  executeBatch batchClock "/" SecurityAux.wsManager 5
    [copyOp "a" "b"; deleteOp "a"; copyOp "a" "c"] true (twoFiles, O)
  = BatchThrew
      (FileSystemError
         "Batch operation failed atomically: Source file disappeared before copy: /ws/a")
      (twoFilesOverwritten, 2%nat)
  ∧ get ["ws"; "b"] twoFiles = Some (File "B" 2)
  ∧ get ["ws"; "b"] twoFilesOverwritten = Some (File "A" 1700000000000)
  ∧ get ["ws"; "b"] twoFilesOverwritten ≠ get ["ws"; "b"] twoFiles.
Proof.
  split; [vm_compute; reflexivity|].
  split; [vm_compute; reflexivity|].
  split; [vm_compute; reflexivity|].
  vm_compute. discriminate.
Qed.

(** A move onto an existing destination, rolled back: [move a -> b] with
    [b] present, then a second move of the now missing [a].  The rollback
    unlinks the moved file, restores the shadow copy to [b] and then
    renames [b] to [a]: [/ws/a] ends up holding "B", [/ws/b] is gone and
    the bytes of [a] are lost. *)
Lemma rollback_of_move_onto_existing :
  executeBatch batchClock "/" SecurityAux.wsManager 5
    [moveOp "a" "b"; moveOp "a" "c"] true (twoFiles, O)
  = BatchThrew
      (FileSystemError
         "Batch operation failed atomically: ENOENT: no such file or directory")
      (DirOpsAux.wsWith {[ "a" := File "B" 2 ]}, 1%nat).
Proof. vm_compute. reflexivity. Qed.

End BatchFacts.

(* ================================================================== *)
(** ** Facts about [path.resolve] *)
(* ================================================================== *)

Module PathFacts.
Import Path PathAux.

Lemma append_cons c s t : String c s +:+ t = String c (s +:+ t).
Proof. reflexivity. Qed.

Lemma append_nil_r s : s +:+ "" = s.
Proof. induction s as [|c s IH]; [done|]. by rewrite append_cons, IH. Qed.

Lemma append_assoc a b c : (a +:+ b) +:+ c = a +:+ (b +:+ c).
Proof. induction a as [|x a IH]; [done|]. by rewrite !append_cons, IH. Qed.

Lemma rev_app_rev_app s a b :
  String.rev_app (String.rev_app s a) b = String.rev_app a (s +:+ b).
Proof.
  revert a b. induction s as [|c s IH]; intros a b; [done|].
  rewrite append_cons. cbn [String.rev_app]. by rewrite IH.
Qed.

Lemma string_rev_involutive s : String.rev (String.rev s) = s.
Proof. unfold String.rev. rewrite rev_app_rev_app. simpl. apply append_nil_r. Qed.

Lemma split_go_slashFree s cur t :
  slashFree s = true →
  split_go cur (s +:+ t) = split_go (String.rev_app s cur) t.
Proof.
  revert cur. induction s as [|c s IH]; intros cur H; [done|].
  cbn [slashFree] in H. apply andb_true_iff in H as [Hc Hs].
  apply negb_true_iff in Hc.
  rewrite append_cons. cbn [split_go String.rev_app]. rewrite Hc. by apply IH.
Qed.

Lemma split_segment s t :
  slashFree s = true → split (s +:+ "/" +:+ t) = s :: split t.
Proof.
  intros H. unfold split. rewrite split_go_slashFree by done.
  simpl. fold (String.rev s). by rewrite string_rev_involutive.
Qed.

Lemma split_joinSegments segs :
  Forall (λ s, slashFree s = true) segs → segs ≠ [] →
  split (joinSegments segs +:+ "/") = segs ++ [""].
Proof.
  induction 1 as [|s segs Hs Hsegs IH]; intros Hne; [done|].
  destruct segs as [|s2 segs].
  - simpl. change (s +:+ "/") with (s +:+ "/" +:+ ""). by rewrite split_segment.
  - change (joinSegments (s :: s2 :: segs))
      with (s +:+ "/" +:+ joinSegments (s2 :: segs)).
    rewrite !append_assoc. rewrite split_segment by done.
    rewrite IH by done. done.
Qed.

Lemma slashFree_rev_app s a :
  slashFree s = true → slashFree a = true → slashFree (String.rev_app s a) = true.
Proof.
  revert a. induction s as [|c s IH]; intros a Hs Ha; [done|].
  cbn [slashFree] in Hs. apply andb_true_iff in Hs as [Hc Hs].
  cbn [String.rev_app]. apply IH; [done|]. cbn [slashFree]. by rewrite Hc.
Qed.

Lemma split_go_all_slashFree cur p :
  slashFree cur = true → Forall (λ s, slashFree s = true) (split_go cur p).
Proof.
  revert cur. induction p as [|c p IH]; intros cur Hcur; cbn [split_go].
  - constructor; [|done]. by apply slashFree_rev_app.
  - case_bool_decide as Hc.
    + constructor; [by apply slashFree_rev_app | by apply IH].
    + apply IH. cbn [slashFree]. rewrite Hcur.
      by rewrite bool_decide_eq_false_2.
Qed.

Lemma normalize_go_kept stack segs :
  Forall (λ s, kept s = true) stack →
  Forall (λ s, slashFree s = true) segs →
  Forall (λ s, kept s = true) (normalize_go stack segs).
Proof.
  intros Hst Hsegs. revert stack Hst.
  induction Hsegs as [|s segs Hs Hsegs IH]; intros stack Hst; cbn [normalize_go].
  - by apply Forall_rev.
  - destruct (bool_decide (s = "")) eqn:E1; [by apply IH|].
    destruct (bool_decide (s = ".")) eqn:E2; [by apply IH|].
    cbn [orb]. destruct (bool_decide (s = "..")) eqn:E3.
    + apply IH. destruct stack; [done|]. by inversion Hst.
    + apply IH. constructor; [|done]. unfold kept. by rewrite Hs, E1, E2, E3.
Qed.

Lemma normalize_go_app stack segs rest :
  Forall (λ s, kept s = true) segs →
  normalize_go stack (segs ++ rest) = normalize_go (rev segs ++ stack) rest.
Proof.
  intros H. revert stack. induction H as [|s segs Hs Hsegs IH]; intros stack; [done|].
  cbn [app normalize_go]. unfold kept in Hs.
  apply andb_true_iff in Hs as [Hs H3]. apply andb_true_iff in Hs as [Hs H2].
  apply andb_true_iff in Hs as [_ H1].
  apply negb_true_iff in H1, H2, H3. rewrite H1, H2, H3. cbn [orb].
  rewrite IH. cbn [rev]. by rewrite <- app_assoc.
Qed.

Lemma kept_slashFree s : kept s = true → slashFree s = true.
Proof.
  unfold kept. intros H. repeat (apply andb_true_iff in H as [H _]). done.
Qed.

(** A normalized absolute path is its own normal form. *)
Lemma normalizeAbsolute_rendered segs :
  Forall (λ s, kept s = true) segs →
  normalizeAbsolute (("/" +:+ joinSegments segs) +:+ "/") = "/" +:+ joinSegments segs.
Proof.
  intros H. unfold normalizeAbsolute. f_equal. f_equal.
  rewrite append_assoc.
  change ("/" +:+ joinSegments segs +:+ "/")
    with ("" +:+ "/" +:+ (joinSegments segs +:+ "/")).
  rewrite split_segment by done.
  destruct segs as [|s segs].
  - reflexivity.
  - rewrite split_joinSegments; [|by eapply Forall_impl; [done|apply kept_slashFree]|done].
    cbn [normalize_go bool_decide]. rewrite bool_decide_eq_true_2 by done. cbn [orb].
    rewrite normalize_go_app by done. cbn [normalize_go].
    rewrite bool_decide_eq_true_2 by done. cbn [orb].
    by rewrite app_nil_r, rev_involutive.
Qed.

Lemma resolve_kept cwd args :
  ∃ segs, Forall (λ s, kept s = true) segs
          ∧ resolve cwd args = "/" +:+ joinSegments segs.
Proof.
  eexists. split; [|reflexivity].
  apply normalize_go_kept; [done|]. by apply split_go_all_slashFree.
Qed.

(** [path.resolve(root, p)] of a path [p] that is itself an output of
    [path.resolve] is [p]. *)
Lemma resolve_resolved cwd cwd' root args :
  resolve cwd' [root; resolve cwd args] = resolve cwd args.
Proof.
  destruct (resolve_kept cwd args) as (segs & Hsegs & ->).
  unfold resolve at 1. cbn [rev app resolve_go].
  rewrite bool_decide_eq_false_2 by done.
  change (isAbsolute ("/" +:+ joinSegments segs)) with (bool_decide (slash = slash)).
  rewrite bool_decide_eq_true_2 by done.
  change ("/" +:+ "") with "/".
  by apply normalizeAbsolute_rendered.
Qed.

End PathFacts.

(* ================================================================== *)
(** ** SecurityManager: what the layers guarantee *)
(* ================================================================== *)

Module SecurityLaws.
Import JsString Security SecurityAux SecurityCases SecurityFacts PathFacts.

Section laws.
Context (cwd : string) (fs : FsView) (sm : SecurityManager).

Lemma firstRejection_resolved filePath op :
  firstRejection cwd sm filePath op = None →
  firstRejection cwd sm (Path.resolve cwd [workspaceRoot sm; filePath]) op
  = if hasTraversal (Path.resolve cwd [workspaceRoot sm; filePath])
    then Some PathTraversal else None.
Proof.
  unfold firstRejection. rewrite resolve_resolved.
  set (resolved := Path.resolve cwd [workspaceRoot sm; filePath]).
  destruct (insideWorkspace _ resolved); cbn [negb]; [|discriminate].
  destruct (hasTraversal filePath); [discriminate|].
  destruct (hasTraversal resolved); [done|].
  destruct (allowedSubdirectories sm) as [[|a allowed]|].
  all: repeat (match goal with |- context [if ?b then _ else _] =>
            lazymatch b with
            | context [if _ then _ else _] => fail
            | _ => destruct b eqn:?
            end
          end; try discriminate; try reflexivity).
Qed.

Lemma firstRejection_read_only filePath op :
  readOnly sm = true → isMutation op = true →
  firstRejection cwd sm filePath op ≠ None.
Proof.
  intros Hro Hop. unfold firstRejection. rewrite Hro, Hop.
  destruct (allowedSubdirectories sm) as [[|a allowed]|].
  all: repeat (match goal with |- context [if ?b then _ else _] =>
            lazymatch b with
            | context [if _ then _ else _] => fail
            | _ => destruct b eqn:?
            end
          end; try discriminate).
Qed.

Lemma validatePath_throws_kind depth filePath op v :
  validatePath cwd fs sm depth filePath op = Throws v →
  v ∈ [WorkspaceEscape; PathTraversal; SystemPathAccess; SensitiveFileAccess;
       SubdirectoryRestriction; BlockedPath; BlockedPattern; ReadOnlyMode].
Proof.
  revert filePath. induction depth as [|depth IH]; intros filePath; [done|].
  rewrite validatePath_step.
  destruct (firstRejection cwd sm filePath op) as [v'|] eqn:Hv.
  - intros [= ->]. unfold firstRejection in Hv.
    repeat (match type of Hv with context [if ?b then _ else _] =>
              destruct b end; cbn [negb] in Hv; try discriminate;
            try (injection Hv as <-; by repeat constructor)).
  - destruct (isLink cwd fs sm filePath); [|done].
    specialize (IH (linkTarget cwd fs sm filePath)).
    destruct (validatePath cwd fs sm depth _ op); done.
Qed.

End laws.

Lemma startsWith_self_sep s : startsWith s (s +:+ Path.sep) = false.
Proof.
  unfold startsWith. induction s as [|c s IH]; [done|].
  rewrite append_cons. cbn [String.prefix].
  destruct (ascii_dec c c); [done | congruence].
Qed.

(** X1.  In read-only mode [validatePath] approves no path for a write or
    a delete, whatever the path, the filesystem and the rest of the
    configuration. *)
Theorem validatePath_read_only cwd fs sm depth filePath op r :
  readOnly sm = true → isMutation op = true →
  validatePath cwd fs sm depth filePath op ≠ Returns r.
Proof.
  intros Hro Hop H. apply validatePath_returns_resolved in H as [_ Hnone].
  by eapply firstRejection_read_only.
Qed.

Lemma validatePath_read_only_witness :
  validatePath "/" noLinks readOnlyManager 1 "notes.txt" Read = Returns "/ws/notes.txt"
  ∧ validatePath "/" noLinks readOnlyManager 1 "notes.txt" Write
    ≠ Returns "/ws/notes.txt"
  ∧ validatePath "/" noLinks readOnlyManager 1 "notes.txt" Delete
    ≠ Returns "/ws/notes.txt".
Proof.
  split; [reflexivity|]. split.
  - apply (validatePath_read_only "/" noLinks readOnlyManager 1 "notes.txt" Write);
      reflexivity.
  - apply (validatePath_read_only "/" noLinks readOnlyManager 1 "notes.txt" Delete);
      reflexivity.
Defined.

(** X2.  When a non-empty list of allowed subdirectories is configured,
    every path [validatePath] returns is one of the allowed directories or
    lies below one (allowed directory followed by the separator). *)
Theorem validatePath_allowed_subdirectory cwd fs sm depth filePath op r allowed :
  allowedSubdirectories sm = Some allowed → allowed ≠ [] →
  validatePath cwd fs sm depth filePath op = Returns r →
  ∃ a, a ∈ allowed ∧ (r = a ∨ startsWith r (a +:+ Path.sep) = true).
Proof.
  intros Hal Hne H. apply validatePath_returns_resolved in H as [-> Hnone].
  unfold firstRejection in Hnone. rewrite Hal in Hnone.
  destruct allowed as [|a0 allowed]; [done|].
  set (resolved := Path.resolve cwd [workspaceRoot sm; filePath]) in *.
  cbv beta iota in Hnone.
  destruct (isAllowed (a0 :: allowed) resolved) eqn:Hallowed.
  - unfold isAllowed in Hallowed. apply existsb_exists in Hallowed as (a & Hin & Ha).
    exists a. split; [by apply list_elem_of_In|].
    apply orb_true_iff in Ha as [Ha|Ha]; [by right | left; by apply eqb_eq].
  - cbn [negb] in Hnone.
    repeat (match type of Hnone with context [if ?b then _ else _] =>
              destruct b end; try discriminate).
Qed.

Lemma validatePath_allowed_subdirectory_witness :
  validatePath "/" noLinks restrictedManager 1 "src/main.ts" Read
  = Returns "/ws/src/main.ts"
  ∧ ∃ a, a ∈ ["/ws/src"; "/ws/docs"]
         ∧ ("/ws/src/main.ts" = a ∨ startsWith "/ws/src/main.ts" (a +:+ Path.sep) = true).
Proof.
  split; [reflexivity|].
  apply (validatePath_allowed_subdirectory "/" noLinks restrictedManager 1
           "src/main.ts" Read "/ws/src/main.ts" ["/ws/src"; "/ws/docs"]);
    [reflexivity | discriminate | reflexivity].
Defined.

(** X3.  A symbolic link is approved only together with its target: when
    [validatePath] returns a path that exists and is a symbolic link, the
    link's target, resolved against the link's directory, has itself been
    approved for the same operation by the nested call, and so lies inside
    the workspace. *)
Theorem validatePath_link_target_vetted cwd fs sm depth filePath op r :
  validatePath cwd fs sm depth filePath op = Returns r →
  existsSync fs r = true → isSymbolicLink fs r = true →
  let target := Path.resolve cwd [Path.dirname r; readlinkSync fs r] in
  validatePath cwd fs sm (pred depth) target op = Returns target
  ∧ (target = workspaceRoot sm
     ∨ startsWith target (workspaceRoot sm +:+ Path.sep) = true).
Proof.
  intros H Hex Hlink target.
  pose proof (validatePath_returns_resolved _ _ _ _ _ _ _ H) as [Hr Hnone].
  destruct depth as [|depth]; [discriminate|].
  rewrite validatePath_step, Hnone in H.
  unfold isLink in H. rewrite <- Hr, Hex, Hlink in H. cbn [andb] in H.
  unfold linkTarget in H. rewrite <- Hr in H. fold target in H.
  destruct (validatePath cwd fs sm depth target op) as [x| |] eqn:Hx; try discriminate.
  apply validatePath_returns_resolved in Hx as Hx'. destruct Hx' as [-> Hnone'].
  unfold target in *. rewrite resolve_resolved in *.
  split; [exact Hx|].
  apply firstRejection_none_inside in Hnone'. rewrite resolve_resolved in Hnone'.
  unfold insideWorkspace in Hnone'.
  apply orb_true_iff in Hnone' as [Hpre | Heq]; [by right | left; by apply eqb_eq].
Qed.

Lemma validatePath_link_target_vetted_witness :
  validatePath "/" oneLink wsManager 2 "current" Read = Returns "/ws/current"
  ∧ validatePath "/" oneLink wsManager 1 "/ws/releases/v2" Read
    = Returns "/ws/releases/v2".
Proof.
  split; [reflexivity|].
  apply (validatePath_link_target_vetted "/" oneLink wsManager 2 "current" Read
           "/ws/current"); reflexivity.
Defined.

(** X4.  Validating a path that [validatePath] has returned (as the tool
    layer does before calling the directory operations) returns the same
    path again, unless the path's own text contains [..], [./] or [.\],
    in which case the second validation rejects it with
    [path_traversal]. *)
Theorem validatePath_revalidate cwd fs sm depth filePath op r :
  validatePath cwd fs sm depth filePath op = Returns r →
  validatePath cwd fs sm depth r op
  = if hasTraversal r then Throws PathTraversal else Returns r.
Proof.
  intros H.
  pose proof (validatePath_returns_resolved _ _ _ _ _ _ _ H) as [Hr Hnone].
  destruct depth as [|depth]; [discriminate|].
  rewrite validatePath_step in H. rewrite validatePath_step.
  rewrite Hnone in H. rewrite Hr, firstRejection_resolved by done. rewrite <- Hr.
  destruct (hasTraversal r); [done|].
  unfold isLink, linkTarget in *. rewrite Hr, resolve_resolved. rewrite <- Hr.
  rewrite <- Hr in H.
  destruct (existsSync fs r && isSymbolicLink fs r); [|done].
  destruct (validatePath cwd fs sm depth _ op); done.
Qed.

Lemma validatePath_revalidate_witness :
  validatePath "/" noLinks wsManager 1 "/ws/src/main.ts" Read = Returns "/ws/src/main.ts"
  ∧ validatePath "/" noLinks dottedManager 1 "/data/v1..2/a.txt" Read
    = Throws PathTraversal.
Proof.
  split.
  - apply (validatePath_revalidate "/" noLinks wsManager 1 "src/main.ts" Read
             "/ws/src/main.ts"). reflexivity.
  - apply (validatePath_revalidate "/" noLinks dottedManager 1 "a.txt" Read
             "/data/v1..2/a.txt"). reflexivity.
Defined.

(** X5.  [validateSymlink] returns only when the link path is approved
    for a write (so never in read-only mode) and the target, resolved
    against the link's directory, lies strictly below the workspace root
    and is itself approved for a read. *)
Theorem validateSymlink_returns cwd fs sm depth linkPath targetPath :
  validateSymlink cwd fs sm depth linkPath targetPath = Returns tt →
  readOnly sm = false
  ∧ ∃ resolvedLink,
      validatePath cwd fs sm depth linkPath Write = Returns resolvedLink
      ∧ let resolvedTarget :=
          Path.resolve cwd [Path.dirname resolvedLink; targetPath] in
        startsWith resolvedTarget (workspaceRoot sm +:+ Path.sep) = true
        ∧ validatePath cwd fs sm depth resolvedTarget Read = Returns resolvedTarget.
Proof.
  unfold validateSymlink.
  destruct (validatePath cwd fs sm depth linkPath Write) as [l| |] eqn:Hl;
    try discriminate.
  destruct (startsWith _ _) eqn:Hpre; cbn [negb]; [|discriminate].
  destruct (validatePath cwd fs sm depth (Path.resolve _ _) Read) as [x| |] eqn:Hx;
    try discriminate.
  intros _. split.
  - destruct (readOnly sm) eqn:Hro; [|done].
    apply validatePath_returns_resolved in Hl as [_ Hnone].
    by apply firstRejection_read_only in Hnone.
  - exists l. split; [done|]. cbn zeta. split; [done|].
    apply validatePath_returns_resolved in Hx as Hx'. destruct Hx' as [-> _].
    by rewrite resolve_resolved in *.
Qed.

Lemma validateSymlink_returns_witness :
  readOnly wsManager = false
  ∧ ∃ resolvedLink,
      validatePath "/" noLinks wsManager 1 "current" Write = Returns resolvedLink
      ∧ let resolvedTarget :=
          Path.resolve "/" [Path.dirname resolvedLink; "releases/v2"] in
        startsWith resolvedTarget (workspaceRoot wsManager +:+ Path.sep) = true
        ∧ validatePath "/" noLinks wsManager 1 resolvedTarget Read
          = Returns resolvedTarget.
Proof.
  apply (validateSymlink_returns "/" noLinks wsManager 1 "current" "releases/v2").
  reflexivity.
Defined.

(** X6.  A link whose target resolves to the workspace root itself is
    rejected by [validateSymlink] with [symlink_escape], although
    [validatePath] accepts the root: the target check has no equality
    case. *)
Theorem validateSymlink_rejects_workspace_root cwd fs sm depth linkPath targetPath l :
  validatePath cwd fs sm depth linkPath Write = Returns l →
  Path.resolve cwd [Path.dirname l; targetPath] = workspaceRoot sm →
  validateSymlink cwd fs sm depth linkPath targetPath = Throws SymlinkEscape.
Proof.
  intros Hl Hroot. unfold validateSymlink. rewrite Hl, Hroot.
  by rewrite startsWith_self_sep.
Qed.

Lemma validateSymlink_rejects_workspace_root_witness :
  validatePath "/" noLinks wsManager 1 "/ws" Read = Returns "/ws"
  ∧ validateSymlink "/" noLinks wsManager 1 "top" "." = Throws SymlinkEscape.
Proof.
  split; [reflexivity|].
  apply (validateSymlink_rejects_workspace_root "/" noLinks wsManager 1 "top" "."
           "/ws/top"); reflexivity.
Defined.

(** X7.  Rate limiting is per agent: a [checkRateLimit] call of one agent
    leaves the timestamps stored for every other agent as they were, so
    it does not change what a later call of another agent answers. *)
Theorem checkRateLimit_per_agent sm a b now :
  a ≠ b →
  stored (checkRateLimit sm a now).2 b = stored sm b
  ∧ ∀ now', (checkRateLimit (checkRateLimit sm a now).2 b now').1
            = (checkRateLimit sm b now').1.
Proof.
  intros Hab.
  assert (Hst : stored (checkRateLimit sm a now).2 b = stored sm b
                ∧ maxOperationsPerMinute (checkRateLimit sm a now).2
                  = maxOperationsPerMinute sm).
  { unfold checkRateLimit, stored.
    destruct (_ <=? _); cbn [snd operationCount setOperationCount
                               maxOperationsPerMinute]; [done|].
    by rewrite lookup_insert_ne. }
  destruct Hst as [Hst Hmax]. split; [done|].
  intros now'. unfold checkRateLimit at 1 3. fold (stored sm b).
  fold (stored (checkRateLimit sm a now).2 b). rewrite Hst, Hmax.
  by destruct (_ <=? _).
Qed.

Lemma checkRateLimit_per_agent_witness :
  (checkRateLimit (rateManager 2 {[ "a" := [1000; 2000] ]}) "a" 3000).1
  = Throws RateLimit
  ∧ (checkRateLimit (checkRateLimit (rateManager 2 {[ "a" := [1000; 2000] ]})
                       "a" 3000).2 "b" 3001).1
    = Returns tt.
Proof.
  split; [reflexivity|].
  pose proof (checkRateLimit_per_agent (rateManager 2 {[ "a" := [1000; 2000] ]})
                "a" "b" 3000) as H.
  destruct H as [_ H]; [done|]. rewrite H. reflexivity.
Defined.

Lemma checkRateLimit_keeps_bound sm agentId now a :
  (∀ a, Z.of_nat (length (stored sm a)) ≤ maxOperationsPerMinute sm) →
  Z.of_nat (length (stored (checkRateLimit sm agentId now).2 a))
  ≤ maxOperationsPerMinute (checkRateLimit sm agentId now).2
  ∧ maxOperationsPerMinute (checkRateLimit sm agentId now).2
    = maxOperationsPerMinute sm.
Proof.
  intros Hinv. unfold checkRateLimit. fold (stored sm agentId).
  destruct (_ <=? _) eqn:Hle; cbn [snd]; [by split|].
  apply Z.leb_gt in Hle. split; [|done].
  unfold stored at 1. cbn [operationCount setOperationCount maxOperationsPerMinute].
  destruct (decide (agentId = a)) as [->|Hne].
  - rewrite lookup_insert_eq. cbn [default from_option id].
    rewrite length_app. simpl. lia.
  - rewrite lookup_insert_ne by done. apply Hinv.
Qed.

(** X8.  The rate limiter stores at most [maxOperationsPerMinute]
    timestamps per agent: if no agent's list is longer than the limit,
    this stays so after any sequence of [checkRateLimit] calls, by any
    agents at any times, accepted or rejected. *)
Theorem checkRateLimit_bounded sm calls a :
  (∀ a, Z.of_nat (length (stored sm a)) ≤ maxOperationsPerMinute sm) →
  Z.of_nat (length (stored (checkEach sm calls) a)) ≤ maxOperationsPerMinute sm.
Proof.
  revert sm. induction calls as [|[agentId now] calls IH]; intros sm Hinv.
  - apply Hinv.
  - cbn [checkEach foldl fst snd]. fold (checkEach (checkRateLimit sm agentId now).2 calls).
    destruct (checkRateLimit_keeps_bound sm agentId now a Hinv) as [_ Hmax].
    rewrite <- Hmax. apply IH. intros a'.
    by destruct (checkRateLimit_keeps_bound sm agentId now a' Hinv).
Qed.

Lemma checkRateLimit_bounded_witness :
  Z.of_nat (length (stored (checkEach (rateManager 2 ∅)
                              [("a", 1000); ("a", 1001); ("b", 1002); ("a", 1003)]) "a"))
  ≤ 2.
Proof.
  apply (checkRateLimit_bounded (rateManager 2 ∅)
           [("a", 1000); ("a", 1001); ("b", 1002); ("a", 1003)] "a").
  intros a. unfold stored. cbn [operationCount rateManager].
  rewrite lookup_empty. simpl. lia.
Defined.

(** X9.  A path whose resolved form starts with the text of a configured
    blocked path, or matches a configured blocked pattern, is never
    approved, for any operation.  The blocked-path test is a plain text
    prefix: blocking [/ws/src/tmp] also blocks [/ws/src/tmpfiles]. *)
Theorem validatePath_blocked cwd fs sm depth filePath op r :
  let resolved := Path.resolve cwd [workspaceRoot sm; filePath] in
  existsb (startsWith resolved) (blockedPaths sm) = true
  ∨ existsb (λ re, test re resolved) (blockedPatterns sm) = true →
  validatePath cwd fs sm depth filePath op ≠ Returns r.
Proof.
  intros resolved Hblocked H.
  apply validatePath_returns_resolved in H as [_ Hnone].
  unfold firstRejection in Hnone. fold resolved in Hnone.
  destruct Hblocked as [Hb|Hb]; rewrite Hb in Hnone;
    repeat (match type of Hnone with context [if ?b then _ else _] =>
              destruct b end; try discriminate).
Qed.

Lemma validatePath_blocked_witness :
  validatePath "/" noLinks restrictedManager 1 "src/tmpfiles/a.txt" Read
  ≠ Returns "/ws/src/tmpfiles/a.txt"
  ∧ validatePath "/" noLinks restrictedManager 1 "src/main.ts.bak" Read
    ≠ Returns "/ws/src/main.ts.bak".
Proof.
  split.
  - apply (validatePath_blocked "/" noLinks restrictedManager 1 "src/tmpfiles/a.txt").
    left. reflexivity.
  - apply (validatePath_blocked "/" noLinks restrictedManager 1 "src/main.ts.bak").
    right. reflexivity.
Defined.

End SecurityLaws.

(* ================================================================== *)
(** ** ErrorHandler: codes of the rejections *)
(* ================================================================== *)

Module ErrorHandlerFacts.
Import JsString Security SecurityAux SecurityCases SecurityFacts SecurityLaws ErrorHandler.

(** X10.  The error code reported for a path that [validatePath] rejects
    is found by keyword search in the message, first match first.  So a
    rejected write in read-only mode ("Filesystem is in read-only mode")
    is reported as [SYSTEM_PATH_ACCESS], because "filesystem" contains
    "system"; a path outside the allowed subdirectories gets the generic
    [SECURITY_ERROR]; and the other layers get the code named after
    them. *)
Theorem rejection_code cwd fs sm depth filePath op v :
  validatePath cwd fs sm depth filePath op = Throws v →
  code (handleSecurityError (Security.message v))
  = match v with
    | WorkspaceEscape => WORKSPACE_BOUNDARY_VIOLATION
    | PathTraversal => PATH_TRAVERSAL
    | SystemPathAccess => SYSTEM_PATH_ACCESS
    | SensitiveFileAccess => SENSITIVE_FILE_ACCESS
    | BlockedPath | BlockedPattern => BLOCKED_PATH
    | ReadOnlyMode => SYSTEM_PATH_ACCESS
    | _ => SECURITY_ERROR
    end.
Proof.
  intros H. apply validatePath_throws_kind in H.
  repeat (apply elem_of_cons in H as [->|H]; [vm_compute; reflexivity|]).
  by apply elem_of_nil in H.
Qed.

Lemma rejection_code_witness :
  validatePath "/" noLinks readOnlyManager 1 "notes.txt" Write = Throws ReadOnlyMode
  ∧ code (handleSecurityError (Security.message ReadOnlyMode)) = SYSTEM_PATH_ACCESS.
Proof.
  split; [reflexivity|].
  apply (rejection_code "/" noLinks readOnlyManager 1 "notes.txt" Write ReadOnlyMode).
  reflexivity.
Defined.

End ErrorHandlerFacts.

(* ================================================================== *)
(** ** DirectoryWatcher: delivery of events, stopping, failed starts *)
(* ================================================================== *)

Module WatcherLaws.
Import Watcher WatcherAux WatcherFacts Tools.

Lemma perform_buffersDistinct minimatch c w :
  buffersAllocated w → buffersDistinct w → buffersDistinct (perform minimatch c w).
Proof.
  intros Hwf Hd.
  assert (Hfresh : ∀ x sx, sessions w !! x = Some sx → events sx ≠ newArray (arrays w)).
  { intros x sx Hx Heq. apply (newArray_fresh (arrays w)). rewrite <- Heq.
    by eapply Hwf. }
  destruct c; simpl;
    unfold watch, recordEvent, getEvents, clearEvents, stopWatch, stopAll;
    watcher_cases; try done; intros a b sa sb Ha Hb Hab; simpl in *;
    rewrite ?lookup_delete_Some, ?lookup_insert_Some, ?lookup_empty in Ha, Hb;
    try done;
    repeat match goal with
           | H : _ ∧ _ |- _ => destruct H
           | H : _ ∨ _ |- _ => destruct H
           end; simplify_eq; simpl; eauto;
    try (intros Heq; first [by eapply Hfresh | symmetry in Heq; by eapply Hfresh]).
Qed.

Lemma reachable_buffersDistinct minimatch cs :
  buffersDistinct (performAll minimatch cs newDirectoryWatcher).
Proof.
  induction cs as [|c cs IH] using rev_ind.
  - intros ???? Hs. simpl in Hs. by rewrite lookup_empty in Hs.
  - rewrite performAll_snoc. apply perform_buffersDistinct; [|done].
    apply reachable_invariants.
Qed.


Lemma recordEvent_sessions minimatch sid ty p old now w :
  sessions (recordEvent minimatch sid ty p old now w) = sessions w
  ∧ watchers (recordEvent minimatch sid ty p old now w) = watchers w.
Proof.
  unfold recordEvent. destruct (sessions w !! sid); [|done].
  by destruct (negb _).
Qed.

Lemma recordEvent_buffer minimatch n w sessionId session :
  buffersDistinct w →
  sessions w !! sessionId = Some session →
  readArray (arrays (recordEvent minimatch (forSession n) (kind n) (filePath n)
                       (previousPath n) (seenAt n) w)) (events session)
  = readArray (arrays w) (events session)
    ++ addressedTo minimatch sessionId (filters session) [n].
Proof.
  intros Hd Hs. unfold addressedTo, recordEvent.
  destruct (decide (forSession n = sessionId)) as [Heq|Hne].
  - rewrite Heq, Hs.
    destruct (shouldIncludeEvent minimatch (filePath n) (filters session)) eqn:Hinc;
      cbn [negb].
    + rewrite filter_cons_True by done. rewrite filter_nil. cbn [arrays fmap list_fmap].
      by rewrite readArray_insert_eq.
    + rewrite filter_cons_False by (intros [_ ?]; congruence).
      rewrite filter_nil. cbn [fmap list_fmap]. by rewrite app_nil_r.
  - rewrite filter_cons_False by (by intros [? _]).
    rewrite filter_nil. cbn [fmap list_fmap]. rewrite app_nil_r.
    destruct (sessions w !! forSession n) as [other|] eqn:Ho; [|done].
    destruct (negb _); [done|]. cbn [arrays].
    rewrite readArray_insert_ne; [done|]. by eapply Hd.
Qed.

Lemma recordEach_buffer minimatch ns w sessionId session :
  buffersDistinct w →
  sessions w !! sessionId = Some session →
  sessions (recordEach minimatch ns w) = sessions w
  ∧ watchers (recordEach minimatch ns w) = watchers w
  ∧ readArray (arrays (recordEach minimatch ns w)) (events session)
    = readArray (arrays w) (events session)
      ++ addressedTo minimatch sessionId (filters session) ns.
Proof.
  revert w. induction ns as [|n ns IH]; intros w Hd Hs.
  - unfold addressedTo. rewrite filter_nil. simpl. by rewrite app_nil_r.
  - cbn [recordEach foldl].
    set (w1 := recordEvent minimatch _ _ _ _ _ w).
    destruct (recordEvent_sessions minimatch (forSession n) (kind n) (filePath n)
                (previousPath n) (seenAt n) w) as [Hss Hws].
    fold w1 in Hss, Hws.
    destruct (IH w1) as (Hss' & Hws' & Hbuf).
    { unfold buffersDistinct. rewrite Hss. exact Hd. }
    { by rewrite Hss. }
    fold (recordEach minimatch ns w1).
    split; [congruence|]. split; [congruence|].
    rewrite Hbuf. unfold w1. rewrite (recordEvent_buffer _ _ _ sessionId) by done.
    rewrite <- app_assoc. f_equal. unfold addressedTo.
    rewrite <- fmap_app. f_equal. by rewrite <- filter_app.
Qed.

(** X11.  In every state the watcher can reach, after a burst of
    notifications for any sessions, a live session's buffer has gained
    exactly the events addressed to that session whose path passes the
    session's filters, in their arrival order; events of other sessions
    never show up in it, and the session tables are unchanged. *)
Theorem recordEvent_delivers minimatch cs ns sessionId session :
  let w := performAll minimatch cs newDirectoryWatcher in
  sessions w !! sessionId = Some session →
  let w' := recordEach minimatch ns w in
  sessions w' = sessions w
  ∧ watchers w' = watchers w
  ∧ readArray (arrays w') (events session)
    = readArray (arrays w) (events session)
      ++ addressedTo minimatch sessionId (filters session) ns.
Proof.
  intros w Hs w'. apply recordEach_buffer; [|done].
  apply reachable_buffersDistinct.
Qed.


Lemma recordEvent_delivers_witness :
  ∃ session,
    sessions twoSessions !! "s1" = Some session
    ∧ readArray (arrays (recordEach suffixMatch burst twoSessions)) (events session)
      = [ {| type := Create; path := "/ws/a/x.txt"; timestamp := 10; oldPath := None |};
          {| type := DeleteEvent; path := "/ws/a/x.txt"; timestamp := 13;
             oldPath := None |} ].
Proof.
  eexists. split; [vm_compute; reflexivity|].
  pose proof (recordEvent_delivers suffixMatch
                [CallWatch "s1" "/ws/a"
                   {| optRecursive := true; optFilters := Some [".txt"] |}
                   IsDirectory Ready None;
                 CallWatch "s2" "/ws/b"
                   {| optRecursive := false; optFilters := None |}
                   IsDirectory Ready None]
                burst "s1" _ ltac:(vm_compute; reflexivity)) as H.
  cbv zeta in H. destruct H as (_ & _ & H).
  etransitivity; [exact H|]. vm_compute. reflexivity.
Defined.

(** X12.  [fs_get_watch_events] with the default [clear] hands each
    buffered event out once: for a live session the call returns a new
    array holding the buffered events and leaves the session's buffer
    empty, so that a second call right after it returns an empty array,
    while the array returned first still holds the events. *)
Theorem fsGetWatchEvents_delivers_once sessionId clear w session :
  sessionId ≠ "" → clear ≠ Some false →
  sessions w !! sessionId = Some session →
  ∃ events1 w1 events2 w2,
    fsGetWatchEvents (Some sessionId) clear w = (Ok (sessionId, events1), w1)
    ∧ readArray (arrays w1) events1 = readArray (arrays w) (events session)
    ∧ fsGetWatchEvents (Some sessionId) clear w1 = (Ok (sessionId, events2), w2)
    ∧ readArray (arrays w2) events2 = []
    ∧ readArray (arrays w2) events1 = readArray (arrays w) (events session).
Proof.
  intros Hid Hclear Hs. unfold fsGetWatchEvents.
  rewrite !bool_decide_eq_false_2 by done.
  rewrite (getEvents_live _ _ _ Hs).
  unfold clearEvents at 1. cbn [sessions arrays watchers]. rewrite Hs.
  set (h := arrays w).
  set (copy := newArray h).
  set (h1 := <[copy := readArray h (events session)]> h).
  set (buffer := newArray h1).
  set (h2 := <[buffer := []]> h1).
  assert (Hcb : buffer ≠ copy).
  { intros Heq. apply (newArray_fresh h1). fold buffer. rewrite Heq.
    unfold h1. rewrite dom_insert_L. set_solver. }
  eexists copy, _, _, _. split; [reflexivity|].
  cbn [arrays sessions watchers]. split.
  { fold h. fold copy. fold h1. fold buffer. fold h2.
    unfold h2. rewrite readArray_insert_ne by done.
    unfold h1. by rewrite readArray_insert_eq. }
  fold h. fold copy. fold h1. fold buffer. fold h2.
  unfold getEvents. cbn [sessions arrays watchers]. rewrite lookup_insert_eq.
  cbn [events].
  unfold clearEvents. cbn [sessions arrays watchers]. rewrite lookup_insert_eq.
  split; [reflexivity|]. cbn [arrays].
  set (copy2 := newArray h2).
  set (h3 := <[copy2 := readArray h2 buffer]> h2).
  set (buffer2 := newArray h3).
  assert (H2c : copy2 ≠ copy).
  { intros Heq. apply (newArray_fresh h2). fold copy2. rewrite Heq.
    unfold h2, h1. rewrite !dom_insert_L. set_solver. }
  assert (H3c : buffer2 ≠ copy).
  { intros Heq. apply (newArray_fresh h3). fold buffer2. rewrite Heq.
    unfold h3, h2, h1. rewrite !dom_insert_L. set_solver. }
  assert (H3c2 : buffer2 ≠ copy2).
  { intros Heq. apply (newArray_fresh h3). fold buffer2. rewrite Heq.
    unfold h3. rewrite !dom_insert_L. set_solver. }
  split.
  - rewrite readArray_insert_ne by done. unfold h3. rewrite readArray_insert_eq.
    unfold h2. by rewrite readArray_insert_eq.
  - rewrite readArray_insert_ne by done. unfold h3.
    rewrite readArray_insert_ne by done. unfold h2.
    rewrite readArray_insert_ne by done. unfold h1. by rewrite readArray_insert_eq.
Qed.

Lemma fsGetWatchEvents_delivers_once_witness :
  ∃ session events1 w1 events2 w2,
    sessions (recordEach suffixMatch burst twoSessions) !! "s1" = Some session
    ∧ fsGetWatchEvents (Some "s1") None (recordEach suffixMatch burst twoSessions)
      = (Ok ("s1", events1), w1)
    ∧ length (readArray (arrays w1) events1) = 2%nat
    ∧ fsGetWatchEvents (Some "s1") None w1 = (Ok ("s1", events2), w2)
    ∧ readArray (arrays w2) events2 = [].
Proof.
  pose proof (fsGetWatchEvents_delivers_once "s1" None
                (recordEach suffixMatch burst twoSessions) _
                ltac:(done) ltac:(done) ltac:(vm_compute; reflexivity)) as H.
  destruct H as (events1 & w1 & events2 & w2 & H1 & Hb1 & H2 & Hb2 & _).
  eexists _, events1, w1, events2, w2.
  split; [vm_compute; reflexivity|]. split; [exact H1|].
  split; [rewrite Hb1; vm_compute; reflexivity|]. split; [exact H2 | exact Hb2].
Defined.

Lemma omap_nil_iff {A B} (f : A → option B) (l : list A) :
  omap f l = [] ↔ ∀ x, x ∈ l → f x = None.
Proof.
  induction l as [|a l IH]; simpl.
  - split; [intros _ x Hx; by apply elem_of_nil in Hx | done].
  - destruct (f a) eqn:Hfa.
    + split; [done|]. intros H. specialize (H a (list_elem_of_here _ _)). congruence.
    + rewrite IH. split.
      * intros H x Hx. apply elem_of_cons in Hx as [->|Hx]; [done | by apply H].
      * intros H x Hx. apply H. by right.
Qed.

(** X13.  [stopAll] leaves no session behind, whether or not closing
    the watchers succeeded: both maps are empty afterwards and
    [getEvents] throws the not-found error for every id.  The call
    returns normally exactly when no watcher failed to close. *)
Theorem stopAll_outcome close w :
  let r := stopAll close w in
  watchers r.2 = ∅ ∧ sessions r.2 = ∅
  ∧ (r.1 = Ok tt ↔ ∀ sessionId, is_Some (watchers w !! sessionId) → close sessionId = None)
  ∧ ∀ sessionId, getEvents sessionId r.2 = (Throw (sessionNotFound sessionId), r.2).
Proof.
  cbv zeta. unfold stopAll.
  set (errors := omap _ _).
  assert (Herr : errors = [] ↔
                 ∀ sessionId, is_Some (watchers w !! sessionId) → close sessionId = None).
  { unfold errors. rewrite omap_nil_iff. split.
    - intros H sid [x Hx]. apply (H (sid, x)). by apply elem_of_map_to_list.
    - intros H [sid x] Hx. apply elem_of_map_to_list in Hx. apply H. eauto. }
  destruct errors as [|e errors]; cbn [fst snd watchers sessions].
  - split; [done|]. split; [done|]. split; [by rewrite <- Herr|].
    intros sid. unfold getEvents. cbn [sessions]. by rewrite lookup_empty.
  - split; [done|]. split; [done|]. split.
    + rewrite <- Herr. split; discriminate.
    + intros sid. unfold getEvents. cbn [sessions]. by rewrite lookup_empty.
Qed.

(** X14.  A [watch] call whose watcher fails to become ready (error or
    timeout) throws.  When closing the half-started watcher succeeds, the
    id is removed from both maps again; when closing fails too, that
    error is the one thrown and the id stays registered in both maps, so
    a later [watch] with the same id is refused as already existing. *)
Theorem watch_failed_start sessionId dirPath options ready close w :
  sessions w !! sessionId = None →
  ready ≠ Ready →
  let r := watch sessionId dirPath options IsDirectory ready close w in
  match close with
  | None =>
      (∃ m, r.1 = Throw (FileSystemError
                           ("Failed to initialize directory watcher: " +:+ m)))
      ∧ sessions r.2 !! sessionId = None
      ∧ watchers r.2 !! sessionId = None
  | Some closeError =>
      r.1 = Throw (OtherError closeError)
      ∧ is_Some (sessions r.2 !! sessionId)
      ∧ is_Some (watchers r.2 !! sessionId)
      ∧ ∀ dirPath' options' stat' ready' close',
          watch sessionId dirPath' options' stat' ready' close' r.2
          = (Throw (ValidationError
                      ("Watch session " +:+ sessionId +:+ " already exists")), r.2)
  end.
Proof.
  intros Hs Hready. cbv zeta.
  assert (Hfresh : bool_decide (is_Some (sessions w !! sessionId)) = false).
  { rewrite Hs. apply bool_decide_eq_false_2. by intros [? ?]. }
  assert (Hagain : ∀ w', is_Some (sessions w' !! sessionId) →
            ∀ dirPath' options' stat' ready' close',
              watch sessionId dirPath' options' stat' ready' close' w'
              = (Throw (ValidationError
                          ("Watch session " +:+ sessionId +:+ " already exists")), w')).
  { intros w' Hw' ?????. unfold watch. by rewrite bool_decide_eq_true_2. }
  destruct close as [closeError|]; destruct ready as [|m|]; try done.
  - assert (Hreg : is_Some (sessions (watch sessionId dirPath options IsDirectory
                                (WatcherError m) (Some closeError) w).2 !! sessionId)).
    { unfold watch. rewrite Hfresh. cbn [snd sessions]. rewrite lookup_insert_eq. eauto. }
    split; [unfold watch; by rewrite Hfresh|]. split; [done|]. split.
    + unfold watch. rewrite Hfresh. cbn [snd watchers]. rewrite lookup_insert_eq. eauto.
    + by apply Hagain.
  - assert (Hreg : is_Some (sessions (watch sessionId dirPath options IsDirectory
                                InitTimeout (Some closeError) w).2 !! sessionId)).
    { unfold watch. rewrite Hfresh. cbn [snd sessions]. rewrite lookup_insert_eq. eauto. }
    split; [unfold watch; by rewrite Hfresh|]. split; [done|]. split.
    + unfold watch. rewrite Hfresh. cbn [snd watchers]. rewrite lookup_insert_eq. eauto.
    + by apply Hagain.
  - unfold watch. rewrite Hfresh. cbn [fst snd sessions watchers].
    rewrite !lookup_delete_eq. eauto.
  - unfold watch. rewrite Hfresh. cbn [fst snd sessions watchers].
    rewrite !lookup_delete_eq. eauto.
Qed.

Lemma watch_failed_start_witness :
  (watch "s1" "/ws/a" {| optRecursive := true; optFilters := None |}
     IsDirectory InitTimeout (Some "close failed") newDirectoryWatcher).1
  = Throw (OtherError "close failed")
  ∧ is_Some (sessions
               (watch "s1" "/ws/a" {| optRecursive := true; optFilters := None |}
                  IsDirectory InitTimeout (Some "close failed")
                  newDirectoryWatcher).2 !! "s1")
  ∧ (watch "s1" "/ws/a" {| optRecursive := true; optFilters := None |}
       IsDirectory Ready None
       (watch "s1" "/ws/a" {| optRecursive := true; optFilters := None |}
          IsDirectory InitTimeout (Some "close failed") newDirectoryWatcher).2).1
    = Throw (ValidationError "Watch session s1 already exists").
Proof.
  pose proof (watch_failed_start "s1" "/ws/a"
                {| optRecursive := true; optFilters := None |}
                InitTimeout (Some "close failed") newDirectoryWatcher
                ltac:(reflexivity) ltac:(discriminate)) as H.
  cbv zeta in H. destruct H as (H1 & H2 & _ & H4).
  split; [exact H1|]. split; [exact H2|]. by rewrite H4.
Defined.

End WatcherLaws.

(* ================================================================== *)
(** ** Facts about the tree measures *)
(* ================================================================== *)

Module TreeFacts.
Import Fs Tree.

Lemma totalSize_Dir t es :
  totalSize (Dir t es)
  = foldr (λ kv acc, totalSize kv.2 + acc)%nat O (map_to_list es).
Proof.
  cbn [totalSize]. rewrite map_fold_foldr.
  induction (map_to_list es) as [|[k c] l IH]; [done|]. simpl. by rewrite IH.
Qed.

Lemma height_child t es name c :
  es !! name = Some c → (height c < height (Dir t es))%nat.
Proof.
  intros Hc. cbn [height]. rewrite map_fold_foldr.
  apply elem_of_map_to_list in Hc.
  induction (map_to_list es) as [|[k x] l IH]; [by apply elem_of_nil in Hc|].
  apply elem_of_cons in Hc as [Heq|Hc]; simpl in *.
  - inversion Heq; subst. lia.
  - specialize (IH Hc). lia.
Qed.

Lemma node_height_ind (P : node → Prop) :
  (∀ n, (∀ c, (height c < height n)%nat → P c) → P n) → ∀ n, P n.
Proof.
  intros Hstep n. remember (height n) as h eqn:Hh. revert n Hh.
  induction h as [h IH] using lt_wf_ind. intros n ->.
  apply Hstep. intros c Hc. by apply (IH (height c)).
Qed.

End TreeFacts.

(* ================================================================== *)
(** ** executeBatch: results, validation, backups *)
(* ================================================================== *)

Module BatchLaws.
Import Fs FsFacts Batch BatchAux BatchFacts Tree TreeFacts.

Section laws.
Context (clock : nat → Z) (cwd : string) (sm : Security.SecurityManager).


End laws.


(** A delete of a missing file between two copies: the second copy is
    still made. *)
Example nonatomic_continues_after_failure :
  ∃ w', executeBatch batchClock "/" SecurityAux.wsManager 5
          [copyOp "a" "c"; deleteOp "missing"; copyOp "b" "d"] false (twoFiles, O)
        = BatchReturned
            [ {| resultOperation := copyOp "a" "c"; success := true; failure := None |};
              {| resultOperation := deleteOp "missing"; success := false;
                 failure := Some "ENOENT: no such file or directory" |};
              {| resultOperation := copyOp "b" "d"; success := true; failure := None |} ]
            w'
        ∧ is_Some (get ["ws"; "d"] w'.1).
Proof. eexists. split; [vm_compute; reflexivity|]. vm_compute. eauto. Qed.

Section more_laws.
Context (clock : nat → Z) (cwd : string) (sm : Security.SecurityManager).



End more_laws.



Section rollback_laws.
Context (cwd : string) (sm : Security.SecurityManager).

Lemma rollbackSingleOperation_bare op w :
  type op ≠ Move →
  rollbackSingleOperation cwd sm
    {| operation := op; backupPath := None; wasCreated := None |} w = (Ok tt, w).
Proof.
  intros Hty. unfold rollbackSingleOperation. cbn [operation backupPath wasCreated].
  destruct (type op); done.
Qed.

End rollback_laws.

(** X17.  The public [rollback(completed)] has no backup information:
    for a list holding only copies and deletes it changes nothing, so
    copied files stay and deleted files are not restored. *)
Theorem rollback_undoes_only_moves cwd sm completed w :
  Forall (λ op, type op ≠ Move) completed →
  rollback cwd sm completed w = w.
Proof.
  unfold rollback. induction completed as [|op l IH] using rev_ind; intros H; [done|].
  apply Forall_app in H as [Hl Hop]. inversion Hop; subst.
  rewrite fmap_app. cbn [fmap list_fmap]. rewrite rollbackOperations_snoc.
  rewrite rollbackSingleOperation_bare by done. by apply IH.
Qed.

Lemma rollback_undoes_only_moves_witness :
  rollback "/" SecurityAux.wsManager [copyOp "a" "c"; deleteOp "b"] (twoFilesDeleted, 2%nat)
  = (twoFilesDeleted, 2%nat).
Proof.
  apply (rollback_undoes_only_moves "/" SecurityAux.wsManager
           [copyOp "a" "c"; deleteOp "b"] (twoFilesDeleted, 2%nat)).
  repeat constructor; discriminate.
Defined.

Lemma calculateDirectorySize_entries fuel p w t es :
  (∀ q t' es', get q w.1 = Some (Dir t' es') → (height (Dir t' es') ≤ fuel)%nat →
     calculateDirectorySize fuel q w = (Ok (totalSize (Dir t' es')), w)) →
  get p w.1 = Some (Dir t es) →
  (height (Dir t es) ≤ S fuel)%nat →
  calculateDirectorySize (S fuel) p w = (Ok (totalSize (Dir t es)), w).
Proof.
  intros IH Hp Hh. cbn [calculateDirectorySize].
  unfold mbindM at 1, readdir, readdirSync. cbn [fst snd]. rewrite Hp.
  rewrite totalSize_Dir.
  assert (Hl : ∀ name entry, (name, entry) ∈ map_to_list es → es !! name = Some entry)
    by (intros ??; apply elem_of_map_to_list).
  change (foldr (λ kv acc, totalSize kv.2 + acc) 0 (map_to_list es))%nat
    with (0 + foldr (λ kv acc, totalSize kv.2 + acc) 0 (map_to_list es))%nat.
  generalize O at 1 2.
  induction (map_to_list es) as [|[name entry] l IHl]; intros total.
  - unfold ret. simpl. by rewrite Nat.add_0_r.
  - assert (es !! name = Some entry) as Hentry by (apply Hl; left).
    assert (get (p ++ [name]) w.1 = Some entry) as Hget.
    { by rewrite (get_snoc_dir _ _ _ _ _ Hp). }
    pose proof (height_child t es name entry Hentry) as Hlt.
    destruct entry as [c tm|tm sub]; cbn [isDirectory].
    + unfold mbindM at 1, stat, statSync. cbn [fst snd]. rewrite Hget.
      rewrite IHl by (intros ?? Hin; apply Hl; by right).
      f_equal. f_equal. simpl. lia.
    + unfold mbindM at 1. rewrite (IH _ _ _ Hget) by lia.
      rewrite IHl by (intros ?? Hin; apply Hl; by right).
      f_equal. f_equal. simpl. lia.
Qed.

(** X18.  [calculateDirectorySize], which walks the directory with
    [readdirSync] and [statSync], returns the sum of the sizes of all
    regular files below the directory, at every depth, and changes
    nothing, whenever the recursion may nest as deep as the tree is
    high. *)
Theorem calculateDirectorySize_total fuel p w t es :
  get p w.1 = Some (Dir t es) →
  (height (Dir t es) ≤ fuel)%nat →
  calculateDirectorySize fuel p w = (Ok (totalSize (Dir t es)), w).
Proof.
  revert p t es. induction fuel as [|fuel IH]; intros p t es Hp Hh.
  - cbn [height] in Hh. lia.
  - by apply calculateDirectorySize_entries.
Qed.

Lemma calculateDirectorySize_total_witness :
  calculateDirectorySize 2 ["ws"; "pkg"] (withPackage, O)
  = (Ok (totalSize (Dir 0 {[ "x" := File "X" 1;
                             "sub" := Dir 0 {[ "y" := File "Y" 2 ]} ]})),
     (withPackage, O)).
Proof.
  apply (calculateDirectorySize_total 2 ["ws"; "pkg"] (withPackage, O) 0
           {[ "x" := File "X" 1; "sub" := Dir 0 {[ "y" := File "Y" 2 ]} ]}).
  - vm_compute. reflexivity.
  - vm_compute. lia.
Defined.

(** X19.  A batch delete does not unlink: when the operation succeeds
    and the backup name was unused, the source path is gone and what it
    held, file or directory, now sits next to it under the name
    [<source>.backup-<Date.now()>], which is what the rollback record
    names. *)
Theorem executeDelete_keeps_backup clock cwd sm fuel op fs k rb fs1 k1 :
  type op = DeleteOp →
  executeOperation clock cwd sm fuel op (fs, k) = (Ok rb, (fs1, k1)) →
  get (shadow (resolved cwd sm (source op)) (clock k)) fs = None →
  rb = (Some (shadow (resolved cwd sm (source op)) (clock k)), None)
  ∧ is_Some (get (resolved cwd sm (source op)) fs)
  ∧ get (resolved cwd sm (source op)) fs1 = None
  ∧ get (shadow (resolved cwd sm (source op)) (clock k)) fs1
    = get (resolved cwd sm (source op)) fs.
Proof.
  intros Hty Hrun Hfresh.
  unfold executeOperation, sourceKind, mbindM in Hrun. rewrite Hty in Hrun.
  rewrite validatePath_eq in Hrun.
  destruct (SecurityAux.firstRejection _ _ _ _) eqn:Hv in Hrun; [discriminate|].
  unfold executeDelete in Hrun.
  unfold mbindM, ret, dateNow, change in Hrun. cbn [fst snd] in Hrun.
  fold (resolved cwd sm (source op)) in Hrun.
  destruct (renameSync _ _ fs) as [fs'| |] eqn:Hren; try discriminate.
  simplify_eq.
  destruct (renameSync_fresh_back _ _ _ _ Hren Hfresh) as (Hap & Hsrc & Hbk & Hback).
  split; [done|]. split; [|by split].
  unfold renameSync in Hren.
  destruct (get (resolved cwd sm (source op)) fs); [eauto|done].
Qed.

Lemma executeDelete_keeps_backup_witness :
  get ["ws"; "b"] twoFilesDeleted = None
  ∧ get ["ws"; "b.backup-1700000000001"] twoFilesDeleted = get ["ws"; "b"] twoFilesCopied.
Proof.
  pose proof (executeDelete_keeps_backup batchClock "/" SecurityAux.wsManager 5
                (deleteOp "b") twoFilesCopied 1%nat
                (Some ["ws"; "b.backup-1700000000001"], None) twoFilesDeleted 2%nat
                ltac:(reflexivity) ltac:(vm_compute; reflexivity)
                ltac:(vm_compute; reflexivity)) as (_ & _ & H1 & H2).
  split; [exact H1 | exact H2].
Defined.

End BatchLaws.

(* ================================================================== *)
(** ** copyDirectory and atomicReplace *)
(* ================================================================== *)

Module DirCopyFacts.
Import Fs FsFacts DirCopy DirCopyAux.

Example copy_package :
  copyDirectory DirOpsAux.steadyClock false [] "/" SecurityAux.wsManager 5
    "pkg" "out" (BatchAux.withPackage, O)
  = Ok ({| filesCopied := 2; bytesTransferred := 2 |}, (withPackageCopied, 4%nat))
  ∧ copyDirectory DirOpsAux.steadyClock true [] "/" SecurityAux.wsManager 5
      "pkg" "out" (BatchAux.withPackage, O)
    = Ok ({| filesCopied := 2; bytesTransferred := 2 |}, (withPackagePreserved, 4%nat)).
Proof. split; vm_compute; reflexivity. Qed.

Lemma utimesSync_inv p mtime fs fs' :
  utimesSync p mtime fs = Ok fs' →
  (∀ q, apart p q → get q fs' = get q fs)
  ∧ (∃ v, get p fs = Some v
          ∧ get p fs' = Some match v with
                             | File c _ => File c mtime
                             | Dir _ es => Dir mtime es
                             end).
Proof.
  unfold utimesSync. destruct (get p fs) as [v|] eqn:Hp; [|done].
  destruct p as [|s p].
  - intros [= <-]. split.
    + intros q [Hq _]. exfalso. apply Hq. apply prefix_nil.
    + exists v. split; [done|]. done.
  - destruct (put _ _ fs) as [fs1|] eqn:Hput; [|done]. intros [= <-]. split.
    + intros q Hq. by eapply put_frame.
    + exists v. split; [done|]. by eapply put_get.
Qed.

Lemma chmodSync_inv p fs fs' : chmodSync p fs = Ok fs' → fs' = fs.
Proof. unfold chmodSync. destruct (get p fs); [|done]. by intros [= <-]. Qed.

Section copy_facts.
Context (clock : nat → Z) (preserveMetadata : bool)
        (exclusionPatterns : list Security.RegExp).

Abbreviation recursiveCopy := (recursiveCopy clock preserveMetadata exclusionPatterns).
Abbreviation copyEntries := (copyEntries clock preserveMetadata exclusionPatterns).
Abbreviation mirrored := (mirrored clock preserveMetadata exclusionPatterns).
Abbreviation entryMirrored := (entryMirrored clock preserveMetadata exclusionPatterns).
Abbreviation stamped := (stamped clock preserveMetadata).
Abbreviation selected := (selected exclusionPatterns).
Abbreviation selectedOf := (selectedOf exclusionPatterns).
Abbreviation copies := (copies clock preserveMetadata exclusionPatterns).

Lemma stamped_mono k0 k1 t t' : (k0 ≤ k1)%nat → stamped k1 t t' → stamped k0 t t'.
Proof.
  unfold DirCopyAux.stamped. destruct preserveMetadata; [done|].
  intros Hle (j & Hj & ->). exists j. split; [lia|done].
Qed.

Lemma mirrored_mono k0 k1 fuel source destination fs :
  (k0 ≤ k1)%nat →
  mirrored k1 fuel source destination fs → mirrored k0 fuel source destination fs.
Proof.
  intros Hle. revert source destination.
  induction fuel as [|fuel IH]; intros source destination; [done|].
  intros (Hd & t & es & Hs & Hentries). split; [done|]. exists t, es. split; [done|].
  intros name entry Hentry Hnot. specialize (Hentries name entry Hentry Hnot).
  destruct entry as [c tm|tm sub].
  - destruct Hentries as (t' & Ht' & Hst). exists t'. split; [done|].
    by eapply stamped_mono.
  - by apply IH.
Qed.

Lemma mirrored_ext k0 fuel source destination fs1 fs2 :
  get source fs1 = get source fs2 →
  get destination fs1 = get destination fs2 →
  mirrored k0 fuel source destination fs1 → mirrored k0 fuel source destination fs2.
Proof.
  revert source destination.
  induction fuel as [|fuel IH]; intros source destination Hsrc Hdst; [done|].
  intros (Hex & t & es & Hs & Hentries).
  split; [by rewrite <- Hdst|]. exists t, es. split; [by rewrite <- Hsrc|].
  intros name entry Hentry Hnot.
  specialize (Hentries name entry Hentry Hnot).
  destruct entry as [c tm|tm sub].
  - by rewrite get_app, <- Hdst, <- get_app.
  - eapply IH; [| |exact Hentries]; by rewrite !get_app, ?Hsrc, ?Hdst.
Qed.

Lemma selected_Dir measure p t es :
  selected measure p (Dir t es) = selectedOf measure p (map_to_list es).
Proof.
  cbn [DirCopyAux.selected]. rewrite map_fold_foldr. unfold DirCopyAux.selectedOf.
  induction (map_to_list es) as [|[k c] l IH]; [done|]. simpl. by rewrite IH.
Qed.

Lemma copyEntries_establishes fuel source destination t es l :
  copies fuel →
  apart source destination →
  NoDup l.*1 →
  (∀ name entry, (name, entry) ∈ l → es !! name = Some entry) →
  ∀ acc w r w',
    get source w.1 = Some (Dir t es) →
    is_Some (get destination w.1) →
    copyEntries (recursiveCopy fuel) source destination l acc w = Ok (r, w') →
    (∀ q, (∀ name, name ∈ l.*1 → apart (destination ++ [name]) q) →
          get q w'.1 = get q w.1)
    ∧ is_Some (get destination w'.1)
    ∧ (w.2 ≤ w'.2)%nat
    ∧ (∀ name entry, (name, entry) ∈ l →
         entryMirrored (mirrored w.2 fuel) w.2 source destination w'.1 name entry)
    ∧ filesCopied r = (filesCopied acc + selectedOf (λ _, 1%nat) source l)%nat
    ∧ bytesTransferred r = (bytesTransferred acc + selectedOf sizeOf source l)%nat.
Proof.
  intros IH Hap. induction l as [|[name entry] l IHl]; intros Hnd Hl acc w r w'
    Hsrc Hdst Hrun.
  { simpl in Hrun. simplify_eq. unfold DirCopyAux.selectedOf. simpl.
    repeat split; try done; try lia.
    intros ?? Hin. by apply elem_of_nil in Hin. }
  assert (es !! name = Some entry) as Hentry by (apply Hl; left).
  apply NoDup_cons in Hnd as [Hfresh Hnd].
  assert (∀ name entry, (name, entry) ∈ l → es !! name = Some entry) as Hl'.
  { intros ?? Hin. apply Hl. by right. }
  specialize (IHl Hnd Hl').
  assert (Hsrc_apart : ∀ name', apart (destination ++ [name']) source).
  { intros name'. apply apart_app_l. by apply apart_sym. }
  assert (Hgetentry : get (source ++ [name]) w.1 = Some entry).
  { by rewrite (get_snoc_dir _ _ _ _ _ Hsrc). }
  (* what processing the head entry does, as one step to [wm] *)
  assert (∃ accm wm,
    copyEntries (recursiveCopy fuel) source destination l accm wm = Ok (r, w')
    ∧ (∀ q, apart (destination ++ [name]) q → get q wm.1 = get q w.1)
    ∧ is_Some (get destination wm.1)
    ∧ (w.2 ≤ wm.2)%nat
    ∧ entryMirrored (mirrored w.2 fuel) w.2 source destination wm.1 name entry
    ∧ filesCopied accm
      = (filesCopied acc + selectedOf (λ _, 1%nat) source [(name, entry)])%nat
    ∧ bytesTransferred accm
      = (bytesTransferred acc + selectedOf sizeOf source [(name, entry)])%nat)
    as (accm & wm & Hrest & Hframe & Hdstm & Hk & Hhead & Hcnt & Hbytes).
  { cbn [DirCopy.copyEntries] in Hrun. unfold DirCopyAux.selectedOf. cbn [foldr fst snd].
    destruct (DirOps.shouldExclude _ _) eqn:Hex.
    { exists acc, w. repeat split; try done; try lia. intros Hno. congruence. }
    destruct entry as [c tm|tm sub]; cbn [isDirectory] in Hrun.
    - unfold statSync in Hrun. rewrite Hgetentry in Hrun. cbn [bind] in Hrun.
      unfold copyFileSync in Hrun. rewrite Hgetentry in Hrun.
      rewrite bool_decide_eq_false_2 in Hrun.
      2:{ intros Heq. apply app_inj_tail in Heq as [-> _].
          by destruct Hap as [Hap _]. }
      assert (∃ fs1, put (destination ++ [name]) (File c (clock w.2)) w.1 = Some fs1
                ∧ bind (if preserveMetadata
                        then bind (utimesSync (destination ++ [name])
                                     (mtimeOf (File c tm)) fs1)
                                  (chmodSync (destination ++ [name]))
                        else Ok fs1)
                    (λ fs2, copyEntries (recursiveCopy fuel) source destination l
                              {| filesCopied := filesCopied acc + 1;
                                 bytesTransferred :=
                                   bytesTransferred acc + sizeOf (File c tm) |}
                              (fs2, S w.2)) = Ok (r, w')) as (fs1 & Hput & Hrun1).
      { destruct (get (destination ++ [name]) w.1) as [[c' tm'|tm' sub']|];
          try done; destruct (put _ _ w.1) as [fs1|]; try done; by exists fs1. }
      clear Hrun.
      assert (∃ fs2 t',
                copyEntries (recursiveCopy fuel) source destination l
                  {| filesCopied := filesCopied acc + 1;
                     bytesTransferred := bytesTransferred acc + sizeOf (File c tm) |}
                  (fs2, S w.2) = Ok (r, w')
                ∧ (∀ q, apart (destination ++ [name]) q → get q fs2 = get q fs1)
                ∧ get (destination ++ [name]) fs2 = Some (File c t')
                ∧ stamped w.2 tm t') as (fs2 & t' & Hrun2 & Hfr2 & Hget2 & Hst).
      { assert (preserveMetadata = true ∨ preserveMetadata = false) as [Hpm|Hpm]
          by (destruct preserveMetadata; auto); rewrite Hpm in Hrun1 |- *.
        - destruct (utimesSync _ _ fs1) as [fsu| |] eqn:Hut; try done.
          cbn [bind] in Hrun1.
          destruct (chmodSync _ fsu) as [fs2| |] eqn:Hch; try done.
          cbn [bind] in Hrun1. apply chmodSync_inv in Hch as ->.
          apply utimesSync_inv in Hut as (Hfru & v & Hv & Hv').
          rewrite (put_get _ _ _ _ Hput) in Hv. injection Hv as <-.
          exists fsu, tm. split; [done|]. split; [done|]. split; [exact Hv'|].
          by unfold DirCopyAux.stamped.
        - cbn [bind] in Hrun1. exists fs1, (clock w.2). split; [done|].
          split; [done|]. split; [by eapply put_get|].
          unfold DirCopyAux.stamped. exists w.2. done. }
      eexists _, (fs2, S w.2). split; [exact Hrun2|]. cbn [fst snd].
      split; [intros q Hq; rewrite Hfr2 by done; by eapply put_frame|].
      split.
      { apply (get_prefix_is_Some destination [name]). rewrite Hget2. eauto. }
      split; [lia|]. split; [intros _; by exists t'|].
      cbn [DirCopyAux.selected sizeOf]. split; simpl; lia.
    - destruct (recursiveCopy fuel (source ++ [name]) (destination ++ [name]) w)
        as [[r0 wm]| |] eqn:Hrec; try done. cbn [bind] in Hrun.
      destruct (IH _ _ _ _ _ (apart_app _ _ [name] [name] Hap) Hrec)
        as (Hmi & Hfr & Hk & Hcount).
      destruct (Hcount _ Hgetentry) as [Hc1 Hc2].
      eexists _, wm. split; [exact Hrun|]. split; [done|].
      split.
      { destruct fuel as [|fuel']; [done|]. destruct Hmi as [Hsome _].
        by eapply get_prefix_is_Some. }
      split; [done|]. split; [by intros _|]. cbn [filesCopied bytesTransferred].
      rewrite Hc1, Hc2. split; lia. }
  assert (get source wm.1 = Some (Dir t es)) as Hsrcm.
  { rewrite Hframe; [done|]. apply Hsrc_apart. }
  destruct (IHl accm wm r w' Hsrcm Hdstm Hrest)
    as (Hframe' & Hdst' & Hk' & Hall & Hcnt' & Hbytes').
  split.
  { intros q Hq. rewrite Hframe'.
    - apply Hframe. apply Hq. left.
    - intros name' Hin. apply Hq. by right. }
  split; [done|]. split; [lia|].
  split.
  2:{ rewrite Hcnt', Hbytes', Hcnt, Hbytes. unfold DirCopyAux.selectedOf.
      cbn [foldr fst snd]. split; lia. }
  intros name' entry' Hin.
  apply elem_of_cons in Hin as [[= -> ->]|Hin].
  2:{ intros Hnot. specialize (Hall _ _ Hin Hnot).
      destruct entry' as [c tm|tm sub].
      - destruct Hall as (t' & Ht' & Hst). exists t'. split; [done|].
        by eapply stamped_mono.
      - by eapply mirrored_mono. }
  assert (∀ x, get (destination ++ [name] ++ x) w'.1
               = get (destination ++ [name] ++ x) wm.1) as Hd'.
  { intros x. apply Hframe'. intros name' Hin'. rewrite app_assoc.
    apply apart_sym, apart_app_l, apart_siblings. intros ->. done. }
  assert (get (source ++ [name]) w'.1 = get (source ++ [name]) wm.1) as Hs'.
  { apply Hframe'. intros name' Hin'. apply apart_sym, apart_app, Hap. }
  intros Hnot. specialize (Hhead Hnot).
  destruct entry as [c tm|tm sub].
  - destruct Hhead as (t' & Hd & Hst). exists t'. split; [|done].
    specialize (Hd' []). rewrite app_nil_r in Hd'. by rewrite Hd'.
  - eapply mirrored_ext; [| |exact Hhead]; [done|].
    specialize (Hd' []). rewrite app_nil_r in Hd'. done.
Qed.

Lemma recursiveCopy_establishes fuel : copies fuel.
Proof.
  induction fuel as [|fuel IH];
    intros source destination w r w' Hap Hrun; [done|].
  cbn [DirCopy.recursiveCopy] in Hrun.
  assert (∃ w1,
    bind (readdirSync source w1.1) (λ entries,
      copyEntries (recursiveCopy fuel) source destination entries
        {| filesCopied := 0; bytesTransferred := 0 |} w1)
    = Ok (r, w')
    ∧ (∀ q, apart destination q → get q w1.1 = get q w.1)
    ∧ is_Some (get destination w1.1)
    ∧ (w.2 ≤ w1.2)%nat) as (w1 & Hrun1 & Hframe1 & Hdst1 & Hk1).
  { destruct (existsSync destination w.1) eqn:Hex.
    - exists w. cbn [bind] in Hrun. repeat split; try done.
      by apply bool_decide_eq_true in Hex.
    - destruct (mkdirp destination (clock w.2) w.1) as [fs1| |] eqn:Hmk;
        try done. cbn [bind] in Hrun.
      assert (∃ fs2, bind (readdirSync source fs2) (λ entries,
                  copyEntries (recursiveCopy fuel) source destination entries
                    {| filesCopied := 0; bytesTransferred := 0 |} (fs2, S w.2))
                = Ok (r, w')
                ∧ (∀ q, apart destination q → get q fs2 = get q fs1)
                ∧ is_Some (get destination fs2)) as (fs2 & Hrun2 & Hfr2 & Hd2).
      { assert (preserveMetadata = true ∨ preserveMetadata = false) as [Hpm|Hpm]
          by (destruct preserveMetadata; auto); rewrite Hpm in Hrun |- *.
        - destruct (statSync source fs1) as [st| |]; try done. cbn [bind] in Hrun.
          destruct (utimesSync _ _ fs1) as [fsu| |] eqn:Hut; try done.
          cbn [bind] in Hrun.
          destruct (chmodSync _ fsu) as [fs2| |] eqn:Hch; try done.
          cbn [bind] in Hrun. apply chmodSync_inv in Hch as ->.
          apply utimesSync_inv in Hut as (Hfru & v & Hv & Hv').
          exists fsu. split; [done|]. split; [done|]. rewrite Hv'. eauto.
        - cbn [bind] in Hrun. exists fs1. split; [done|]. split; [done|].
          by eapply mkdirp_exists. }
      exists (fs2, S w.2). split; [done|]. cbn [fst snd].
      split; [intros q Hq; rewrite Hfr2 by done; by eapply mkdirp_frame|].
      split; [done | lia]. }
  clear Hrun. unfold readdirSync in Hrun1.
  assert (get source w1.1 = get source w.1) as Hsrc1.
  { apply Hframe1. by apply apart_sym. }
  destruct (get source w1.1) as [[c tm|t es]|] eqn:Hsrc; try done.
  cbn [bind] in Hrun1.
  destruct (copyEntries_establishes fuel source destination t es (map_to_list es)
              IH Hap (NoDup_fst_map_to_list es)
              ltac:(intros ?? Hin; by apply elem_of_map_to_list)
              _ w1 r w' Hsrc Hdst1 Hrun1)
    as (Hframe & Hdst & Hk & Hall & Hcnt & Hbytes).
  assert (∀ q, apart destination q → get q w'.1 = get q w1.1) as Hframe'.
  { intros q Hq. apply Hframe. intros name _. by apply apart_app_l. }
  split; [|split; [|split; [lia|]]].
  - split; [done|]. exists t, es. split.
    + rewrite Hframe'; [done | by apply apart_sym].
    + intros name entry Hentry Hnot.
      pose proof (Hall name entry ltac:(by apply elem_of_map_to_list) Hnot) as Hm.
      destruct entry as [c tm|tm sub].
      * destruct Hm as (t' & Ht' & Hst). exists t'. split; [done|].
        by eapply stamped_mono.
      * by eapply mirrored_mono.
  - intros q Hq. rewrite Hframe' by done. by apply Hframe1.
  - intros s Hs. rewrite <- Hsrc1 in Hs. simplify_eq.
    rewrite !selected_Dir. cbn [filesCopied bytesTransferred] in *.
    split; [exact Hcnt | exact Hbytes].
Qed.

Lemma mirrored_file k0 fuel source destination fs q c t :
  mirrored k0 fuel source destination fs →
  get (source ++ q) fs = Some (File c t) →
  visible exclusionPatterns source q →
  ∃ t', get (destination ++ q) fs = Some (File c t') ∧ stamped k0 t t'.
Proof.
  revert source destination q.
  induction fuel as [|fuel IH]; intros source destination q Hm Hq Hvis; [done|].
  destruct Hm as (_ & td & es & Hs & Hentries).
  destruct q as [|name q].
  { rewrite app_nil_r in Hq. congruence. }
  assert (Hex : DirOps.shouldExclude (render (source ++ [name])) exclusionPatterns
                = false) by (by apply (Hvis [] name q)).
  rewrite get_app, Hs in Hq. cbn [mbind option_bind] in Hq.
  rewrite get_cons in Hq.
  destruct (es !! name) as [entry|] eqn:Hentry; [|done].
  cbn [mbind option_bind] in Hq.
  specialize (Hentries name entry Hentry Hex).
  destruct entry as [c' tm|tm sub].
  - destruct q; [|done]. simpl in Hq. simplify_eq. exact Hentries.
  - change (name :: q) with ([name] ++ q). rewrite !app_assoc.
    apply (IH (source ++ [name]) (destination ++ [name]) q); [done| |].
    + by rewrite get_app, (get_snoc_dir _ _ _ _ _ Hs), Hentry.
    + intros q1 name' q2 ->. rewrite <- app_assoc.
      by apply (Hvis (name :: q1) name' q2).
Qed.

End copy_facts.

Lemma shouldExclude_nil p : DirOps.shouldExclude p [] = false.
Proof. reflexivity. Qed.

Lemma foldr_ext_elem {A} (f g : A → nat → nat) (l : list A) :
  (∀ x a, x ∈ l → f x a = g x a) → foldr f O l = foldr g O l.
Proof.
  induction l as [|x l IH]; intros H; [done|]. simpl.
  rewrite IH by (intros; apply H; by right). apply H. left.
Qed.

(** Without exclusion patterns every file is selected. *)
Lemma selected_nil p n :
  selected [] (λ _, 1%nat) p n = Tree.fileCount n
  ∧ selected [] sizeOf p n = Tree.totalSize n.
Proof.
  revert p. induction n as [n IH] using TreeFacts.node_height_ind. intros p.
  destruct n as [c t|t es]; [done|].
  cbn [selected Tree.fileCount Tree.totalSize]. rewrite !map_fold_foldr.
  split; apply foldr_ext_elem; intros [name c] a Hin; cbn [uncurry fst snd];
    apply elem_of_map_to_list in Hin;
    rewrite shouldExclude_nil;
    destruct (IH c (TreeFacts.height_child t es name c Hin) (p ++ [name])) as [H1 H2];
    congruence.
Qed.

(** X20.  A finished [copyDirectory] whose validated source and
    destination do not contain one another has copied every file below
    the source that no exclusion pattern screens out (the file or a
    directory on the way to it): the destination holds a file with the
    same bytes at the same relative path, carrying the source's
    modification time when [preserveMetadata] is set; and nothing outside
    the destination, the source included, has changed. *)
Theorem copyDirectory_copies_every_file clock preserveMetadata exclusionPatterns
    cwd sm fuel source destination fs k r fs1 k1 :
  let validatedSource :=
    segments (Path.resolve cwd [Security.workspaceRoot sm; source]) in
  let validatedDest :=
    segments (Path.resolve cwd [Security.workspaceRoot sm; destination]) in
  apart validatedSource validatedDest →
  copyDirectory clock preserveMetadata exclusionPatterns cwd sm fuel
    source destination (fs, k) = Ok (r, (fs1, k1)) →
  (∀ q c t,
     get (validatedSource ++ q) fs = Some (File c t) →
     visible exclusionPatterns validatedSource q →
     ∃ t', get (validatedDest ++ q) fs1 = Some (File c t')
           ∧ (preserveMetadata = true → t' = t))
  ∧ (∀ q, apart validatedDest q → get q fs1 = get q fs).
Proof.
  intros validatedSource validatedDest Hap Hrun.
  unfold copyDirectory in Hrun. cbn [fst snd] in Hrun.
  destruct (Fs.validatePath cwd sm fs source Security.Read) as [vs| |] eqn:Hvs;
    try done. cbn [bind] in Hrun.
  destruct (Fs.validatePath cwd sm fs destination Security.Write) as [vd| |] eqn:Hvd;
    try done. cbn [bind] in Hrun.
  apply DirOpsFacts.validatePath_Ok in Hvs as ->.
  apply DirOpsFacts.validatePath_Ok in Hvd as ->.
  fold validatedSource validatedDest in Hrun.
  destruct (get validatedSource fs) as [[c tm|t es]|] eqn:Hsrc; try done.
  destruct (recursiveCopy_establishes clock preserveMetadata exclusionPatterns fuel
              validatedSource validatedDest (fs, k) r (fs1, k1) Hap Hrun)
    as (Hmirror & Hframe & _ & _).
  cbn [fst snd] in *. split; [|done].
  intros q c t' Hq Hvis.
  assert (get (validatedSource ++ q) fs1 = Some (File c t')) as Hq1.
  { rewrite Hframe; [done|]. apply apart_sym, apart_app_l, Hap. }
  destruct (mirrored_file _ _ _ _ _ _ _ _ _ _ _ Hmirror Hq1 Hvis) as (t2 & Ht2 & Hst).
  exists t2. split; [done|]. intros Hpm. unfold stamped in Hst. by rewrite Hpm in Hst.
Qed.

(** X21.  The counters a finished [copyDirectory] reports are those of
    the files it was to copy: [filesCopied] is the number of files below
    the source that no exclusion pattern screens out and
    [bytesTransferred] the sum of their sizes; without exclusion patterns,
    the number of files of the source tree and their total size. *)
Theorem copyDirectory_counts clock preserveMetadata exclusionPatterns
    cwd sm fuel source destination fs k r fs1 k1 s :
  let validatedSource :=
    segments (Path.resolve cwd [Security.workspaceRoot sm; source]) in
  let validatedDest :=
    segments (Path.resolve cwd [Security.workspaceRoot sm; destination]) in
  apart validatedSource validatedDest →
  get validatedSource fs = Some s →
  copyDirectory clock preserveMetadata exclusionPatterns cwd sm fuel
    source destination (fs, k) = Ok (r, (fs1, k1)) →
  filesCopied r = selected exclusionPatterns (λ _, 1%nat) validatedSource s
  ∧ bytesTransferred r = selected exclusionPatterns sizeOf validatedSource s
  ∧ (exclusionPatterns = [] →
     filesCopied r = Tree.fileCount s ∧ bytesTransferred r = Tree.totalSize s).
Proof.
  intros validatedSource validatedDest Hap Hs Hrun.
  unfold copyDirectory in Hrun. cbn [fst snd] in Hrun.
  destruct (Fs.validatePath cwd sm fs source Security.Read) as [vs| |] eqn:Hvs;
    try done. cbn [bind] in Hrun.
  destruct (Fs.validatePath cwd sm fs destination Security.Write) as [vd| |] eqn:Hvd;
    try done. cbn [bind] in Hrun.
  apply DirOpsFacts.validatePath_Ok in Hvs as ->.
  apply DirOpsFacts.validatePath_Ok in Hvd as ->.
  fold validatedSource validatedDest in Hrun. rewrite Hs in Hrun.
  destruct s as [c tm|t es]; try done.
  destruct (recursiveCopy_establishes clock preserveMetadata exclusionPatterns fuel
              validatedSource validatedDest (fs, k) r (fs1, k1) Hap Hrun)
    as (_ & _ & _ & Hcount).
  destruct (Hcount _ Hs) as [Hc Hb]. split; [done|]. split; [done|].
  intros ->. destruct (selected_nil validatedSource (Dir t es)) as [H1 H2].
  split; congruence.
Qed.

Lemma mirrored_synced clock preserveMetadata exclusionPatterns k0 fuel
    source destination fs s :
  mirrored clock preserveMetadata exclusionPatterns k0 fuel source destination fs →
  get source fs = Some s →
  preserveMetadata = true ∨ DirOpsAux.mtimesNotAhead clock k0 s →
  DirOpsAux.synced exclusionPatterns fuel source destination fs.
Proof.
  revert source destination s.
  induction fuel as [|fuel IH]; intros source destination s Hm Hs Hcase; [done|].
  destruct Hm as (Hd & t & es & Hsrc & Hentries).
  rewrite Hsrc in Hs. injection Hs as <-.
  split; [done|]. exists t, es. split; [done|].
  intros name entry Hentry Hnot. specialize (Hentries name entry Hentry Hnot).
  destruct entry as [c tm|tm sub].
  - destruct Hentries as (t' & Ht' & Hst). exists (File c t'). split; [done|].
    cbn [mtimeOf]. unfold stamped in Hst.
    destruct Hcase as [Hpm|Hmt].
    + rewrite Hpm in Hst. lia.
    + destruct preserveMetadata; [lia|]. destruct Hst as (j & Hj & ->).
      apply (Hmt [name] c tm j); [|done]. by rewrite get_cons, Hentry.
  - eapply IH; [exact Hentries| |].
    + by rewrite (get_snoc_dir _ _ _ _ _ Hsrc).
    + destruct Hcase as [Hpm|Hmt]; [by left|right].
      by eapply DirOpsFacts.mtimesNotAhead_entry.
Qed.

(** X22.  A [syncDirectory] run right after a finished [copyDirectory]
    of the same source to the same destination, with the same exclusion
    patterns, copies nothing and leaves the filesystem as it is, provided
    source and destination do not contain one another and either the copy
    preserved the modification times or no source file carries a
    modification time later than the times the copy wrote at. *)
Theorem copy_then_sync_copies_nothing clock preserveMetadata exclusionPatterns
    cwd sm fuel source destination fs k r fs1 k1 :
  let validatedSource :=
    segments (Path.resolve cwd [Security.workspaceRoot sm; source]) in
  let validatedDest :=
    segments (Path.resolve cwd [Security.workspaceRoot sm; destination]) in
  apart validatedSource validatedDest →
  (preserveMetadata = true
   ∨ ∀ s, get validatedSource fs = Some s → DirOpsAux.mtimesNotAhead clock k s) →
  copyDirectory clock preserveMetadata exclusionPatterns cwd sm fuel
    source destination (fs, k) = Ok (r, (fs1, k1)) →
  ∃ r2,
    DirOps.syncDirectory clock exclusionPatterns cwd sm fuel source destination
      (fs1, k1) = Ok (r2, (fs1, k1))
    ∧ DirOps.filesCopied r2 = 0%nat
    ∧ DirOps.bytesTransferred r2 = 0%nat.
Proof.
  intros validatedSource validatedDest Hap Hcase Hrun.
  unfold copyDirectory in Hrun. unfold DirOps.syncDirectory. cbn [fst snd] in *.
  rewrite (DirOpsFacts.validatePath_any_tree cwd sm fs1 fs source).
  rewrite (DirOpsFacts.validatePath_any_tree cwd sm fs1 fs destination).
  destruct (Fs.validatePath cwd sm fs source Security.Read) as [vs| |] eqn:Hvs;
    try done. cbn [bind] in *.
  destruct (Fs.validatePath cwd sm fs destination Security.Write) as [vd| |] eqn:Hvd;
    try done. cbn [bind] in *.
  apply DirOpsFacts.validatePath_Ok in Hvs as ->.
  apply DirOpsFacts.validatePath_Ok in Hvd as ->.
  fold validatedSource validatedDest in Hrun |- *.
  destruct (get validatedSource fs) as [[c tm|t es]|] eqn:Hsrc; try done.
  destruct (recursiveCopy_establishes clock preserveMetadata exclusionPatterns fuel
              validatedSource validatedDest (fs, k) r (fs1, k1) Hap Hrun)
    as (Hmirror & Hframe & _ & _).
  cbn [fst snd] in *.
  assert (get validatedSource fs1 = Some (Dir t es)) as Hsrc1.
  { rewrite Hframe; [done | by apply apart_sym]. }
  rewrite Hsrc1.
  assert (DirOpsAux.synced exclusionPatterns fuel validatedSource validatedDest fs1)
    as Hsynced.
  { eapply mirrored_synced; [exact Hmirror | exact Hsrc1 |].
    destruct Hcase as [Hpm|Hmt]; [by left | right; by apply Hmt]. }
  destruct (DirOpsFacts.synced_sync_noop clock exclusionPatterns fuel validatedSource
              validatedDest fs1 Hsynced k1) as (r2 & Hr2 & Hc & Hb).
  exists r2. split; [done|]. by split.
Qed.

(** X23.  [atomicReplace] is all or nothing when the temporary name is
    not in use: if it returns, the target is a file holding the new
    content and every path beside the target holds what it held before,
    so no temporary file is left; if it throws, the tree is exactly as it
    was. *)
Theorem atomicReplace_all_or_nothing clock cwd sm tempFileName targetPath content
    fs k outcome fs' k' :
  let target := segments (Path.resolve cwd [Security.workspaceRoot sm; targetPath]) in
  get (parent target ++ [tempFileName]) fs = None →
  atomicReplace clock cwd sm tempFileName targetPath content (fs, k)
  = (outcome, (fs', k')) →
  match outcome with
  | Ok _ =>
      get target fs' = Some (File content (clock k))
      ∧ ∀ q, apart target q → get q fs' = get q fs
  | Err _ => fs' = fs
  | OutOfFuel => True
  end.
Proof.
  intros target Hfresh Hrun. unfold atomicReplace in Hrun. cbn [fst snd] in Hrun.
  destruct (Fs.validatePath cwd sm fs targetPath Security.Write) as [vt|e|] eqn:Hvt.
  2:{ by simplify_eq. }
  2:{ by simplify_eq. }
  apply DirOpsFacts.validatePath_Ok in Hvt as ->. fold target in Hrun.
  set (tempPath := parent target ++ [tempFileName]) in *.
  unfold writeFileSync in Hrun. rewrite Hfresh in Hrun.
  destruct (put tempPath (File content (clock k)) fs) as [fs1|] eqn:Hput.
  2:{ unfold existsSync in Hrun. rewrite Hfresh in Hrun.
      rewrite bool_decide_eq_false_2 in Hrun by (by intros [? ?]). by simplify_eq. }
  pose proof (remove_put_fresh _ _ _ _ Hfresh Hput) as Hback.
  pose proof (put_get _ _ _ _ Hput) as Htemp.
  destruct (renameSync tempPath target fs1) as [fs2|e|] eqn:Hren.
  - simplify_eq. unfold renameSync in Hren. rewrite Htemp in Hren.
    case_bool_decide as Heq.
    + injection Hren as <-. rewrite <- Heq. split; [done|].
      intros q Hq. eapply put_frame; [exact Hput | exact Hq].
    + case_bool_decide; [done|].
      destruct (match get target fs1 with
                | Some (Dir _ _) => Some EISDIR
                | _ => None
                end) eqn:Hclash; [done|].
      rewrite Hback in Hren. cbn [mbind option_bind] in Hren.
      destruct (put target _ fs) as [fs3|] eqn:Hput2; [|done]. simplify_eq.
      split; [by eapply put_get | intros q Hq; by eapply put_frame].
  - unfold existsSync in Hrun. cbn [fst snd] in Hrun. rewrite Htemp in Hrun.
    rewrite bool_decide_eq_true_2 in Hrun by eauto.
    unfold unlinkSync in Hrun. rewrite Htemp, Hback in Hrun. by simplify_eq.
  - by simplify_eq.
Qed.

Lemma apart_pkg_out :
  apart (segments (Path.resolve "/" [Security.workspaceRoot SecurityAux.wsManager; "pkg"]))
        (segments (Path.resolve "/" [Security.workspaceRoot SecurityAux.wsManager; "out"])).
Proof. split; intros [x Hx]; vm_compute in Hx; discriminate. Qed.

Lemma copy_preserved_run :
  copyDirectory DirOpsAux.steadyClock true [] "/" SecurityAux.wsManager 5
    "pkg" "out" (BatchAux.withPackage, O)
  = Ok ({| filesCopied := 2; bytesTransferred := 2 |}, (withPackagePreserved, 4%nat)).
Proof. vm_compute. reflexivity. Qed.

Lemma copyDirectory_copies_every_file_witness :
  ∃ t', get (["ws"; "out"] ++ ["sub"; "y"]) withPackagePreserved = Some (File "Y" t')
        ∧ (true = true → t' = 2).
Proof.
  pose proof (copyDirectory_copies_every_file DirOpsAux.steadyClock true [] "/"
                SecurityAux.wsManager 5 "pkg" "out" BatchAux.withPackage O
                {| filesCopied := 2; bytesTransferred := 2 |}
                withPackagePreserved 4%nat) as H.
  cbv zeta in H. destruct (H apart_pkg_out copy_preserved_run) as [Hfiles _].
  clear H.
  apply (Hfiles ["sub"; "y"] "Y" 2).
  - vm_compute. reflexivity.
  - intros q1 name q2 _. reflexivity.
Defined.

Lemma copyDirectory_counts_witness :
  filesCopied {| filesCopied := 2; bytesTransferred := 2 |}
  = Tree.fileCount (Dir 0 {[ "x" := File "X" 1;
                             "sub" := Dir 0 {[ "y" := File "Y" 2 ]} ]})
  ∧ bytesTransferred {| filesCopied := 2; bytesTransferred := 2 |}
    = Tree.totalSize (Dir 0 {[ "x" := File "X" 1;
                               "sub" := Dir 0 {[ "y" := File "Y" 2 ]} ]}).
Proof.
  pose proof (copyDirectory_counts DirOpsAux.steadyClock true [] "/"
                SecurityAux.wsManager 5 "pkg" "out" BatchAux.withPackage O
                {| filesCopied := 2; bytesTransferred := 2 |}
                withPackagePreserved 4%nat
                (Dir 0 {[ "x" := File "X" 1;
                          "sub" := Dir 0 {[ "y" := File "Y" 2 ]} ]})) as H.
  cbv zeta in H.
  destruct (H apart_pkg_out ltac:(vm_compute; reflexivity) copy_preserved_run)
    as (_ & _ & Hall).
  by apply Hall.
Defined.

Lemma copy_then_sync_copies_nothing_witness :
  ∃ r2,
    DirOps.syncDirectory DirOpsAux.steadyClock [] "/" SecurityAux.wsManager 5
      "pkg" "out" (withPackagePreserved, 4%nat)
    = Ok (r2, (withPackagePreserved, 4%nat))
    ∧ DirOps.filesCopied r2 = 0%nat
    ∧ DirOps.bytesTransferred r2 = 0%nat.
Proof.
  pose proof (copy_then_sync_copies_nothing DirOpsAux.steadyClock true [] "/"
                SecurityAux.wsManager 5 "pkg" "out" BatchAux.withPackage O
                {| filesCopied := 2; bytesTransferred := 2 |}
                withPackagePreserved 4%nat) as H.
  cbv zeta in H. apply H; [exact apart_pkg_out | by left | exact copy_preserved_run].
Defined.

Lemma atomicReplace_all_or_nothing_witness :
  ∃ fs',
    atomicReplace DirOpsAux.steadyClock "/" SecurityAux.wsManager ".tmp-00ff"
      "pkg/x" "NEW" (BatchAux.withPackage, O) = (Ok tt, (fs', 1%nat))
    ∧ get ["ws"; "pkg"; "x"] fs' = Some (File "NEW" 1000)
    ∧ get ["ws"; "pkg"; ".tmp-00ff"] fs' = None.
Proof.
  destruct (atomicReplace DirOpsAux.steadyClock "/" SecurityAux.wsManager ".tmp-00ff"
              "pkg/x" "NEW" (BatchAux.withPackage, O)) as [outcome [fs' k']] eqn:Hrun.
  pose proof (atomicReplace_all_or_nothing DirOpsAux.steadyClock "/"
                SecurityAux.wsManager ".tmp-00ff" "pkg/x" "NEW"
                BatchAux.withPackage O outcome fs' k') as H.
  cbv zeta in H. specialize (H ltac:(vm_compute; reflexivity) Hrun).
  assert (outcome = Ok tt ∧ k' = 1%nat) as [-> ->].
  { vm_compute in Hrun. by injection Hrun as <- _ <-. }
  destruct H as [Htarget Hframe].
  exists fs'. split; [done|].
  split; [etransitivity; [exact Htarget | vm_compute; reflexivity]|].
  rewrite Hframe; [vm_compute; reflexivity|].
  split; intros [x Hx]; vm_compute in Hx; discriminate.
Defined.

End DirCopyFacts.

(* ================================================================== *)
(** ** Facts about the disk usage analyzer *)
(* ================================================================== *)

Module DiskUsageFacts.
Import Fs FsFacts Path PathAux PathFacts TreeFacts DiskUsage DiskUsageAux.

Lemma split_slashFree s : slashFree s = true → split s = [s].
Proof.
  intros H. unfold split. rewrite <- (append_nil_r s) at 1.
  rewrite split_go_slashFree by done. simpl. fold (String.rev s).
  by rewrite string_rev_involutive.
Qed.

Lemma split_joined segs :
  Forall (λ s, slashFree s = true) segs → segs ≠ [] →
  split (joinSegments segs) = segs.
Proof.
  induction 1 as [|s segs Hs Hsegs IH]; intros Hne; [done|].
  destruct segs as [|s2 segs].
  - by apply split_slashFree.
  - change (joinSegments (s :: s2 :: segs))
      with (s +:+ "/" +:+ joinSegments (s2 :: segs)).
    rewrite split_segment by done. by rewrite IH.
Qed.

Lemma kept_nonempty s : kept s = true → s ≠ "".
Proof.
  unfold kept. intros H ->. by vm_compute in H.
Qed.

Lemma segments_render segs :
  Forall (λ s, kept s = true) segs → segments (render segs) = segs.
Proof.
  intros H. unfold segments, render.
  change ("/" +:+ joinSegments segs) with ("" +:+ "/" +:+ joinSegments segs).
  rewrite split_segment by done.
  rewrite filter_cons_False by (intros Hn; by apply Hn).
  destruct segs as [|s segs]; [done|].
  rewrite split_joined; [|by eapply Forall_impl; [done|apply kept_slashFree]|done].
  induction H as [|x l Hx Hl IH]; [done|].
  rewrite filter_cons_True by by apply kept_nonempty. by rewrite IH.
Qed.

Lemma resolve_rendered cwd root segs :
  Forall (λ s, kept s = true) segs →
  resolve cwd [root; render segs] = render segs.
Proof.
  intros Hsegs. unfold render, resolve. cbn [rev app resolve_go].
  rewrite bool_decide_eq_false_2 by done.
  change (isAbsolute ("/" +:+ joinSegments segs)) with (bool_decide (slash = slash)).
  rewrite bool_decide_eq_true_2 by done.
  change ("/" +:+ "") with "/".
  by apply normalizeAbsolute_rendered.
Qed.

Lemma validatePath_rendered cwd sm fs q op r :
  Forall (λ s, kept s = true) q →
  validatePath cwd sm fs (render q) op = Ok r → r = render q.
Proof.
  intros Hq H. apply DirOpsFacts.validatePath_Ok in H as ->.
  by apply resolve_rendered.
Qed.

Lemma validatePath_segments cwd sm fs d op v :
  validatePath cwd sm fs d op = Ok v →
  Forall (λ s, kept s = true) (segments v) ∧ render (segments v) = v.
Proof.
  intros H. apply DirOpsFacts.validatePath_Ok in H as ->.
  destruct (resolve_kept cwd [Security.workspaceRoot sm; d]) as (segs & Hsegs & ->).
  change ("/" +:+ joinSegments segs) with (render segs).
  by rewrite segments_render.
Qed.


Lemma fileCount_Dir t es :
  Tree.fileCount (Dir t es)
  = foldr (λ kv acc, Tree.fileCount kv.2 + acc)%nat O (map_to_list es).
Proof.
  cbn [Tree.fileCount]. rewrite map_fold_foldr.
  induction (map_to_list es) as [|[k c] l IH]; [done|]. simpl. by rewrite IH.
Qed.

Lemma directSize_Dir t es :
  directSize (Dir t es)
  = foldr (λ kv acc, sizeOf kv.2 + acc)%nat O (map_to_list es).
Proof.
  cbn [directSize]. rewrite map_fold_foldr.
  induction (map_to_list es) as [|[k c] l IH]; [done|]. simpl. by rewrite IH.
Qed.

Lemma totals_snoc entries e :
  totals (entries ++ [e])
  = if isDirectory e then totals entries
    else (((totals entries).1 + size e)%nat, S (totals entries).2).
Proof. unfold totals. by rewrite foldl_app. Qed.

Lemma totals_app l1 l2 :
  totals (l1 ++ l2)
  = (((totals l1).1 + (totals l2).1)%nat, ((totals l1).2 + (totals l2).2)%nat).
Proof.
  induction l2 as [|e l2 IH] using rev_ind.
  - rewrite app_nil_r. destruct (totals l1) as [a b]. cbn. f_equal; lia.
  - rewrite app_assoc, !totals_snoc, IH. destruct (isDirectory e); [done|].
    cbn. f_equal; lia.
Qed.

Section scan.
Context (cwd : string) (sm : Security.SecurityManager) (fs : node).

Lemma vetted_Dir p t es name c :
  vetted cwd sm fs p (Dir t es) = true → es !! name = Some c →
  kept name = true
  ∧ (∃ r, validatePath cwd sm fs (render (p ++ [name])) Security.Read = Ok r)
  ∧ vetted cwd sm fs (p ++ [name]) c = true.
Proof.
  cbn [vetted]. rewrite map_fold_foldr. intros H Hc.
  apply elem_of_map_to_list in Hc.
  induction (map_to_list es) as [|[k x] l IH]; [by apply elem_of_nil in Hc|].
  cbn [foldr uncurry] in H.
  apply andb_true_iff in H as [H Hl]. apply andb_true_iff in H as [H Hx].
  apply andb_true_iff in H as [Hk Hv].
  apply elem_of_cons in Hc as [Heq|Hc]; [|by apply IH].
  inversion Heq; subst. split; [done|]. split; [|done].
  destruct (validatePath _ _ _ _ _); [by eexists|done|done].
Qed.

Lemma scanEntries_vetted rec p d t es :
  Forall (λ s, kept s = true) p →
  get p fs = Some (Dir t es) →
  vetted cwd sm fs p (Dir t es) = true →
  (∀ name t' es' st,
     es !! name = Some (Dir t' es') →
     ∃ new st2,
       rec (p ++ [name]) (S d) st = Some (st.1 ++ new, st2)
       ∧ totals new = (Tree.totalSize (Dir t' es'), Tree.fileCount (Dir t' es'))
       ∧ Forall (listed cwd sm fs) new) →
  ∀ l st,
    (∀ kv, kv ∈ l → es !! kv.1 = Some kv.2) →
    ∃ new st2,
      scanEntries cwd sm fs rec p d l st = Some (st.1 ++ new, st2)
      ∧ totals new
        = (foldr (λ kv acc, Tree.totalSize kv.2 + acc)%nat O l,
           foldr (λ kv acc, Tree.fileCount kv.2 + acc)%nat O l)
      ∧ Forall (listed cwd sm fs) new.
Proof.
  intros Hp Hget Hvet Hrec l. induction l as [|[name c] l IH]; intros st Hl.
  - exists [], st.2. rewrite app_nil_r. by destruct st.
  - assert (es !! name = Some c) as Hc by (apply (Hl (name, c)); by left).
    destruct (vetted_Dir _ _ _ _ _ Hvet Hc) as (Hname & [r Hr] & Hsub).
    assert (Forall (λ s, kept s = true) (p ++ [name])) as Hq
      by (apply Forall_app; split; [done | by constructor]).
    pose proof (validatePath_rendered _ _ _ _ _ _ Hq Hr) as ->.
    assert (get (p ++ [name]) fs = Some c) as Hgc
      by (by rewrite (get_snoc_dir _ _ _ _ _ Hget)).
    cbn [scanEntries]. rewrite Hr.
    destruct c as [content mt | t' es']; cbn [Fs.isDirectory].
    + unfold statSync. rewrite Hgc. cbn [sizeOf].
      edestruct (IH (st.1 ++ [{| path := render (p ++ [name]);
                                 size := String.length content;
                                 isDirectory := false |}],
                     (λ fileTypeMap,
                        mapSet fileTypeMap (typeOf name)
                          (mapGet fileTypeMap (typeOf name) + String.length content))
                       <$> st.2))
        as (new & st2 & Hrun & Htot & Hlisted).
      { intros kv Hkv. apply Hl. by right. }
      exists ({| path := render (p ++ [name]); size := String.length content;
                 isDirectory := false |} :: new), st2.
      split; [|split].
      * rewrite Hrun. cbn [fst]. by rewrite <- app_assoc.
      * change (?e :: new) with ([e] ++ new). rewrite totals_app, Htot.
        cbn. f_equal.
      * constructor; [|done]. intros Hd. discriminate.
    + destruct (Hrec name t' es'
                  (st.1 ++ [{| path := render (p ++ [name]); size := 0;
                               isDirectory := true |}], st.2) Hc)
        as (new1 & st1 & Hrun1 & Htot1 & Hlisted1).
      rewrite Hrun1. cbn [mbind option_bind fst].
      edestruct (IH ((st.1 ++ [{| path := render (p ++ [name]); size := 0;
                                  isDirectory := true |}]) ++ new1, st1))
        as (new & st2 & Hrun & Htot & Hlisted).
      { intros kv Hkv. apply Hl. by right. }
      exists ({| path := render (p ++ [name]); size := 0; isDirectory := true |}
              :: new1 ++ new), st2.
      split; [|split].
      * rewrite Hrun. cbn [fst]. by rewrite <- !app_assoc.
      * change (?e :: new1 ++ new) with ([e] ++ new1 ++ new).
        rewrite !totals_app, Htot1, Htot. cbn. f_equal.
      * constructor; [|by apply Forall_app].
        intros _. exists (p ++ [name]), t', es'. done.
Qed.

Lemma scanDirectory_vetted fuel :
  ∀ p d t es st,
    Forall (λ s, kept s = true) p →
    get p fs = Some (Dir t es) →
    vetted cwd sm fs p (Dir t es) = true →
    (Tree.height (Dir t es) ≤ fuel)%nat →
    ∃ new st2,
      scanDirectory cwd sm fs fuel None p d st = Some (st.1 ++ new, st2)
      ∧ totals new = (Tree.totalSize (Dir t es), Tree.fileCount (Dir t es))
      ∧ Forall (listed cwd sm fs) new.
Proof.
  induction fuel as [|fuel IH]; intros p d t es st Hp Hget Hvet Hh.
  - cbn [Tree.height] in Hh. lia.
  - cbn [scanDirectory reached]. unfold readdirSync. rewrite Hget.
    rewrite totalSize_Dir, fileCount_Dir.
    apply (scanEntries_vetted _ p d t es); try done.
    + intros name t' es' st' Hc.
      destruct (vetted_Dir _ _ _ _ _ Hvet Hc) as (Hname & _ & Hsub).
      apply IH; [| | done |].
      * apply Forall_app; split; [done | by constructor].
      * by rewrite (get_snoc_dir _ _ _ _ _ Hget).
      * pose proof (height_child t es name _ Hc). lia.
    + intros [k c] Hkv. by apply elem_of_map_to_list.
Qed.


Lemma calculateSizeRecursive_S fuel maxDepth dirPath currentDepth :
  calculateSizeRecursive cwd sm fs (S fuel) maxDepth dirPath currentDepth
  = if reached currentDepth maxDepth then Some O
    else match readdirSync dirPath fs with
         | Ok entries =>
             sizeEntries cwd sm fs (calculateSizeRecursive cwd sm fs fuel maxDepth)
               dirPath currentDepth entries O
         | Err _ => Some O
         | OutOfFuel => None
         end.
Proof. reflexivity. Qed.

Lemma sizeEntries_direct fuel q t es :
  get q fs = Some (Dir t es) →
  vetted cwd sm fs q (Dir t es) = true →
  ∀ l acc,
    (∀ kv, kv ∈ l → es !! kv.1 = Some kv.2) →
    sizeEntries cwd sm fs (calculateSizeRecursive cwd sm fs (S fuel) (Some 1)) q 0 l acc
    = Some (acc + foldr (λ kv acc, sizeOf kv.2 + acc) O l)%nat.
Proof.
  intros Hget Hvet l. induction l as [|[name c] l IH]; intros acc Hl.
  - cbn. f_equal. lia.
  - assert (es !! name = Some c) as Hc by (apply (Hl (name, c)); by left).
    destruct (vetted_Dir _ _ _ _ _ Hvet Hc) as (_ & [r Hr] & _).
    cbn [sizeEntries]. rewrite Hr.
    destruct c as [content mt | t' es']; cbn [Fs.isDirectory].
    + unfold statSync. rewrite (get_snoc_dir _ _ _ _ _ Hget), Hc.
      rewrite IH by (intros kv Hkv; apply Hl; by right).
      cbn. f_equal. lia.
    + rewrite calculateSizeRecursive_S. cbn [reached].
      rewrite bool_decide_eq_true_2 by lia.
      cbn [mbind option_bind].
      rewrite IH by (intros kv Hkv; apply Hl; by right).
      cbn. f_equal. lia.
Qed.

Lemma calculateDirectorySize_direct fuel e :
  (2 ≤ fuel)%nat → listed cwd sm fs e → isDirectory e = true →
  ∃ q t es, path e = render q ∧ get q fs = Some (Dir t es)
            ∧ calculateDirectorySize cwd sm fs fuel (path e) (Some 1)
              = Ok (directSize (Dir t es)).
Proof.
  intros Hfuel He Hd. destruct (He Hd) as (q & t & es & -> & Hq & Hget & Hvet & Hv).
  exists q, t, es. split; [done|]. split; [done|].
  unfold calculateDirectorySize, validDirectory. rewrite Hv. cbn [bind].
  rewrite segments_render, Hget by done. cbn [bind].
  rewrite segments_render by done.
  destruct fuel as [|[|fuel]]; [lia | lia |].
  rewrite calculateSizeRecursive_S. cbn [reached].
  rewrite bool_decide_eq_false_2 by lia.
  unfold readdirSync. rewrite Hget.
  rewrite (sizeEntries_direct _ _ _ _ Hget Hvet).
  - by rewrite directSize_Dir.
  - intros [k c] Hkv. by apply elem_of_map_to_list.
Qed.

Lemma mapSet_Forall (P : string * nat → Prop) m k v :
  Forall P m → P (k, v) → Forall P (mapSet m k v).
Proof.
  intros Hm Hkv. induction Hm as [|[k' v'] m Hx Hm IH]; cbn [mapSet].
  - by constructor.
  - case_bool_decide; constructor; done.
Qed.

Lemma directorySizes_sized fuel entries :
  (2 ≤ fuel)%nat → Forall (listed cwd sm fs) entries →
  ∀ sizes, Forall (sized fs) sizes →
    ∃ sizes', directorySizes cwd sm fs fuel entries sizes = Ok sizes'
              ∧ Forall (sized fs) sizes'.
Proof.
  intros Hfuel Hl. induction Hl as [|e entries He Hl IH]; intros sizes Hs.
  - by exists sizes.
  - cbn [directorySizes]. destruct (isDirectory e) eqn:Hd; [|by apply IH].
    destruct (calculateDirectorySize_direct fuel e Hfuel He Hd)
      as (q & t & es & Hpath & Hget & ->).
    cbn [bind]. apply IH, mapSet_Forall; [done|].
    exists q, t, es. done.
Qed.


Lemma sizeEntries_total rec p d t es :
  get p fs = Some (Dir t es) →
  vetted cwd sm fs p (Dir t es) = true →
  (∀ name t' es', es !! name = Some (Dir t' es') →
     rec (p ++ [name]) (S d) = Some (Tree.totalSize (Dir t' es'))) →
  ∀ l acc,
    (∀ kv, kv ∈ l → es !! kv.1 = Some kv.2) →
    sizeEntries cwd sm fs rec p d l acc
    = Some (acc + foldr (λ kv acc, Tree.totalSize kv.2 + acc) O l)%nat.
Proof.
  intros Hget Hvet Hrec l. induction l as [|[name c] l IH]; intros acc Hl.
  - cbn. f_equal. lia.
  - assert (es !! name = Some c) as Hc by (apply (Hl (name, c)); by left).
    destruct (vetted_Dir _ _ _ _ _ Hvet Hc) as (_ & [r Hr] & _).
    cbn [sizeEntries]. rewrite Hr.
    destruct c as [content mt | t' es']; cbn [Fs.isDirectory].
    + unfold statSync. rewrite (get_snoc_dir _ _ _ _ _ Hget), Hc.
      rewrite IH by (intros kv Hkv; apply Hl; by right).
      cbn. f_equal. lia.
    + rewrite (Hrec name t' es' Hc). cbn [mbind option_bind].
      rewrite IH by (intros kv Hkv; apply Hl; by right).
      cbn [foldr snd]. f_equal. lia.
Qed.

Lemma calculateSizeRecursive_total fuel :
  ∀ p d t es,
    get p fs = Some (Dir t es) →
    vetted cwd sm fs p (Dir t es) = true →
    (Tree.height (Dir t es) ≤ fuel)%nat →
    calculateSizeRecursive cwd sm fs fuel None p d = Some (Tree.totalSize (Dir t es)).
Proof.
  induction fuel as [|fuel IH]; intros p d t es Hget Hvet Hh.
  - cbn [Tree.height] in Hh. lia.
  - rewrite calculateSizeRecursive_S. cbn [reached]. unfold readdirSync. rewrite Hget.
    rewrite (sizeEntries_total _ p d t es Hget Hvet).
    + by rewrite totalSize_Dir.
    + intros name t' es' Hc.
      destruct (vetted_Dir _ _ _ _ _ Hvet Hc) as (_ & _ & Hsub).
      apply IH; [by rewrite (get_snoc_dir _ _ _ _ _ Hget) | done |].
      pose proof (height_child t es name _ Hc). lia.
    + intros [k c] Hkv. by apply elem_of_map_to_list.
Qed.

Lemma sum_mapSet m k v : sum (mapSet m k (mapGet m k + v)) = (sum m + v)%nat.
Proof.
  induction m as [|[k' v'] m IH]; cbn [mapSet mapGet].
  - cbn. lia.
  - case_bool_decide.
    + cbn. lia.
    + cbn [sum foldr snd] in *. fold (sum (mapSet m k (mapGet m k + v))).
      fold (sum m). rewrite IH. lia.
Qed.

Lemma scanEntries_balanced rec p d :
  (∀ q d' st st', rec q d' st = Some st' →
     balanced st → balanced st' ∧ (is_Some st'.2 ↔ is_Some st.2)) →
  ∀ l st st', scanEntries cwd sm fs rec p d l st = Some st' →
    balanced st → balanced st' ∧ (is_Some st'.2 ↔ is_Some st.2).
Proof.
  intros Hrec l. induction l as [|[name c] l IH]; intros st st' Hrun Hb.
  - cbn in Hrun. by simplify_eq.
  - cbn [scanEntries] in Hrun.
    destruct (validatePath _ _ _ _ _) as [r| |]; [|by eapply IH|done].
    destruct (Fs.isDirectory c).
    + destruct (rec _ _ _) as [st1|] eqn:Hrec1; [|done].
      cbn [mbind option_bind] in Hrun.
      apply Hrec in Hrec1 as [Hb1 Hs1].
      * apply IH in Hrun as [Hb' Hs']; [|done]. split; [done|].
        rewrite Hs', Hs1. done.
      * unfold balanced in *. cbn [fst snd]. rewrite totals_snoc. done.
    + destruct (statSync _ _) as [fileStats| |]; [|by eapply IH|done].
      apply IH in Hrun as [Hb' Hs'].
      * split; [done|]. rewrite Hs'. cbn [snd]. by rewrite fmap_is_Some.
      * unfold balanced in *. cbn [fst snd]. rewrite totals_snoc. cbn [isDirectory size].
        destruct st.2 as [m|]; [|done]. cbn [fmap option_fmap option_map fst].
        rewrite sum_mapSet. by rewrite Hb.
Qed.

Lemma scanDirectory_balanced fuel maxDepth :
  ∀ p d st st', scanDirectory cwd sm fs fuel maxDepth p d st = Some st' →
    balanced st → balanced st' ∧ (is_Some st'.2 ↔ is_Some st.2).
Proof.
  induction fuel as [|fuel IH]; intros p d st st' Hrun Hb; [done|].
  cbn [scanDirectory] in Hrun.
  destruct (reached d maxDepth); [by simplify_eq|].
  destruct (readdirSync p fs) as [l| |]; [|by simplify_eq|done].
  by eapply scanEntries_balanced.
Qed.

Lemma analyzeDiskUsage_inv fuel dirPath depth groupByType report :
  analyzeDiskUsage cwd sm fs fuel dirPath depth groupByType = Ok report →
  ∃ validPath entries fileTypeMap sizes,
    scanDirectory cwd sm fs fuel depth (segments validPath) 0
      ([], if groupByType then Some [] else None) = Some (entries, fileTypeMap)
    ∧ report
      = {| reportPath := validPath;
           totalSize := (totals entries).1;
           fileCount := (totals entries).2;
           largestFiles :=
             (λ e, (path e, size e))
               <$> take 10 (sortDescending size
                              (filter (λ e, isDirectory e = false) entries));
           largestDirectories := take 10 (sortDescending snd sizes);
           fileTypeBreakdown := fileTypeMap |}.
Proof.
  unfold analyzeDiskUsage. intros H.
  destruct (validDirectory _ _ _ _) as [validPath| |]; try discriminate.
  cbn [bind] in H.
  destruct (scanDirectory _ _ _ _ _ _ _ _) as [[entries fileTypeMap]|] eqn:Hscan;
    [|discriminate].
  destruct (directorySizes _ _ _ _ _ _) as [sizes| |]; try discriminate.
  cbn [bind] in H. exists validPath, entries, fileTypeMap, sizes.
  split; [done|]. by simplify_eq.
Qed.

Lemma analyzeDiskUsage_vetted fuel dirPath groupByType validPath t es :
  validatePath cwd sm fs dirPath Security.Read = Ok validPath →
  get (segments validPath) fs = Some (Dir t es) →
  vetted cwd sm fs (segments validPath) (Dir t es) = true →
  (Tree.height (Dir t es) < fuel)%nat →
  ∃ entries fileTypeMap sizes,
    analyzeDiskUsage cwd sm fs fuel dirPath None groupByType
    = Ok {| reportPath := validPath;
            totalSize := (totals entries).1;
            fileCount := (totals entries).2;
            largestFiles :=
              (λ e, (path e, size e))
                <$> take 10 (sortDescending size
                               (filter (λ e, isDirectory e = false) entries));
            largestDirectories := take 10 (sortDescending snd sizes);
            fileTypeBreakdown := fileTypeMap |}
    ∧ totals entries = (Tree.totalSize (Dir t es), Tree.fileCount (Dir t es))
    ∧ Forall (sized fs) sizes.
Proof.
  intros Hv Hget Hvet Hfuel.
  destruct (validatePath_segments _ _ _ _ _ _ Hv) as [Hkept _].
  destruct (scanDirectory_vetted fuel (segments validPath) 0 t es
              ([], if groupByType then Some [] else None) Hkept Hget Hvet)
    as (entries & fileTypeMap & Hscan & Htot & Hlisted); [lia|].
  cbn [fst app] in Hscan.
  destruct (directorySizes_sized fuel entries) with (sizes := @nil (string * nat))
    as (sizes & Hsizes & Hsized); [|done|done|].
  { cbn [Tree.height] in Hfuel. lia. }
  exists entries, fileTypeMap, sizes. split; [|done].
  unfold analyzeDiskUsage, validDirectory. rewrite Hv. cbn [bind].
  rewrite Hget. cbn [bind]. rewrite Hscan, Hsizes. done.
Qed.

End scan.

Lemma insertDescending_Permutation {A} (key : A → nat) x l :
  insertDescending key x l ≡ₚ x :: l.
Proof.
  induction l as [|y l IH]; cbn [insertDescending]; [done|].
  destruct (key x <? key y)%nat; [|done]. rewrite IH. apply Permutation_swap.
Qed.

Lemma sortDescending_Permutation {A} (key : A → nat) l : sortDescending key l ≡ₚ l.
Proof.
  induction l as [|x l IH]; [done|]. cbn [sortDescending foldr].
  rewrite insertDescending_Permutation. by constructor.
Qed.

Lemma insertDescending_sorted {A} (key : A → nat) x l :
  StronglySorted (λ a b, key b ≤ key a)%nat l →
  StronglySorted (λ a b, key b ≤ key a)%nat (insertDescending key x l).
Proof.
  induction 1 as [|y l Hl IH Hy]; cbn [insertDescending].
  - by repeat constructor.
  - destruct (key x <? key y)%nat eqn:Hlt.
    + apply Nat.ltb_lt in Hlt. constructor; [done|].
      rewrite insertDescending_Permutation. constructor; [lia | done].
    + apply Nat.ltb_ge in Hlt. constructor; [by constructor|].
      constructor; [done|]. eapply Forall_impl; [exact Hy|]. cbn. lia.
Qed.

Lemma sortDescending_sorted {A} (key : A → nat) l :
  StronglySorted (λ a b, key b ≤ key a)%nat (sortDescending key l).
Proof.
  induction l as [|x l IH]; [constructor|]. by apply insertDescending_sorted.
Qed.

Lemma sorted_lookup {A} (R : A → A → Prop) l i j a b :
  StronglySorted R l → (i < j)%nat → l !! i = Some a → l !! j = Some b → R a b.
Proof.
  intros Hs. revert i j. induction Hs as [|x l Hl IH Hx]; intros i j Hij Hi Hj; [done|].
  destruct j as [|j]; [lia|]. cbn in Hj. destruct i as [|i].
  - cbn in Hi. simplify_eq. rewrite Forall_forall in Hx. apply Hx.
    by eapply list_elem_of_lookup_2.
  - cbn in Hi. apply (IH i j); [lia|done|done].
Qed.

Lemma totals_files entries :
  totals entries
  = (foldr (λ e acc, size e + acc)%nat O (filter (λ e, isDirectory e = false) entries),
     length (filter (λ e, isDirectory e = false) entries)).
Proof.
  induction entries as [|e l IH] using rev_ind; [done|].
  rewrite totals_snoc, filter_app, IH.
  destruct (isDirectory e) eqn:Hd.
  - rewrite filter_cons_False, filter_nil, app_nil_r by (by rewrite Hd). done.
  - rewrite filter_cons_True, filter_nil by done. cbn [fst snd].
    rewrite length_app, foldr_app. cbn [length foldr]. f_equal; [|lia].
    generalize (filter (λ e0, isDirectory e0 = false) l). intros l'.
    induction l' as [|x l' IH']; cbn [foldr]; [lia|]. rewrite <- IH'. lia.
Qed.

Lemma sum_sizes (l : list FileEntry) :
  sum ((λ e, (path e, size e)) <$> l) = foldr (λ e acc, size e + acc)%nat O l.
Proof. induction l as [|e l IH]; [done|]. cbn. f_equal. exact IH. Qed.

Lemma foldr_size_Permutation (l l' : list FileEntry) :
  l ≡ₚ l' →
  foldr (λ e acc, size e + acc)%nat O l = foldr (λ e acc, size e + acc)%nat O l'.
Proof.
  induction 1; cbn [foldr]; [done | by f_equal | lia | congruence].
Qed.

Example project_report :
  analyzeDiskUsage "/" SecurityAux.wsManager project 4 "proj" None true
  = Ok {| reportPath := "/ws/proj";
          totalSize := 88;
          fileCount := 5;
          largestFiles :=
            [("/ws/proj/src/gen/big.bin", 40%nat); ("/ws/proj/src/main.C", 24%nat);
             ("/ws/proj/src/util.c", 13%nat); ("/ws/proj/README.md", 7%nat);
             ("/ws/proj/Makefile", 4%nat)];
          largestDirectories :=
            [("/ws/proj/src/gen", 40%nat); ("/ws/proj/src", 37%nat)];
          fileTypeBreakdown :=
            Some [(".bin", 40%nat); (".c", 37%nat); ("(no extension)", 4%nat);
                  (".md", 7%nat)] |}.
Proof. vm_compute. reflexivity. Qed.

(** X24.  When every entry below a directory is let through by
    [validatePath] (and bears an ordinary entry name), [analyzeDiskUsage]
    without a depth limit returns a report for the validated path whose
    [totalSize] is the number of bytes of all regular files below the
    directory and whose [fileCount] is their number. *)
Theorem analyzeDiskUsage_counts_every_file cwd sm fs fuel dirPath groupByType
    validPath t es :
  validatePath cwd sm fs dirPath Security.Read = Ok validPath →
  get (segments validPath) fs = Some (Dir t es) →
  vetted cwd sm fs (segments validPath) (Dir t es) = true →
  (Tree.height (Dir t es) < fuel)%nat →
  ∃ report,
    analyzeDiskUsage cwd sm fs fuel dirPath None groupByType = Ok report
    ∧ reportPath report = validPath
    ∧ totalSize report = Tree.totalSize (Dir t es)
    ∧ fileCount report = Tree.fileCount (Dir t es).
Proof.
  intros Hv Hget Hvet Hfuel.
  destruct (analyzeDiskUsage_vetted cwd sm fs fuel dirPath groupByType validPath t es)
    as (entries & fileTypeMap & sizes & Hrun & Htot & _); try done.
  eexists. split; [exact Hrun|]. cbn. by rewrite Htot.
Qed.

Lemma analyzeDiskUsage_counts_every_file_witness :
  ∃ report,
    analyzeDiskUsage "/" SecurityAux.wsManager project 4 "proj" None false = Ok report
    ∧ reportPath report = "/ws/proj"
    ∧ totalSize report = Tree.totalSize (Dir 0 projectFiles)
    ∧ fileCount report = Tree.fileCount (Dir 0 projectFiles).
Proof.
  apply (analyzeDiskUsage_counts_every_file "/" SecurityAux.wsManager project 4
           "proj" false "/ws/proj" 0 projectFiles).
  - vm_compute. reflexivity.
  - vm_compute. reflexivity.
  - vm_compute. reflexivity.
  - vm_compute. lia.
Defined.

(** X25.  Under the same conditions, the size [analyzeDiskUsage] reports
    for a directory in [largestDirectories] is the number of bytes of the
    regular files that are entries of that directory itself: what its
    subdirectories hold is not counted. *)
Theorem largestDirectories_count_direct_files cwd sm fs fuel dirPath groupByType
    validPath t es :
  validatePath cwd sm fs dirPath Security.Read = Ok validPath →
  get (segments validPath) fs = Some (Dir t es) →
  vetted cwd sm fs (segments validPath) (Dir t es) = true →
  (Tree.height (Dir t es) < fuel)%nat →
  ∃ report,
    analyzeDiskUsage cwd sm fs fuel dirPath None groupByType = Ok report
    ∧ ∀ d s, (d, s) ∈ largestDirectories report →
        ∃ q t' es', d = render q ∧ get q fs = Some (Dir t' es')
                    ∧ s = directSize (Dir t' es').
Proof.
  intros Hv Hget Hvet Hfuel.
  destruct (analyzeDiskUsage_vetted cwd sm fs fuel dirPath groupByType validPath t es)
    as (entries & fileTypeMap & sizes & Hrun & _ & Hsized); try done.
  eexists. split; [exact Hrun|]. cbn [largestDirectories]. intros d s Hin.
  apply elem_of_take in Hin as (i & Hi & _).
  apply list_elem_of_lookup_2 in Hi. rewrite sortDescending_Permutation in Hi.
  rewrite Forall_forall in Hsized. exact (Hsized _ Hi).
Qed.

Lemma largestDirectories_count_direct_files_witness :
  (∃ report,
     analyzeDiskUsage "/" SecurityAux.wsManager project 4 "proj" None false = Ok report
     ∧ ∀ d s, (d, s) ∈ largestDirectories report →
         ∃ q t' es', d = render q ∧ get q project = Some (Dir t' es')
                     ∧ s = directSize (Dir t' es'))
  ∧ get ["ws"; "proj"; "src"] project = Some (Dir 0 sources)
  ∧ directSize (Dir 0 sources) = 37%nat
  ∧ Tree.totalSize (Dir 0 sources) = 77%nat.
Proof.
  split; [|repeat split; vm_compute; reflexivity].
  apply (largestDirectories_count_direct_files "/" SecurityAux.wsManager project 4
           "proj" false "/ws/proj" 0 projectFiles).
  - vm_compute. reflexivity.
  - vm_compute. reflexivity.
  - vm_compute. reflexivity.
  - vm_compute. lia.
Defined.

(** X28.  When every entry below a directory is let through by
    [validatePath], [calculateDirectorySize] without a depth limit
    returns the number of bytes of all regular files below the
    directory. *)
Theorem calculateDirectorySize_whole_tree cwd sm fs fuel dirPath validPath t es :
  validatePath cwd sm fs dirPath Security.Read = Ok validPath →
  get (segments validPath) fs = Some (Dir t es) →
  vetted cwd sm fs (segments validPath) (Dir t es) = true →
  (Tree.height (Dir t es) ≤ fuel)%nat →
  calculateDirectorySize cwd sm fs fuel dirPath None
  = Ok (Tree.totalSize (Dir t es)).
Proof.
  intros Hv Hget Hvet Hfuel.
  unfold calculateDirectorySize, validDirectory. rewrite Hv. cbn [bind].
  rewrite Hget. cbn [bind].
  by rewrite (calculateSizeRecursive_total _ _ _ _ _ _ _ _ Hget Hvet Hfuel).
Qed.

Lemma calculateDirectorySize_whole_tree_witness :
  calculateDirectorySize "/" SecurityAux.wsManager project 3 "proj" None
  = Ok (Tree.totalSize (Dir 0 projectFiles)).
Proof.
  apply (calculateDirectorySize_whole_tree "/" SecurityAux.wsManager project 3
           "proj" "/ws/proj" 0 projectFiles).
  - vm_compute. reflexivity.
  - vm_compute. reflexivity.
  - vm_compute. reflexivity.
  - vm_compute. lia.
Defined.

(** X26.  In a report [analyzeDiskUsage] returns, [fileTypeBreakdown] is
    present exactly when [groupByType] was set, and the sizes it lists
    per file type then add up to [totalSize], whatever the depth limit
    and whichever entries the scan skipped (the tree has no symbolic
    links). *)
Theorem fileTypeBreakdown_adds_up cwd sm fs fuel dirPath depth groupByType report :
  analyzeDiskUsage cwd sm fs fuel dirPath depth groupByType = Ok report →
  match fileTypeBreakdown report with
  | Some m => groupByType = true ∧ sum m = totalSize report
  | None => groupByType = false
  end.
Proof.
  intros H.
  apply analyzeDiskUsage_inv in H as (validPath & entries & m & sizes & Hscan & ->).
  cbn [fileTypeBreakdown totalSize].
  apply scanDirectory_balanced in Hscan as [Hb Hs].
  - cbn [snd] in Hs. unfold balanced in Hb. cbn [fst snd] in Hb.
    destruct m as [m|].
    + split; [|done]. destruct groupByType; [done|].
      destruct Hs as [Hs _]. by destruct Hs.
    + destruct groupByType; [|done].
      destruct Hs as [_ Hs]. by destruct Hs.
  - unfold balanced. cbn [snd]. by destruct groupByType.
Qed.

Lemma fileTypeBreakdown_adds_up_witness :
  match fileTypeBreakdown
          {| reportPath := "/ws/proj"; totalSize := 11; fileCount := 2;
             largestFiles := [("/ws/proj/README.md", 7%nat); ("/ws/proj/Makefile", 4%nat)];
             largestDirectories := [("/ws/proj/src", 37%nat)];
             fileTypeBreakdown := Some [("(no extension)", 4%nat); (".md", 7%nat)] |} with
  | Some m => true = true ∧ sum m = 11%nat
  | None => true = false
  end.
Proof.
  apply (fileTypeBreakdown_adds_up "/" SecurityAux.wsManager project 4 "proj"
           (Some 1) true).
  vm_compute. reflexivity.
Defined.

(** X27.  In a report [analyzeDiskUsage] returns, [largestFiles] lists
    [min 10 fileCount] files in descending order of size, and when the
    scan found at most ten files it lists them all: their sizes add up
    to [totalSize]. *)
Theorem largestFiles_ranked cwd sm fs fuel dirPath depth groupByType report :
  analyzeDiskUsage cwd sm fs fuel dirPath depth groupByType = Ok report →
  length (largestFiles report) = Nat.min 10 (fileCount report)
  ∧ (∀ i j a b, (i < j)%nat →
       largestFiles report !! i = Some a → largestFiles report !! j = Some b →
       (b.2 ≤ a.2)%nat)
  ∧ ((fileCount report ≤ 10)%nat → sum (largestFiles report) = totalSize report).
Proof.
  intros H.
  apply analyzeDiskUsage_inv in H as (validPath & entries & m & sizes & _ & ->).
  cbn [largestFiles fileCount totalSize]. rewrite totals_files. cbn [fst snd].
  set (files := filter (λ e, isDirectory e = false) entries).
  pose proof (sortDescending_Permutation size files) as Hperm.
  split; [|split].
  - by rewrite length_fmap, length_take, Hperm.
  - intros i j a b Hij Ha Hb.
    rewrite list_lookup_fmap in Ha, Hb.
    destruct (take 10 _ !! i) as [x|] eqn:Hx; [|done].
    destruct (take 10 _ !! j) as [y|] eqn:Hy; [|done].
    cbn in Ha, Hb. simplify_eq. cbn [snd].
    apply lookup_take_Some in Hx as [Hx _]. apply lookup_take_Some in Hy as [Hy _].
    exact (sorted_lookup _ _ i j x y (sortDescending_sorted size files) Hij Hx Hy).
  - intros Hfew. rewrite take_ge by (by rewrite Hperm).
    rewrite sum_sizes. by apply foldr_size_Permutation.
Qed.

Lemma largestFiles_ranked_witness :
  let report :=
    {| reportPath := "/ws/proj"; totalSize := 88; fileCount := 5;
       largestFiles :=
         [("/ws/proj/src/gen/big.bin", 40%nat); ("/ws/proj/src/main.C", 24%nat);
          ("/ws/proj/src/util.c", 13%nat); ("/ws/proj/README.md", 7%nat);
          ("/ws/proj/Makefile", 4%nat)];
       largestDirectories :=
         [("/ws/proj/src/gen", 40%nat); ("/ws/proj/src", 37%nat)];
       fileTypeBreakdown := None |} in
  length (largestFiles report) = Nat.min 10 (fileCount report)
  ∧ (∀ i j a b, (i < j)%nat →
       largestFiles report !! i = Some a → largestFiles report !! j = Some b →
       (b.2 ≤ a.2)%nat)
  ∧ ((fileCount report ≤ 10)%nat → sum (largestFiles report) = totalSize report).
Proof.
  apply (largestFiles_ranked "/" SecurityAux.wsManager project 4 "proj" None false).
  vm_compute. reflexivity.
Defined.

End DiskUsageFacts.
